(** * Webbybot: the Robot class (listener registry, dispatcher, pattern
      builder, error channel)

    The development embeds two source files of the repository:

    - the complete [Robot] class (the file with [processListeners] written
      out), in [Module Robot];
    - [src/robot.js], an earlier state of the same class, whose functions
      that differ from the complete class are in [Module SrcRobot].

    JavaScript values are modelled as the code uses them: strings as
    [string] (one [ascii] per code unit, code units below 256), arrays as
    lists, objects as records, [undefined]/[null]/[false] as [None].
    Effects (logger output, calls of plug-in functions, the [done] flag of
    message objects, thrown exceptions) go through the monad [M]. *)

From Stdlib Require Import String Ascii List Bool Arith Lia.
Import ListNotations.
Open Scope string_scope.
Open Scope list_scope.
Open Scope nat_scope.

Set Implicit Arguments.

(* ------------------------------------------------------------------ *)
(** * JavaScript strings and arrays *)
(* ------------------------------------------------------------------ *)

Module Js.

(** [s.split(sep)] for a one-character separator. *)
Fixpoint split (sep : ascii) (s : string) : list string :=
  match s with
  | EmptyString => [EmptyString]
  | String c s' =>
      if Ascii.eqb c sep then EmptyString :: split sep s'
      else match split sep s' with
           | [] => [String c EmptyString]
           | w :: ws => String c w :: ws
           end
  end.

(** [a.join(sep)]. *)
Fixpoint join (sep : string) (a : list string) : string :=
  match a with
  | [] => EmptyString
  | [w] => w
  | w :: ws => (w ++ sep ++ join sep ws)%string
  end.

(** [a.shift()]: the array without its first element. *)
Definition shift (a : list string) : list string := tl a.

(** [a.pop()]: the last element ([undefined] on an empty array) and the
    array without it. *)
Definition pop (a : list string) : option string * list string :=
  match a with
  | [] => (None, [])
  | _ => (Some (last a EmptyString), removelast a)
  end.

(** [s[0]]. *)
Definition char0 (s : string) : option ascii :=
  match s with
  | EmptyString => None
  | String c _ => Some c
  end.

(** Truthiness of a string. *)
Definition truthy (s : string) : bool :=
  match s with
  | EmptyString => false
  | _ => true
  end.

Definition code (c : ascii) : nat := nat_of_ascii c.

(** White space, the class [\s], among the code units below 256. *)
Definition is_space (c : ascii) : bool :=
  let n := code c in
  ((9 <=? n) && (n <=? 13)) || (n =? 32) || (n =? 160).

Definition is_digit (c : ascii) : bool :=
  let n := code c in (48 <=? n) && (n <=? 57).

Definition is_word (c : ascii) : bool :=
  let n := code c in
  ((48 <=? n) && (n <=? 57)) || ((65 <=? n) && (n <=? 90))
  || ((97 <=? n) && (n <=? 122)) || (n =? 95).

(** [toUpperCase] and [toLowerCase] of one code unit, where the result
    is again one code unit below 256; other code units are left alone
    (their case partner lies outside the modelled range). *)
Definition upper (c : ascii) : ascii :=
  let n := code c in
  if ((97 <=? n) && (n <=? 122))
     || ((224 <=? n) && (n <=? 254) && negb (n =? 247))
  then ascii_of_nat (n - 32) else c.

Definition lower (c : ascii) : ascii :=
  let n := code c in
  if ((65 <=? n) && (n <=? 90))
     || ((192 <=? n) && (n <=? 222) && negb (n =? 215))
  then ascii_of_nat (n + 32) else c.

(** [s.length]. *)
Definition length (s : string) : nat := String.length s.

End Js.

(* ------------------------------------------------------------------ *)
(** * The RegExp built-in *)
(* ------------------------------------------------------------------ *)

(** A [RegExp] object is its source text and its flags.  The engine below
    gives [RegExp.prototype.test] for the pattern syntax that
    [respondPattern] emits and wraps: literals, identity and class
    escapes, [.], character classes, groups, alternation, the quantifiers
    [*], [+], [?] and the anchors [^] and [$].  [test] only asks whether
    some match exists, so the engine computes the set of positions a
    pattern can reach instead of backtracking. *)

Module RegExp.

Record t := mk { source : string; flags : string }.

(** [regex.toString()]. *)
Definition toString (r : t) : string :=
  ("/" ++ source r ++ "/" ++ flags r)%string.

Inductive ClassItem :=
| CChar (c : ascii)
| CRange (lo hi : ascii)
| CSpace (neg : bool)
| CDigit (neg : bool)
| CWord (neg : bool).

Inductive Node :=
| Empty
| Chr (c : ascii)
| AnyChar
| Class (neg : bool) (items : list ClassItem)
| Bol
| Eol
| Seq (a b : Node)
| Alt (a b : Node)
| Star (a : Node)
| Plus (a : Node)
| Opt (a : Node).

(** ** Parsing the source text *)

Definition escape_item (c : ascii) : ClassItem :=
  match c with
  | "s"%char => CSpace false
  | "S"%char => CSpace true
  | "d"%char => CDigit false
  | "D"%char => CDigit true
  | "w"%char => CWord false
  | "W"%char => CWord true
  | "t"%char => CChar (ascii_of_nat 9)
  | "n"%char => CChar (ascii_of_nat 10)
  | "v"%char => CChar (ascii_of_nat 11)
  | "f"%char => CChar (ascii_of_nat 12)
  | "r"%char => CChar (ascii_of_nat 13)
  | _ => CChar c
  end.

(** Escapes the engine does not model: back references, [\b], [\B],
    [\c], [\x], [\u] and [\0]. *)
Definition unsupported_escape (c : ascii) : bool :=
  Js.is_digit c
  || existsb (Ascii.eqb c) ["b"; "B"; "c"; "x"; "u"; "k"]%char.

(** [c] is the one character of [d]. *)
Definition ch_is (c : ascii) (d : string) : bool :=
  match d with
  | String d' EmptyString => Ascii.eqb c d'
  | _ => false
  end.

(** One member of a class: a character or an escape. *)
Definition class_atom (s : list ascii)
  : option (ClassItem * list ascii) :=
  match s with
  | [] => None
  | c :: rest =>
      if ch_is c "\" then
        match rest with
        | [] => None
        | e :: rest' =>
            if unsupported_escape e then None
            else Some (escape_item e, rest')
        end
      else Some (CChar c, rest)
  end.

(** The items of a class, up to the closing bracket. *)
Fixpoint class_items (fuel : nat) (s : list ascii) (acc : list ClassItem)
  : option (list ClassItem * list ascii) :=
  match fuel with
  | 0 => None
  | S fuel' =>
      match s with
      | [] => None
      | c :: rest =>
          if ch_is c "]" then Some (rev acc, rest)
          else
            match class_atom s with
            | None => None
            | Some (a, s1) =>
                match a, s1 with
                | CChar lo, d :: (e :: _) as s2 =>
                    if ch_is d "-" && negb (ch_is e "]") then
                      match class_atom s2 with
                      | Some (CChar hi, s3) =>
                          class_items fuel' s3 (CRange lo hi :: acc)
                      | _ => None
                      end
                    else class_items fuel' s1 (a :: acc)
                | _, _ => class_items fuel' s1 (a :: acc)
                end
            end
      end
  end.

Definition quantify (a : Node) (s : list ascii) : Node * list ascii :=
  let lazy (rest : list ascii) :=
    match rest with
    | c :: rest' => if ch_is c "?" then rest' else rest
    | [] => rest
    end in
  match s with
  | c :: rest =>
      if ch_is c "*" then (Star a, lazy rest)
      else if ch_is c "+" then (Plus a, lazy rest)
      else if ch_is c "?" then (Opt a, lazy rest)
      else (a, s)
  | [] => (a, s)
  end.

Definition node_of_item (i : ClassItem) : Node :=
  match i with
  | CChar c => Chr c
  | _ => Class false [i]
  end.

Definition closes (o : option (Node * list ascii))
  : option (Node * list ascii) :=
  match o with
  | Some (r, c :: rest) => if ch_is c ")" then Some (r, rest) else None
  | _ => None
  end.

Definition class_of (neg : bool) (s : list ascii)
  : option (Node * list ascii) :=
  match class_items (S (List.length s)) s [] with
  | Some (items, rest) => Some (Class neg items, rest)
  | None => None
  end.

(** An atom of the pattern grammar; [disjunction] parses the inside
    of a group. *)
Definition atom
  (disjunction : list ascii -> option (Node * list ascii))
  (s : list ascii) : option (Node * list ascii) :=
  match s with
  | [] => None
  | c :: rest =>
      if ch_is c "(" then
        match rest with
        | q :: rest1 =>
            if ch_is q "?" then
              match rest1 with
              | k :: rest2 =>
                  if ch_is k ":" then closes (disjunction rest2)
                  else None
              | [] => None
              end
            else closes (disjunction rest)
        | [] => None
        end
      else if ch_is c "[" then
        match rest with
        | n :: rest1 =>
            if ch_is n "^" then class_of true rest1
            else class_of false rest
        | [] => None
        end
      else if ch_is c "\" then
        match rest with
        | e :: rest1 =>
            if unsupported_escape e then None
            else Some (node_of_item (escape_item e), rest1)
        | [] => None
        end
      else if ch_is c "." then Some (AnyChar, rest)
      else if ch_is c "^" then Some (Bol, rest)
      else if ch_is c "$" then Some (Eol, rest)
      else if existsb (ch_is c) ["*"; "+"; "?"; "{"; ")"; "|"] then None
      else Some (Chr c, rest)
  end.

(** An alternative: terms up to a bar, a closing parenthesis or the
    end; [n] bounds the number of terms. *)
Fixpoint alternative
  (disjunction : list ascii -> option (Node * list ascii))
  (n : nat) (s : list ascii) : option (Node * list ascii) :=
  match n with
  | 0 => None
  | S n' =>
      match s with
      | [] => Some (Empty, s)
      | c :: _ =>
          if ch_is c "|" || ch_is c ")" then Some (Empty, s)
          else
            match atom disjunction s with
            | Some (a, s1) =>
                let (q, s2) := quantify a s1 in
                match alternative disjunction n' s2 with
                | Some (r, s3) => Some (Seq q r, s3)
                | None => None
                end
            | None => None
            end
      end
  end.

(** A disjunction: alternatives separated by bars; the fuel bounds the
    nesting of groups and the number of bars, and [parse] supplies
    enough of it. *)
Fixpoint disjunction (fuel : nat) (s : list ascii)
  : option (Node * list ascii) :=
  match fuel with
  | 0 => None
  | S fuel' =>
      match alternative (disjunction fuel') (S (List.length s)) s with
      | Some (a, c :: rest) =>
          if ch_is c "|" then
            match disjunction fuel' rest with
            | Some (b, rest') => Some (Alt a b, rest')
            | None => None
            end
          else Some (a, c :: rest)
      | other => other
      end
  end.

(** The pattern of a source text; [None] when the text is outside the
    modelled syntax. *)
Definition parse (src : string) : option Node :=
  let s := list_ascii_of_string src in
  match disjunction (S (List.length s)) s with
  | Some (r, []) => Some r
  | _ => None
  end.

(** ** Matching *)

(** A position in the subject: the code unit before it and the rest. *)
Record Pos := pos { prev : option ascii; rest : list ascii }.

Definition is_newline (c : ascii) : bool :=
  let n := Js.code c in (n =? 10) || (n =? 13).

Section Matcher.
Variables (ignoreCase multiline : bool).

Definition canonicalize (c : ascii) : ascii :=
  if ignoreCase then Js.upper c else c.

Definition same_char (c d : ascii) : bool :=
  Ascii.eqb (canonicalize c) (canonicalize d).

Definition item_has (c : ascii) (i : ClassItem) : bool :=
  match i with
  | CChar d => Ascii.eqb c d
  | CRange lo hi => (Js.code lo <=? Js.code c) && (Js.code c <=? Js.code hi)
  | CSpace neg => xorb neg (Js.is_space c)
  | CDigit neg => xorb neg (Js.is_digit c)
  | CWord neg => xorb neg (Js.is_word c)
  end.

Definition class_has (items : list ClassItem) (c : ascii) : bool :=
  existsb (item_has c) items
  || (ignoreCase
      && (existsb (item_has (Js.upper c)) items
          || existsb (item_has (Js.lower c)) items)).

Definition eat (p : ascii -> bool) (x : Pos) : list Pos :=
  match rest x with
  | c :: r => if p c then [pos (Some c) r] else []
  | [] => []
  end.

Definition at_bol (x : Pos) : bool :=
  match prev x with
  | None => true
  | Some c => multiline && is_newline c
  end.

Definition at_eol (x : Pos) : bool :=
  match rest x with
  | [] => true
  | c :: _ => multiline && is_newline c
  end.

(** The positions reachable from [x] by matching [r]. *)
Fixpoint reach (r : Node) (x : Pos) : list Pos :=
  match r with
  | Empty => [x]
  | Chr c => eat (same_char c) x
  | AnyChar => eat (fun c => negb (is_newline c)) x
  | Class neg items => eat (fun c => xorb neg (class_has items c)) x
  | Bol => if at_bol x then [x] else []
  | Eol => if at_eol x then [x] else []
  | Seq a b => flat_map (reach b) (reach a x)
  | Alt a b => reach a x ++ reach b x
  | Opt a => x :: reach a x
  | Star a =>
      (fix loop (n : nat) (front : list Pos) : list Pos :=
         match n with
         | 0 => front
         | S n' => front ++ loop n' (flat_map (reach a) front)
         end) (List.length (rest x)) [x]
  | Plus a =>
      (fix loop (n : nat) (front : list Pos) : list Pos :=
         match n with
         | 0 => front
         | S n' => front ++ loop n' (flat_map (reach a) front)
         end) (List.length (rest x)) (reach a x)
  end.

(** Every position of the subject, from the left. *)
Fixpoint starts (before : option ascii) (s : list ascii) : list Pos :=
  pos before s ::
  match s with
  | [] => []
  | c :: s' => starts (Some c) s'
  end.

Definition search (r : Node) (s : string) : bool :=
  existsb (fun x => negb (Nat.eqb (List.length (reach r x)) 0))
          (starts None (list_ascii_of_string s)).
End Matcher.

Definition has_flag (f : ascii) (r : t) : bool :=
  existsb (Ascii.eqb f) (list_ascii_of_string (flags r)).

(** [regex.test(s)] for a regex without the [g] and [y] flags; [None]
    when the source is outside the modelled syntax. *)
Definition test (r : t) (s : string) : option bool :=
  match parse (source r) with
  | Some n => Some (search (has_flag "i" r) (has_flag "m" r) n s)
  | None => None
  end.

(** ** Escapes in unicode mode *)

(** Whether a backslash followed by [c] starts an escape of the unicode
    mode (flag [u]).  There a character stands for itself after a
    backslash only if it is a syntax character or the slash, and inside
    a class also the hyphen; the other escapes are the class escapes
    [\d \D \s \S \w \W \p \P], the control escapes
    [\f \n \r \t \v], [\c], [\x], [\u], [\0], inside a class
    [\b], and outside one [\b], [\B], [\k] and the back references.
    Without the flag a backslash in front of any of the characters
    that [respondPattern] escapes is accepted. *)
Definition escape_in_u (in_class : bool) (c : ascii) : bool :=
  existsb (Ascii.eqb c)
    ["^"; "$"; "\"; "."; "*"; "+"; "?"; "("; ")"; "["; "]"; "{"; "}"; "|";
     "/"]%char
  || existsb (Ascii.eqb c)
       ["d"; "D"; "s"; "S"; "w"; "W"; "p"; "P"; "f"; "n"; "r"; "t"; "v";
        "c"; "x"; "u"; "0"; "b"]%char
  || (if in_class then Ascii.eqb c "-"%char
      else Js.is_digit c || existsb (Ascii.eqb c) ["B"; "k"]%char).

(** Every backslash of the text starts an escape of the unicode mode;
    [in_class] tells whether the text starts inside a class. *)
Fixpoint escapes_in_u (in_class : bool) (s : list ascii) : bool :=
  match s with
  | [] => true
  | c :: rest =>
      if ch_is c "\" then
        match rest with
        | [] => false
        | e :: rest' => escape_in_u in_class e && escapes_in_u in_class rest'
        end
      else if ch_is c "[" then escapes_in_u true rest
      else if ch_is c "]" then escapes_in_u false rest
      else escapes_in_u in_class rest
  end.

Definition not_quantifier (c : ascii) : bool :=
  negb (ch_is c "*" || ch_is c "+" || ch_is c "?").

(** The text does not start with a quantifier. *)
Definition head_not_quantifier (s : list ascii) : bool :=
  match s with
  | [] => true
  | c :: _ => not_quantifier c
  end.

(** The flags of a [RegExp] object are among [g], [i], [m], [u] and
    [y]. *)
Definition wf_flags (r : t) : bool :=
  forallb (fun c => existsb (Ascii.eqb c) ["g"; "i"; "m"; "u"; "y"]%char)
          (list_ascii_of_string (flags r)).

(** The pattern that matches the code units of [s], one after the
    other. *)
Fixpoint literal (s : string) : Node :=
  match s with
  | EmptyString => Empty
  | String c s' => Seq (Chr c) (literal s')
  end.

End RegExp.


(* ------------------------------------------------------------------ *)
(** * Values of the dispatch pipeline *)
(* ------------------------------------------------------------------ *)

(** An [Error] object. *)
Record Error := mkError {
  err_name : string;
  err_message : string;
  err_stack : string
}.

(** What the runtime throws on [undefined.prop] and on a call of a value
    that is not a function. *)
Definition TypeError (message : string) : Error :=
  mkError "TypeError" message ("TypeError: " ++ message)%string.

(** What [new RegExp] throws on a source text that is no pattern. *)
Definition SyntaxError (message : string) : Error :=
  mkError "SyntaxError" message ("SyntaxError: " ++ message)%string.

(** [String(error)]. *)
Definition error_toString (e : Error) : string :=
  (err_name e ++ ": " ++ err_message e)%string.

(** Modelled from the spec: [message.js] is not among the sources.  A
    message is one of the variants Text, Enter, Leave, Topic and CatchAll;
    every variant carries the originating user and a [done] flag, and a
    CatchAll wraps one underlying message.  A message is a mutable object:
    [ref] is its identity, and its [done] flag lives in the store
    ([finished]) so that every holder of the object sees the same
    flag. *)
Module Message.

Inductive t :=
| TextMessage (ref : nat) (user : string) (text : string)
| EnterMessage (ref : nat) (user : string)
| LeaveMessage (ref : nat) (user : string)
| TopicMessage (ref : nat) (user : string) (text : string)
| CatchAllMessage (ref : nat) (message : t).

Definition ref (m : t) : nat :=
  match m with
  | TextMessage r _ _ | EnterMessage r _ | LeaveMessage r _
  | TopicMessage r _ _ | CatchAllMessage r _ => r
  end.

Fixpoint user (m : t) : string :=
  match m with
  | TextMessage _ u _ | EnterMessage _ u | LeaveMessage _ u
  | TopicMessage _ u _ => u
  | CatchAllMessage _ inner => user inner
  end.

(** The largest object identity inside a message. *)
Fixpoint max_ref (m : t) : nat :=
  match m with
  | CatchAllMessage r inner => Nat.max r (max_ref inner)
  | _ => ref m
  end.

(** [msg instanceof EnterMessage] and its siblings. *)
Definition isEnter (m : t) : bool :=
  match m with EnterMessage _ _ => true | _ => false end.
Definition isLeave (m : t) : bool :=
  match m with LeaveMessage _ _ => true | _ => false end.
Definition isTopic (m : t) : bool :=
  match m with TopicMessage _ _ _ => true | _ => false end.
Definition isCatchAll (m : t) : bool :=
  match m with CatchAllMessage _ _ => true | _ => false end.

(** [msg.message]: the wrapped message of a CatchAll, [undefined] on
    the other variants. *)
Definition message (m : t) : option t :=
  match m with
  | CatchAllMessage _ inner => Some inner
  | _ => None
  end.

End Message.

(** Modelled from the spec: [response.js] is not among the sources.  The
    response context handed to callbacks: the message in flight (a
    property that callbacks may overwrite, also with [undefined]) and the
    match data of the listener ([undefined] when built by [receive]). *)
Module Response.

Record t := mk {
  message : option Message.t;
  match_ : option (list string)
}.

Definition set_message (v : option Message.t) (r : t) : t :=
  mk v (match_ r).

End Response.

(** The context threaded through a middleware chain. *)
Record Context := mkContext {
  ctx_listener : option nat;
  ctx_response : Response.t
}.

(** What a run leaves behind for an observer, in order of occurrence. *)
Inductive Event :=
| EvLog (level text : string)
    (* a line written to the logger *)
| EvEmit (event : string) (err : Error) (res : option Response.t)
    (* an event emitted on the robot's EventEmitter *)
| EvHandler (id : nat) (err : Error) (res : option Response.t)
    (* a registered error handler was called *)
| EvReceive (message : Message.t)
    (* [receive] was called *)
| EvMiddleware (id : nat) (context : Context)
    (* a middleware function was called *)
| EvMatch (listener : nat) (message : Message.t)
    (* the matcher of a listener was called *)
| EvCallback (id : nat) (res : Response.t)
    (* a plug-in callback was called *)
| EvSettled (tag : nat).
    (* the completion callback given to [receive] was called *)

(* ------------------------------------------------------------------ *)
(** * The effect monad *)
(* ------------------------------------------------------------------ *)

(** The store: the trace so far, the identities of the message objects
    whose [done] flag is true, and the next unused object identity. *)
Record Store := mkStore {
  trace : list Event;
  finished : list nat;
  next_ref : nat
}.

Definition empty_store : Store := mkStore [] [] 0.

Inductive Completion (A : Type) :=
| Normal (a : A)
| Throw (e : Error)
| Unfinished.   (* the recursion bound of the model was reached *)
Arguments Normal {A} a.
Arguments Throw {A} e.
Arguments Unfinished {A}.

Definition M (A : Type) : Type := Store -> Completion A * Store.

Definition ret {A} (a : A) : M A := fun st => (Normal a, st).

Definition throw {A} (e : Error) : M A := fun st => (Throw e, st).

Definition unfinished {A} : M A := fun st => (Unfinished, st).

Definition bind {A B} (m : M A) (k : A -> M B) : M B :=
  fun st =>
    match m st with
    | (Normal a, st') => k a st'
    | (Throw e, st') => (Throw e, st')
    | (Unfinished, st') => (Unfinished, st')
    end.

(** [try { m } catch (error) { handler error }]. *)
Definition try_catch {A} (m : M A) (handler : Error -> M A) : M A :=
  fun st =>
    match m st with
    | (Throw e, st') => handler e st'
    | other => other
    end.

Declare Scope monad_scope.
Delimit Scope monad_scope with monad.
Notation "x <- m ;; k" := (bind m (fun x => k))
  (at level 61, m at next level, right associativity) : monad_scope.
Notation "m ;; k" := (bind m (fun _ => k))
  (at level 61, right associativity) : monad_scope.
Open Scope monad_scope.

(** What a call of a pure plug-in function does: it returns or throws. *)
Inductive Outcome (A : Type) :=
| Returns (a : A)
| Throws (e : Error).
Arguments Returns {A} a.
Arguments Throws {A} e.

Definition lift {A} (o : Outcome A) : M A :=
  match o with
  | Returns a => ret a
  | Throws e => throw e
  end.

Definition record (ev : Event) : M unit :=
  fun st => (Normal tt, mkStore (trace st ++ [ev]) (finished st) (next_ref st)).

(** [message.done]. *)
Definition is_done (st : Store) (m : Message.t) : bool :=
  existsb (Nat.eqb (Message.ref m)) (finished st).

Definition read_done (m : Message.t) : M bool :=
  fun st => (Normal (is_done st m), st).

(** [message.finish()]: [this.done = true]. *)
Definition finish (m : Message.t) : M unit :=
  fun st =>
    (Normal tt, mkStore (trace st) (Message.ref m :: finished st) (next_ref st)).

(** The identity given to an object made by [new]: unused so far, above
    every identity inside [inner] and above every finished object. *)
Definition fresh (st : Store) (inner : Message.t) : nat :=
  Nat.max (next_ref st)
          (S (Nat.max (Message.max_ref inner) (list_max (finished st)))).

(** [new CatchAllMessage(message)]: a new object, its [done] flag
    false. *)
Definition new_CatchAllMessage (message : Message.t) : M Message.t :=
  fun st =>
    let r := fresh st message in
    (Normal (Message.CatchAllMessage r message),
     mkStore (trace st) (finished st) (S r)).

(** The [log] package: each level writes one line. *)
Module Log.
Definition error (text : string) : M unit := record (EvLog "error" text).
Definition warning (text : string) : M unit := record (EvLog "warning" text).
Definition debug (text : string) : M unit := record (EvLog "debug" text).
End Log.

(** [array.forEach(callback)] without a [thisArg]: the callback is called
    with [this === undefined], which a [function] expression in strict
    code sees as such; [this_] is what the callback gets for [this]. *)
Fixpoint forEach {A T} (array : list A) (callback : option T -> A -> M unit)
  : M unit :=
  match array with
  | [] => ret tt
  | x :: rest => callback None x ;; forEach rest callback
  end.

(** [this.prop] inside a function: a [TypeError] when [this] is
    [undefined]. *)
Definition property_of {T A} (this_ : option T) (prop : string)
  (get : T -> A) : M A :=
  match this_ with
  | Some o => ret (get o)
  | None =>
      throw (TypeError ("Cannot read property '" ++ prop
                        ++ "' of undefined")%string)
  end.

(** The [async] package, [detectSeries(arr, iterator, callback)]: the
    iterator runs on the items one after the other and reports a truth
    value for each; the series ends at the first item reported true, which
    is the result, or with [undefined] after the last item.  The state
    [S] stands for the variables of the enclosing function that the
    iterator updates. *)
Module Async.
Fixpoint detectSeries {A S} (arr : list A)
  (iterator : A -> S -> M (bool * S)) (s : S) : M (option A * S) :=
  match arr with
  | [] => ret (None, s)
  | x :: rest =>
      r <- iterator x s ;;
      let '(truth, s') := r in
      if truth then ret (Some x, s')
      else detectSeries rest iterator s'
  end.
End Async.

(* ------------------------------------------------------------------ *)
(** * Plug-in functions *)
(* ------------------------------------------------------------------ *)

(** The functions that plug-ins hand to the robot are modelled by what
    the dispatcher can see of them: each call is recorded, a callback or
    middleware may finish the message it was given, and any of them may
    throw. *)

Record Effect := mkEffect {
  eff_finish : bool;            (* calls [finish()] on [res.message] *)
  eff_raise : option Error      (* then throws *)
}.

(** A value used as listener callback. *)
Inductive Callback :=
| Plugin (id : nat) (body : Response.t -> Effect)
    (* a function of a plug-in *)
| NotAFunction
    (* a value that cannot be called, such as an options object *)
| CatchAllClosure (callback : Callback).
    (* the function that [Robot.catchAll] builds around [callback] *)

Definition finish_response (res : Response.t) : M unit :=
  match Response.message res with
  | Some m => finish m
  | None => throw (TypeError "Cannot read property 'finish' of undefined")
  end.

Definition run_effect (e : Effect) (res : Response.t) : M unit :=
  (if eff_finish e then finish_response res else ret tt) ;;
  match eff_raise e with
  | Some err => throw err
  | None => ret tt
  end.

(** [callback(msg)].  The closure of [catchAll] is
    [function(msg) { msg.message = msg.message.message;
                     return callback(msg); }]. *)
Fixpoint call_callback (callback : Callback) (msg : Response.t) : M unit :=
  match callback with
  | Plugin id body =>
      record (EvCallback id msg) ;;
      run_effect (body msg) msg
  | NotAFunction => throw (TypeError "callback is not a function")
  | CatchAllClosure callback' =>
      inner <- match Response.message msg with
               | Some m => ret (Message.message m)
               | None =>
                   throw (TypeError
                            "Cannot read property 'message' of undefined")
               end ;;
      call_callback callback' (Response.set_message inner msg)
  end.

(** A matcher is a predicate on the message: it returns a truthy value
    (the match data handed to the callback) or a falsy one, or throws. *)
Definition Matcher := Message.t -> Outcome (option (list string)).

Inductive MwOutcome :=
| CallNext                 (* calls [next(done)] *)
| CallDone                 (* calls [done()] *)
| MwRaise (e : Error).     (* throws *)

Record MwEffect := mkMwEffect {
  mw_finish : bool;        (* finishes [context.response.message] first *)
  mw_outcome : MwOutcome
}.

(** A middleware function under its contract: it calls exactly one of
    [next(done)] and [done()], or throws. *)
Record MiddlewareFn := mkMiddlewareFn {
  mw_id : nat;
  mw_body : Context -> MwEffect
}.

(** An error handler given to [Robot.error]; the body tells whether the
    handler throws. *)
Record ErrorHandler := mkErrorHandler {
  eh_id : nat;
  eh_body : Error -> option Response.t -> option Error
}.

Definition call_handler (h : ErrorHandler) (err : Error)
  (res : option Response.t) : M unit :=
  record (EvHandler (eh_id h) err res) ;;
  match eh_body h err res with
  | Some e => throw e
  | None => ret tt
  end.

(** The completion callback that the caller of [receive] supplies. *)
Inductive DoneFn := OnSettled (tag : nat).

Definition call_done (d : DoneFn) : M unit :=
  match d with
  | OnSettled tag => record (EvSettled tag)
  end.

(** [process.nextTick(f)] and [Middleware.ticker(f)] queue [f] behind the
    code that is running.  Both are only used as the last statement of
    their function, so [f] runs next; what an exception thrown by [f]
    cannot do is reach a [try] block of the code that queued it, and the
    model keeps queued code outside of [try_catch]. *)
Definition nextTick {A} (f : M A) : M A := f.

(** Modelled from the spec: [middleware.js] is not among the sources.
    [execute(context, next, done)] runs the stack from index 0; past the
    last middleware it invokes [next]; a middleware that calls [done()]
    unwinds to [done] without running the remaining middleware or [next];
    an exception thrown by a middleware is caught at the stack level,
    routed to the Error Channel with the response of the context, and
    treated as an abort.  [emit] is [robot.emit] of the robot the stack
    was made for. *)
Module Middleware.

Definition t := list MiddlewareFn.

Definition ticker {A} (f : M A) : M A := nextTick f.

(** One middleware call; [true] when it asked to continue. *)
Definition call (mw : MiddlewareFn) (context : Context) : M bool :=
  record (EvMiddleware (mw_id mw) context) ;;
  let e := mw_body mw context in
  (if mw_finish e then finish_response (ctx_response context)
   else ret tt) ;;
  match mw_outcome e with
  | CallNext => ret true
  | CallDone => ret false
  | MwRaise err => throw err
  end.

Fixpoint execute {A}
  (emit : string -> Error -> option Response.t -> M unit)
  (stack : t) (context : Context)
  (next : Context -> M A) (done : Context -> M A) : M A :=
  match stack with
  | [] => next context
  | mw :: rest =>
      continue <- try_catch (call mw context)
                    (fun err =>
                       emit "error" err (Some (ctx_response context)) ;;
                       ret false) ;;
      if continue then execute emit rest context next done
      else done context
  end.

End Middleware.

(** Modelled from the spec: [listener.js] is not among the sources.  A
    listener is a matcher, options and a callback.  [call] evaluates the
    matcher; when it matches, the listener middleware chain runs around
    the callback, then the callback; the result tells whether the
    callback ran (a matched listener whose middleware aborted did not
    execute).  An exception of the matcher or of the callback reaches the
    caller.  [lid] is the identity of the listener object. *)
Module Listener.

Record t := mk {
  lid : nat;
  matcher : Matcher;
  options : list (string * string);
  callback : Callback
}.

Definition call (emit : string -> Error -> option Response.t -> M unit)
  (l : t) (message : Message.t) (middleware : Middleware.t) : M bool :=
  record (EvMatch (lid l) message) ;;
  matched <- lift (matcher l message) ;;
  match matched with
  | None => ret false
  | Some groups =>
      let response := Response.mk (Some message) (Some groups) in
      Middleware.execute emit middleware
        (mkContext (Some (lid l)) response)
        (fun context =>
           call_callback (callback l) (ctx_response context) ;;
           ret true)
        (fun _ => ret false)
  end.

End Listener.

(* ------------------------------------------------------------------ *)
(** * The Robot class *)
(* ------------------------------------------------------------------ *)

Definition newline : string := String (ascii_of_nat 10) EmptyString.

Module Robot.

Record Middlewares := mkMiddlewares {
  listener : Middleware.t;
  response : Middleware.t;
  receive_ : Middleware.t       (* the [receive] stack *)
}.

(** The fields of a robot that the dispatch core reads.  [alias] is
    [false] or a string. *)
Record t := mk {
  name : string;
  alias : option string;
  listeners : list Listener.t;
  middleware : Middlewares;
  errorHandlers : list ErrorHandler
}.

(** [constructor(adapterPath, adapter, httpd, name = 'Webby',
    alias = false)]. *)
Definition constructor (name : option string) (alias : option string) : t :=
  mk (match name with Some n => n | None => "Webby" end)
     alias [] (mkMiddlewares [] [] []) [].

Definition set_listeners (ls : list Listener.t) (this : t) : t :=
  mk (name this) (alias this) ls (middleware this) (errorHandlers this).

Definition set_errorHandlers (hs : list ErrorHandler) (this : t) : t :=
  mk (name this) (alias this) (listeners this) (middleware this) hs.

Definition set_middleware (m : Middlewares) (this : t) : t :=
  mk (name this) (alias this) (listeners this) m (errorHandlers this).

(** [listen(matcher, options, callback)]:
    [this.listeners.push(new Listener(this, matcher, options,
    callback))]. *)
Definition listen (this : t) (matcher : Matcher)
  (options : list (string * string)) (callback : Callback) : t :=
  set_listeners
    (listeners this
     ++ [Listener.mk (List.length (listeners this)) matcher options
                     callback])
    this.

(** The truthy or falsy value of a boolean expression, as match data. *)
Definition bool_value (b : bool) : Outcome (option (list string)) :=
  Returns (if b then Some [] else None).

(** ** Pattern builder *)

(** The class of [/[-[\]{}()*+?.,\\^$|#\s]/g]. *)
Definition special_class : string := "[-[\]{}()*+?.,\\^$|#\s]".

Definition special (c : ascii) : bool :=
  match RegExp.parse special_class with
  | Some (RegExp.Seq (RegExp.Class neg items) RegExp.Empty) =>
      xorb neg (RegExp.class_has false items c)
  | _ => false
  end.

(** [s.replace(/[-[\]{}()*+?.,\\^$|#\s]/g, '\\$&')]: every code unit
    of the class gets a backslash in front. *)
Fixpoint escape (s : string) : string :=
  match s with
  | EmptyString => EmptyString
  | String c s' =>
      if special c then String "\"%char (String c (escape s'))
      else String c (escape s')
  end.

(** [new RegExp(source, modifiers)], for the source texts that
    [respondPattern] builds around the source of a [RegExp] object and
    with that object's flags.  The wrapped source is a pattern under
    these flags already, and the text put around it is one too but for
    the escapes of the name and the alias: with the flag [u] an escape
    that the unicode mode does not have makes the constructor throw a
    [SyntaxError]. *)
Definition new_RegExp (source : string) (modifiers : option string)
  : Outcome RegExp.t :=
  let r :=
    RegExp.mk source
      (match modifiers with Some f => f | None => EmptyString end) in
  if RegExp.has_flag "u" r
     && negb (RegExp.escapes_in_u false (list_ascii_of_string source))
  then Throws (SyntaxError ("Invalid regular expression: /" ++ source
                            ++ "/: Invalid escape")%string)
  else Returns r.

(** [re[0] && re[0][0] === '^']. *)
Definition starts_with_anchor (re : list string) : bool :=
  match re with
  | first :: _ =>
      Js.truthy first
      && match Js.char0 first with
         | Some c => Ascii.eqb c "^"%char
         | None => false
         end
  | [] => false
  end.

Definition respondPattern (this : t) (regex : RegExp.t) : M RegExp.t :=
  let re := Js.split "/"%char (RegExp.toString regex) in
  let re := Js.shift re in
  let '(modifiers, re) := Js.pop re in
  (if starts_with_anchor re then
     Log.warning ("Anchors don't work well with respond, "
                  ++ "perhaps you want to use 'hear'")%string ;;
     Log.warning ("The regex in question was "
                  ++ RegExp.toString regex)%string
   else ret tt) ;;
  let pattern := Js.join "/" re in
  let name := escape (name this) in
  match alias this with
  | Some alias_ =>
      if Js.truthy alias_ then
        let alias := escape alias_ in
        let '(a, b) :=
          if Js.length alias <? Js.length name
          then (name, alias) else (alias, name) in
        lift (new_RegExp ("^\s*[@]?(?:" ++ a ++ "[:,]?|" ++ b
                          ++ "[:,]?)\s*(?:" ++ pattern ++ ")")%string
                         modifiers)
      else
        lift (new_RegExp ("^\s*[@]?" ++ name ++ "[:,]?\s*(?:" ++ pattern
                          ++ ")")%string modifiers)
  | None =>
      lift (new_RegExp ("^\s*[@]?" ++ name ++ "[:,]?\s*(?:" ++ pattern
                        ++ ")")%string modifiers)
  end.

(** ** Listener helpers *)


Definition leave (this : t) (options : list (string * string))
  (callback : Callback) : t :=
  listen this (fun msg => bool_value (Message.isLeave msg))
         options callback.

Definition topic (this : t) (options : list (string * string))
  (callback : Callback) : t :=
  listen this (fun msg => bool_value (Message.isTopic msg))
         options callback.

(** The first argument of [catchAll]: the options, or the callback when
    the options are left out. *)
Inductive CatchAllArg :=
| Options (o : list (string * string))
| Function (f : Callback).

(** [catchAll(options, callback)]: with [callback == null] the first
    argument is the callback and the options are empty.  A function
    passed as options next to a callback carries no option. *)
Definition catchAll (this : t) (options : CatchAllArg)
  (callback : option Callback) : t :=
  let '(options, callback) :=
    match callback with
    | None =>
        (@nil (string * string),
         match options with
         | Function f => f
         | Options _ => NotAFunction
         end)
    | Some f =>
        (match options with
         | Options o => o
         | Function _ => []
         end, f)
    end in
  listen this (fun msg => bool_value (Message.isCatchAll msg))
         options (CatchAllClosure callback).

(** ** Error channel *)

(** [error(callback)]. *)
Definition error (this : t) (callback : ErrorHandler) : t :=
  set_errorHandlers (errorHandlers this ++ [callback]) this.

(** [invokeErrorHandlers(err, res)].  The function handed to [forEach]
    is a [function] expression, so its [this] is the one [forEach]
    gives it, not the robot. *)
Definition invokeErrorHandlers (this : t) (err : Error)
  (res : option Response.t) : M unit :=
  Log.error (err_stack err) ;;
  forEach (errorHandlers this)
    (fun (this_ : option t) errorHandler =>
       try_catch (call_handler errorHandler err res)
         (fun error =>
            property_of this_ "logger" (fun _ => tt) ;;
            Log.error ("while invoking error handler:" ++ newline
                       ++ "          " ++ error_toString error
                       ++ newline ++ err_stack error)%string)).

(** [emit(event, ...args)]: [this.events.emit(event, ...args)].  The
    constructor subscribes [(err, res) => this.invokeErrorHandlers(err,
    res)] to ['error']; the class makes no other subscription. *)
Definition emit (this : t) (event : string) (err : Error)
  (res : option Response.t) : M unit :=
  record (EvEmit event err res) ;;
  if String.eqb event "error" then invokeErrorHandlers this err res
  else ret tt.

(** ** Dispatcher *)

(** [context.response.message]; reading on through a missing message
    raises. *)
Definition context_message (context : Context) : M Message.t :=
  match Response.message (ctx_response context) with
  | Some m => ret m
  | None => throw (TypeError "Cannot read property 'done' of undefined")
  end.

(** The iterator that [processListeners] gives to [detectSeries];
    the state is the variable [anyListenersExecuted].  The callback of
    [listener.call] only queues [cb(context.response.message.done)], so
    the flag is read after the [try] block. *)
Definition tryListener (this : t) (message : Message.t)
  (listener : Listener.t) (anyListenersExecuted : bool)
  : M (bool * bool) :=
  attempt <-
    try_catch
      (listenerExecuted <-
         Listener.call (emit this) listener message
                       (Robot.listener (middleware this)) ;;
       ret (Some listenerExecuted))
      (fun error =>
         emit this "error" error
              (Some (Response.mk (Some message) (Some []))) ;;
         ret None) ;;
  match attempt with
  | Some listenerExecuted =>
      Middleware.ticker
        (done <- read_done message ;;
         ret (done, anyListenersExecuted || listenerExecuted))
  | None => ret (false, anyListenersExecuted)
  end.

(** The series over the registered listeners. *)
Definition searchListeners (this : t) (message : Message.t)
  : M (option Listener.t * bool) :=
  Async.detectSeries (listeners this) (tryListener this message) false.

(** [processListeners(context, done)]; [receive] is [this.receive]. *)
Definition processListeners
  (receive : t -> Message.t -> option DoneFn -> M unit)
  (this : t) (context : Context) (done : option DoneFn) : M unit :=
  message <- context_message context ;;
  found <- searchListeners this message ;;
  let '(_, anyListenersExecuted) := found in
  if negb (Message.isCatchAll message) && negb anyListenersExecuted then
    Log.debug "No listeners executed; falling back to catch-all" ;;
    wrapped <- new_CatchAllMessage message ;;
    receive this wrapped done
  else
    match done with
    | Some d => nextTick (call_done d)
    | None => ret tt
    end.

(** [receive(message, cb)].  [receive] and [processListeners] call each
    other; [fuel] bounds the depth of these calls, and
    [receive_enough_fuel] shows that two levels are all a dispatch
    uses.  When a receive middleware aborts, the completion callback is
    invoked if there is one. *)
Fixpoint receive (fuel : nat) (this : t) (message : Message.t)
  (cb : option DoneFn) : M unit :=
  match fuel with
  | 0 => unfinished
  | S fuel' =>
      record (EvReceive message) ;;
      Middleware.execute (emit this) (receive_ (middleware this))
        (mkContext None (Response.mk (Some message) None))
        (fun context => processListeners (receive fuel') this context cb)
        (fun _ =>
           match cb with
           | Some d => call_done d
           | None => ret tt
           end)
  end.

End Robot.

(** ** [src/robot.js] *)

(** The functions of [src/robot.js] that differ from the complete class;
    [respondPattern], [catchAll] and [receive] read the same in both
    files.  [listen] reads the same too, but [Listener] is another value
    in this file, so that no helper built on [listen] registers a
    listener here. *)
Module SrcRobot.

(** [var ref = {Listener: {}, TextListener: {}}; var Listener =
    ref.Listener;]: in this file [Listener] is an empty object, which is
    no constructor, so [new Listener(this, matcher, options, callback)]
    raises. *)
Definition new_Listener (lid : nat) (matcher : Matcher)
  (options : list (string * string)) (callback : Callback)
  : Outcome Listener.t :=
  Throws (TypeError "Listener is not a constructor").

(** [listen(matcher, options, callback)]:
    [this.listeners.push(new Listener(this, matcher, options,
    callback))]; nothing is pushed when [new] raises. *)
Definition listen (this : Robot.t) (matcher : Matcher)
  (options : list (string * string)) (callback : Callback)
  : Outcome Robot.t :=
  match new_Listener (List.length (Robot.listeners this)) matcher options
                     callback with
  | Returns l =>
      Returns (Robot.set_listeners (Robot.listeners this ++ [l]) this)
  | Throws e => Throws e
  end.

(** The function that [leave] hands to [listen]:
    [function(msg) { return msg instanceof EnterMessage; }]. *)
Definition leave_matcher : Matcher :=
  fun msg => Robot.bool_value (Message.isEnter msg).

(** The function that [topic] hands to [listen], the same text. *)
Definition topic_matcher : Matcher :=
  fun msg => Robot.bool_value (Message.isEnter msg).

Definition leave (this : Robot.t) (options : list (string * string))
  (callback : Callback) : Outcome Robot.t :=
  listen this leave_matcher options callback.

Definition topic (this : Robot.t) (options : list (string * string))
  (callback : Callback) : Outcome Robot.t :=
  listen this topic_matcher options callback.

(** A value pushed on [results]: what [errorHandler(err, res)] returned,
    which is up to the handler, or what [this.logger.error] returned. *)
Inductive Pushed :=
| ReturnOf (handler : nat) (err : Error) (res : option Response.t)
| LoggerResult.

(** [this.errorHandlers.forEach(function(errorHandler) { ...
    results.push(...) ... })]: the callback tells what it pushed. *)
Fixpoint forEach_push {A T} (array : list A)
  (callback : option T -> A -> M Pushed) (results : list Pushed)
  : M (list Pushed) :=
  match array with
  | [] => ret results
  | x :: rest =>
      pushed <- callback None x ;;
      forEach_push rest callback (results ++ [pushed])
  end.

(** [invokeErrorHandlers(err, res)]:
    [try { results.push(errorHandler(err, res)); }
     catch(error) { results.push(this.logger.error(...)); }],
    then [return results]. *)
Definition invokeErrorHandlers (this : Robot.t) (err : Error)
  (res : option Response.t) : M (list Pushed) :=
  Log.error (err_stack err) ;;
  forEach_push (Robot.errorHandlers this)
    (fun (this_ : option Robot.t) errorHandler =>
       try_catch
         (call_handler errorHandler err res ;;
          ret (ReturnOf (eh_id errorHandler) err res))
         (fun error =>
            property_of this_ "logger" (fun _ => tt) ;;
            Log.error ("while invoking error handler: "
                       ++ error_toString error
                       ++ newline ++ err_stack error)%string ;;
            ret LoggerResult))
    [].

(** [processListeners(context, done)] only writes to the console. *)
Definition processListeners (this : Robot.t) (context : Context)
  (done : option DoneFn) : M unit :=
  record (EvLog "console" "processListeners").

End SrcRobot.


(* ------------------------------------------------------------------ *)
(** * Observations on a run *)
(* ------------------------------------------------------------------ *)

(** The tags of the completion callbacks that were called. *)
Definition settled (evs : list Event) : list nat :=
  flat_map (fun e => match e with EvSettled t => [t] | _ => [] end) evs.

(** The messages [receive] was called with. *)
Definition receives (evs : list Event) : list Message.t :=
  flat_map (fun e => match e with EvReceive m => [m] | _ => [] end) evs.

(** The listeners whose matcher was called. *)
Definition attempts (evs : list Event) : list nat :=
  flat_map (fun e => match e with EvMatch l _ => [l] | _ => [] end) evs.

(** The plug-in callbacks that were called, with what they were given. *)
Definition callbacks (evs : list Event) : list (nat * Response.t) :=
  flat_map (fun e => match e with EvCallback i r => [(i, r)] | _ => [] end)
           evs.

(** The events emitted on the robot. *)
Definition emitted (evs : list Event)
  : list (string * Error * option Response.t) :=
  flat_map (fun e => match e with
                     | EvEmit ev err r => [(ev, err, r)]
                     | _ => []
                     end) evs.

(** The error handlers that were called. *)
Definition handled (evs : list Event) : list nat :=
  flat_map (fun e => match e with EvHandler i _ _ => [i] | _ => [] end) evs.

(** Events from inside one listener attempt or one report: everything
    but matcher calls, calls of [receive] and completion callbacks. *)
Definition inner (e : Event) : bool :=
  match e with
  | EvLog _ _ | EvEmit _ _ _ | EvHandler _ _ _
  | EvMiddleware _ _ | EvCallback _ _ => true
  | EvReceive _ | EvMatch _ _ | EvSettled _ => false
  end.

(** Only inner events. *)
Definition all_inner (evs : list Event) : Prop :=
  Forall (fun e => inner e = true) evs.

(** The store after more events. *)
Definition push (evs : list Event) (st : Store) : Store :=
  mkStore (trace st ++ evs) (finished st) (next_ref st).

(** What a report to the Error Channel leaves in the trace when no
    handler throws: the log line, then one call per handler in
    registration order. *)
Definition report_events (this : Robot.t) (err : Error)
  (res : option Response.t) : list Event :=
  EvLog "error" (err_stack err)
  :: map (fun h => EvHandler (eh_id h) err res) (Robot.errorHandlers this).

Definition emit_events (this : Robot.t) (err : Error)
  (res : option Response.t) : list Event :=
  EvEmit "error" err res :: report_events this err res.

(** No registered error handler throws. *)
Definition quiet (this : Robot.t) : Prop :=
  forall h err res, In h (Robot.errorHandlers this) -> eh_body h err res = None.

(** [m], started in [st], ends with a completion, a list of new events
    and a store that satisfy [post]. *)
Definition wp {A} (m : M A) (st : Store)
  (post : Completion A -> list Event -> Store -> Prop) : Prop :=
  exists evs,
    trace (snd (m st)) = trace st ++ evs
    /\ post (fst (m st)) evs (snd (m st)).

(** What [receive] owes its caller: the completion callback, when there
    is one, called once. *)
Definition settles (cb : option DoneFn) : list nat :=
  match cb with
  | Some (OnSettled tag) => [tag]
  | None => []
  end.

(* ------------------------------------------------------------------ *)
(** * Help texts, objects and script loading *)
(* ------------------------------------------------------------------ *)

From Stdlib Require DecimalString Sorted Permutation.

(** More of the String built-ins, on code units below 256. *)
Module JsString.

(** [s.trimLeft()], the first half of [s.trim()]. *)
Fixpoint trimStart (s : string) : string :=
  match s with
  | EmptyString => EmptyString
  | String c s' => if Js.is_space c then trimStart s' else s
  end.

(** The second half of [s.trim()]. *)
Fixpoint trimEnd (s : string) : string :=
  match s with
  | EmptyString => EmptyString
  | String c s' =>
      match trimEnd s' with
      | EmptyString => if Js.is_space c then EmptyString
                       else String c EmptyString
      | t => String c t
      end
  end.

(** [s.trim()]: white space and line terminators go from both ends. *)
Definition trim (s : string) : string := trimEnd (trimStart s).

(** [s.toLowerCase()]. *)
Fixpoint toLowerCase (s : string) : string :=
  match s with
  | EmptyString => EmptyString
  | String c s' => String (Js.lower c) (toLowerCase s')
  end.

(** [s.replace(c, '')] for a one-character string [c]: the first
    occurrence goes. *)
Fixpoint remove_first (c : ascii) (s : string) : string :=
  match s with
  | EmptyString => EmptyString
  | String d s' => if Ascii.eqb d c then s' else String d (remove_first c s')
  end.

(** [s.substr(0, 2)]. *)
Definition substr_0_2 (s : string) : string := String.substring 0 2 s.

(** [String(i)] for an array index. *)
Definition of_index (i : nat) : string :=
  DecimalString.NilZero.string_of_uint (Nat.to_uint i).

(** [a.sort()] on strings: ascending by code units; [insert] puts one
    string at its place in a sorted array. *)
Fixpoint insert (x : string) (a : list string) : list string :=
  match a with
  | [] => [x]
  | y :: rest => if String.leb x y then x :: a else y :: insert x rest
  end.

Fixpoint sort (a : list string) : list string :=
  match a with
  | [] => []
  | x :: rest => insert x (sort rest)
  end.

End JsString.

(** [WEBBY_DOCUMENTATION_SECTIONS]. *)
Definition WEBBY_DOCUMENTATION_SECTIONS : list string :=
  ["description"; "dependencies"; "configuration"; "commands"; "notes";
   "author"; "authors"; "examples"; "tags"; "urls"].

(** [helpCommands] and [parseHelp] of the complete class.  The robot
    field they work on is [this.commands]; [parseHelp] returns its new
    value. *)
Module Help.

(** [this.commands.sort()]: the array is sorted in place and returned. *)
Definition helpCommands (commands : list string) : list string :=
  JsString.sort commands.

(** [line[0] === '#' || line.substr(0, 2) === '//']. *)
Definition is_comment (line : string) : bool :=
  match Js.char0 line with
  | Some c => Ascii.eqb c "#"%char
  | None => false
  end
  || String.eqb (JsString.substr_0_2 line) "//".

(** One optional white space character, [\s?]. *)
Definition drop_space (s : string) : string :=
  match s with
  | String c s' => if Js.is_space c then s' else s
  | EmptyString => s
  end.

(** [line.replace(/^(#|\/\/)\s?/, '')]. *)
Definition strip_marker (line : string) : string :=
  match line with
  | String c rest =>
      if Ascii.eqb c "#"%char then drop_space rest
      else
        match rest with
        | String d rest' =>
            if Ascii.eqb c "/"%char && Ascii.eqb d "/"%char
            then drop_space rest' else line
        | EmptyString => line
        end
  | EmptyString => line
  end.

Definition cleaned (line : string) : string :=
  JsString.trim (strip_marker line).

(** [cleanedLine.toLowerCase().replace(':', '')]. *)
Definition section_of (cleanedLine : string) : string :=
  JsString.remove_first ":"%char (JsString.toLowerCase cleanedLine).

(** [WEBBY_DOCUMENTATION_SECTIONS.indexOf(nextSection) >= 0]. *)
Definition is_section (nextSection : string) : bool :=
  existsb (String.eqb nextSection) WEBBY_DOCUMENTATION_SECTIONS.

(** The variables of the loop and [this.commands]. *)
Record State := mkState {
  currentSection : option string;
  scriptDocumentation : list (string * list string);
  commands : list string
}.

(** [scriptDocumentation[section] = entries]. *)
Fixpoint set_doc (section : string) (entries : list string)
  (doc : list (string * list string)) : list (string * list string) :=
  match doc with
  | [] => [(section, entries)]
  | (k, v) :: rest =>
      if String.eqb k section then (k, entries) :: rest
      else (k, v) :: set_doc section entries rest
  end.

(** [scriptDocumentation[section].push(entry)]. *)
Fixpoint push_doc (section entry : string)
  (doc : list (string * list string)) : list (string * list string) :=
  match doc with
  | [] => []
  | (k, v) :: rest =>
      if String.eqb k section then (k, v ++ [entry]) :: rest
      else (k, v) :: push_doc section entry rest
  end.

(** The body of the loop for a line that passed the comment test. *)
Definition step (st : State) (line : string) : State :=
  let cleanedLine := cleaned line in
  if Js.length cleanedLine =? 0 then st
  else if String.eqb (JsString.toLowerCase cleanedLine) "none" then st
  else
    let nextSection := section_of cleanedLine in
    if is_section nextSection then
      mkState (Some nextSection)
              (set_doc nextSection [] (scriptDocumentation st))
              (commands st)
    else
      match currentSection st with
      | Some section =>
          mkState (currentSection st)
                  (push_doc section (JsString.trim cleanedLine)
                            (scriptDocumentation st))
                  (if String.eqb section "commands"
                   then commands st ++ [JsString.trim cleanedLine]
                   else commands st)
      | None => st
      end.

(** The [for] loop over the lines; the first line that is not a comment
    ends it. *)
Fixpoint loop (lines : list string) (st : State) : State :=
  match lines with
  | [] => st
  | line :: rest => if is_comment line then loop rest (step st line) else st
  end.

(** [parseHelp(path)].  [file] is what [Fs.readFileSync(path, 'utf-8')]
    does; the script name, which the function computes and never uses,
    is left out. *)
Definition parseHelp (commands : list string) (path : string)
  (file : Outcome string) : M (list string) :=
  Log.debug ("Parsing help for " ++ path)%string ;;
  body <- lift file ;;
  ret (Help.commands
         (loop (Js.split (ascii_of_nat 10) body)
               (mkState None [] commands))).

End Help.

(** Two loop states that agree on everything but [this.commands]. *)
Definition same_section (st1 st2 : Help.State) : Prop :=
  Help.currentSection st1 = Help.currentSection st2
  /\ Help.scriptDocumentation st1 = Help.scriptDocumentation st2.

(** Whether a string starts with white space. *)
Definition starts_blank (s : string) : bool :=
  match s with
  | String c _ => Js.is_space c
  | EmptyString => false
  end.

(** What [step] may add to [this.commands]. *)
Definition command_line (c : string) : Prop :=
  JsString.trim c = c
  /\ c <> EmptyString
  /\ JsString.toLowerCase c <> "none"
  /\ Help.is_section (Help.section_of c) = false.

(** [a <= b] in the order of [sort()]. *)
Definition ascending (a b : string) : Prop := String.leb a b = true.

(** Whether a key starts with a decimal digit, as every array index
    does. *)
Definition starts_with_digit (key : string) : bool :=
  match Js.char0 key with
  | Some c => Js.is_digit c
  | None => false
  end.

(** JavaScript values as far as [extend] and [loadExternalScripts] look
    at them: data without functions and accessors.  An object is a plain
    one, with [Object.prototype] as its prototype, given by its own
    enumerable properties in the order of [for...in]. *)
#[warnings="-register-all"]
Inductive JsValue :=
| JsUndefined
| JsNull
| JsBoolean (b : bool)
| JsNumber (n : nat)
| JsString (s : string)
| JsObject (props : list (string * JsValue)).

(** Own enumerable properties. *)
Module Obj.

Definition t := list (string * JsValue).

Fixpoint get (o : t) (key : string) : option JsValue :=
  match o with
  | [] => None
  | (k, v) :: rest => if String.eqb k key then Some v else get rest key
  end.

(** [o[key] = v] on the own properties. *)
Fixpoint set (o : t) (key : string) (v : JsValue) : t :=
  match o with
  | [] => [(key, v)]
  | (k, w) :: rest =>
      if String.eqb k key then (k, v) :: rest else (k, w) :: set rest key v
  end.

(** The own enumerable property [key] of a value, if it has one: a
    property of an object, a character of a string. *)
Definition own (v : JsValue) (key : string) : option JsValue :=
  match v with
  | JsObject props => get props key
  | JsString s =>
      match find (fun i => String.eqb (JsString.of_index i) key)
                 (seq 0 (String.length s)) with
      | Some i => Some (JsString (String.substring i 1 s))
      | None => None
      end
  | _ => None
  end.

(** What [for (key in v)] goes through: the own enumerable keys, the
    built-in prototypes having no enumerable property; nothing for
    [undefined], [null], numbers and booleans. *)
Definition keys (v : JsValue) : list string :=
  match v with
  | JsObject props => map fst props
  | JsString s => map JsString.of_index (seq 0 (String.length s))
  | _ => []
  end.

(** [v[key]] for a key that [for (key in v)] gave. *)
Definition prop (v : JsValue) (key : string) : JsValue :=
  match own v key with
  | Some w => w
  | None => JsUndefined
  end.

(** [v.hasOwnProperty(key)] for a key that [for (key in v)] gave.  The
    method is looked up on [v]: an object that owns a property
    [hasOwnProperty] answers with that value, which is no function, and
    the call throws; every other value reaches the method of
    [Object.prototype]. *)
Definition hasOwnProperty (holder : string) (v : JsValue) (key : string)
  : Outcome bool :=
  match v with
  | JsObject props =>
      match get props "hasOwnProperty" with
      | Some _ =>
          Throws (TypeError (holder ++ ".hasOwnProperty is not a function"))
      | None =>
          Returns (match get props key with Some _ => true | None => false end)
      end
  | _ => Returns (match own v key with Some _ => true | None => false end)
  end.

(** The inner loop of [extend] on a source that is a string, as the
    indices of [src/robot.js] are:
    [for (key in source) if (source.hasOwnProperty(key))
       obj[key] = source[key]].
    A string has its indices as keys and owns each of them, and the
    method of a string cannot be shadowed. *)
Definition copy (obj : t) (source : string) : t :=
  fold_left (fun o key => set o key (prop (JsString source) key))
            (keys (JsString source)) obj.

(** What an object inherits from: [Object.prototype], as an object
    literal does, nothing, or a plain object with the given own
    properties. *)
Inductive Proto :=
| ObjectPrototype
| NoPrototype
| ProtoObject (props : t).

(** The object that [extend] writes to: its own properties and its
    prototype.  It is extensible, and its properties and those of its
    prototype object are writable data properties. *)
Record Target := mkTarget { own_props : t; proto : Proto }.

(** The setter of [Object.prototype.__proto__]: an object or [null]
    becomes the prototype, another value is ignored. *)
Definition set_prototype (obj : Target) (v : JsValue) : Target :=
  match v with
  | JsObject props => mkTarget (own_props obj) (ProtoObject props)
  | JsNull => mkTarget (own_props obj) NoPrototype
  | _ => obj
  end.

(** [obj[key] = v].  The key [__proto__] reaches the setter that
    [Object.prototype] has for it, unless [obj] owns a property of that
    name, inherits one from its prototype object, or inherits nothing;
    every other key becomes or stays an own property. *)
Definition assign (obj : Target) (key : string) (v : JsValue) : Target :=
  let write := mkTarget (set (own_props obj) key v) (proto obj) in
  if String.eqb key "__proto__" then
    match get (own_props obj) "__proto__" with
    | Some _ => write
    | None =>
        match proto obj with
        | ObjectPrototype => set_prototype obj v
        | NoPrototype => write
        | ProtoObject props =>
            match get props "__proto__" with
            | Some _ => write
            | None => set_prototype obj v
            end
        end
    end
  else write.

(** [for (key in source) { if (source.hasOwnProperty(key)) {
      obj[key] = source[key]; } }]
    over the keys still to come: the exception that ends the loop, if
    one does, and [obj] as it is then. *)
Fixpoint copy_keys (source : JsValue) (ks : list string) (obj : Target)
  : option Error * Target :=
  match ks with
  | [] => (None, obj)
  | key :: rest =>
      match hasOwnProperty "source" source key with
      | Throws e => (Some e, obj)
      | Returns true => copy_keys source rest (assign obj key (prop source key))
      | Returns false => copy_keys source rest obj
      end
  end.

End Obj.

(** The [packages] given to [loadExternalScripts]: an array of package
    names, or any other value, which the code reads as an object of
    package names and options. *)
Inductive Packages :=
| PkgArray (names : list string)
| PkgOther (v : JsValue).

(** How a function whose [catch] block ends the process came to its
    end. *)
Inductive Ended :=
| Returned
| Exited (code : nat).   (* [process.exit(code)] *)

(** What a [throw] hands to the [catch] block: an [Error] object or a
    value of another kind. *)
Inductive Thrown :=
| ThrownError (e : Error)
| ThrownValue (v : JsValue).

(** How [require(pkg)(robot, options)] ends. *)
Inductive ScriptEnd :=
| ScriptReturned
| ScriptThrew (t : Thrown)
| ScriptUnfinished.

(** [packages.forEach(callback)], with the callback's [this] left to
    the caller. *)
Fixpoint each_package (names : list string)
  (callback : string -> Store -> ScriptEnd * Store) (st : Store)
  : ScriptEnd * Store :=
  match names with
  | [] => (ScriptReturned, st)
  | pkg :: rest =>
      match callback pkg st with
      | (ScriptReturned, st1) => each_package rest callback st1
      | ended => ended
      end
  end.

(** [for (pkg in packages) { if (packages.hasOwnProperty(pkg)) { body } }]
    over the keys still to come. *)
Fixpoint each_key (packages : JsValue) (ks : list string)
  (body : string -> Store -> ScriptEnd * Store) (st : Store)
  : ScriptEnd * Store :=
  match ks with
  | [] => (ScriptReturned, st)
  | pkg :: rest =>
      match Obj.hasOwnProperty "packages" packages pkg with
      | Throws e => (ScriptThrew (ThrownError e), st)
      | Returns true =>
          match body pkg st with
          | (ScriptReturned, st1) => each_key packages rest body st1
          | ended => ended
          end
      | Returns false => each_key packages rest body st
      end
  end.

(** The text of a value inside a concatenation or a template literal.
    A plain object reads [[object Object]], unless it owns a property
    [toString], which is no function: then no text can be made of it. *)
Definition to_text (v : JsValue) : Outcome string :=
  match v with
  | JsUndefined => Returns "undefined"
  | JsNull => Returns "null"
  | JsBoolean b => Returns (if b then "true" else "false")
  | JsNumber n => Returns (JsString.of_index n)
  | JsString s => Returns s
  | JsObject props =>
      match Obj.get props "toString" with
      | Some _ => Throws (TypeError "Cannot convert object to primitive value")
      | None => Returns "[object Object]"
      end
  end.

(** [error.stack] as text: the stack of an [Error] object, the property
    [stack] of another value, and a [TypeError] on [null] and
    [undefined], which have no properties. *)
Definition stack_text (t : Thrown) : Outcome string :=
  match t with
  | ThrownError e => Returns (err_stack e)
  | ThrownValue JsUndefined =>
      Throws (TypeError "Cannot read property 'stack' of undefined")
  | ThrownValue JsNull =>
      Throws (TypeError "Cannot read property 'stack' of null")
  | ThrownValue v => to_text (Obj.prop v "stack")
  end.

(** The [catch] block of [loadExternalScripts]:
    [this.logger.error('Error loading scripts from npm package - ' +
    error.stack); process.exit(1)]. *)
Definition load_failed (error : Thrown) : M Ended :=
  text <- lift (stack_text error) ;;
  Log.error ("Error loading scripts from npm package - " ++ text)%string ;;
  ret (Exited 1).

(** [try { body } catch(error) { ... }] around the loading loop. *)
Definition try_load (body : Store -> ScriptEnd * Store) : M Ended :=
  fun st =>
    match body st with
    | (ScriptReturned, st1) => (Normal Returned, st1)
    | (ScriptThrew error, st1) => load_failed error st1
    | (ScriptUnfinished, st1) => (Unfinished, st1)
    end.

(** The rest of the complete class that needs no further package. *)
Module RobotUtil.

(** [extend(obj, ...sources)] of the complete class:
    [for (i = 0; i < sources.length; i++) { source = sources[i]; ... }].
    The call returns [obj] or leaves with an exception; either way
    [obj] keeps what was written to it. *)
Fixpoint extend (obj : Obj.Target) (sources : list JsValue)
  : option Error * Obj.Target :=
  match sources with
  | [] => (None, obj)
  | source :: rest =>
      match Obj.copy_keys source (Obj.keys source) obj with
      | (None, obj') => extend obj' rest
      | thrown => thrown
      end
  end.

Section Scripts.

(** [loadFile(path, file)] needs [require] and [process.exit]; the
    functions below are given it as it is. *)
Variable loadFile : Robot.t -> string -> string -> M unit.

(** [loadHubotScripts(path, scripts)]. *)
Definition loadHubotScripts (this : Robot.t) (path : string)
  (scripts : list string) : M unit :=
  Log.debug ("Loading hubot-scripts from " ++ path)%string ;;
  forEach scripts
    (fun (this_ : option Robot.t) script =>
       method <- property_of this_ "loadFile" loadFile ;;
       method path script).

(** [load(path)]; [existsSync] and [readdirSync] are what
    [Fs.existsSync(path)] and [Fs.readdirSync(path)] give. *)
Definition load (this : Robot.t) (path : string) (existsSync : bool)
  (readdirSync : Outcome (list string)) : M unit :=
  Log.debug ("Loading scripts from " ++ path)%string ;;
  if existsSync then
    entries <- lift readdirSync ;;
    let ref := JsString.sort entries in
    forEach ref
      (fun (this_ : option Robot.t) file =>
         method <- property_of this_ "loadFile" loadFile ;;
         method path file)
  else ret tt.

End Scripts.

Section External.

(** [require(pkg)(robot, options)]: loading a package and calling what
    it exports.  The robot is [None] where the call passes [undefined],
    the options are [None] where the call has one argument. *)
Variable require_call :
  string -> option Robot.t -> option JsValue -> Store -> ScriptEnd * Store.

(** [loadExternalScripts(packages)]; the callback of [forEach] is an
    arrow function, its [this] is the robot. *)
Definition loadExternalScripts (this : Robot.t) (packages : Packages)
  : M Ended :=
  Log.debug "Loading external-scripts from npm packages" ;;
  try_load
    (match packages with
     | PkgArray names =>
         each_package names (fun pkg => require_call pkg (Some this) None)
     | PkgOther v =>
         each_key v (Obj.keys v)
           (fun pkg => require_call pkg (Some this) (Some (Obj.prop v pkg)))
     end).

End External.

End RobotUtil.

(** [extend(obj, ...sources)] of [src/robot.js]:
    [for (let source in sources) if (sources.hasOwnProperty(source))
       for (let key in source) ...], where [source] is an index of the
    array, a string. *)
Module SrcRobotUtil.

Definition extend (obj : Obj.t) (sources : list JsValue) : Obj.t :=
  fold_left Obj.copy
            (map JsString.of_index (seq 0 (List.length sources))) obj.

Section External.

Variable require_call :
  string -> option Robot.t -> option JsValue -> Store -> ScriptEnd * Store.

(** [loadExternalScripts(packages)] of [src/robot.js]: the callback of
    [forEach] is a [function] expression, whose [this] is [undefined],
    and the array [results1] of the second branch is declared without a
    value, so that [results1.push] throws before [require] is called.
    The arrays of results that the function returns are left out. *)
Definition loadExternalScripts (this : Robot.t) (packages : Packages)
  : M Ended :=
  Log.debug "Loading external-scripts from npm packages" ;;
  try_load
    (match packages with
     | PkgArray names =>
         each_package names (fun pkg => require_call pkg None None)
     | PkgOther v =>
         each_key v (Obj.keys v)
           (fun pkg st =>
              (ScriptThrew
                 (ThrownError
                    (TypeError "Cannot read property 'push' of undefined")),
               st))
     end).

End External.

End SrcRobotUtil.

(** The [TypeError] of [this.logger] in a [function] callback, where
    [this] is [undefined]. *)
Definition logger_fault : Error :=
  TypeError "Cannot read property 'logger' of undefined".

(** The pattern that matches the code units of [s] and then [r]. *)
Fixpoint literal_then (s : string) (r : RegExp.Node) : RegExp.Node :=
  match s with
  | EmptyString => r
  | String c s' => RegExp.Seq (RegExp.Chr c) (literal_then s' r)
  end.

(** The code unit in front of the position after [s], where [before]
    is the one in front of [s]. *)
Fixpoint last_char (before : option ascii) (s : list ascii) : option ascii :=
  match s with
  | [] => before
  | c :: s' => last_char (Some c) s'
  end.

(** The fixed parts of the pattern of [respondPattern]: [\s*], [[@]?]
    and [[:,]?]. *)
Definition blanks : RegExp.Node :=
  RegExp.Star (RegExp.Class false [RegExp.CSpace false]).
Definition at_sign : RegExp.Node :=
  RegExp.Opt (RegExp.Class false [RegExp.CChar "@"]).
Definition separator : RegExp.Node :=
  RegExp.Opt (RegExp.Class false [RegExp.CChar ":"; RegExp.CChar ","]).

(** The pattern of [respondPattern] for a robot without alias. *)
Definition respond_node (name : string) (body : RegExp.Node)
  : RegExp.Node :=
  RegExp.Seq RegExp.Bol
    (RegExp.Seq blanks
       (RegExp.Seq at_sign
          (literal_then name
             (RegExp.Seq separator
                (RegExp.Seq blanks
                   (RegExp.Seq body RegExp.Empty)))))).

(** The pattern of [respondPattern] for a robot with an alias; [a] and
    [b] are the name and the alias in the order of the alternation. *)
Definition respond_alias_node (a b : string) (body : RegExp.Node)
  : RegExp.Node :=
  RegExp.Seq RegExp.Bol
    (RegExp.Seq blanks
       (RegExp.Seq at_sign
          (RegExp.Seq
             (RegExp.Alt
                (literal_then a (RegExp.Seq separator RegExp.Empty))
                (literal_then b (RegExp.Seq separator RegExp.Empty)))
             (RegExp.Seq blanks
                (RegExp.Seq body RegExp.Empty))))).

(** Whether the regex matches the subject [before ++ text] at the
    position where [text] starts; [None] when the source is outside the
    modelled syntax. *)
Definition test_at (r : RegExp.t) (before text : string) : option bool :=
  match RegExp.parse (RegExp.source r) with
  | Some n =>
      Some (negb (List.length
                    (RegExp.reach (RegExp.has_flag "i" r)
                       (RegExp.has_flag "m" r) n
                       (RegExp.pos
                          (last_char None (list_ascii_of_string before))
                          (list_ascii_of_string text))) =? 0))
  | None => None
  end.

(** White space only. *)
Definition blank (s : string) : bool :=
  forallb Js.is_space (list_ascii_of_string s).

(** A computation takes no [done] flag back. *)
Definition keeps_done {A} (m : M A) : Prop :=
  forall st msg, is_done st msg = true -> is_done (snd (m st)) msg = true.

(** The two warnings of [respondPattern] about an anchored pattern. *)
Definition anchor_warnings (regex : RegExp.t) : list Event :=
  if match Js.char0 (RegExp.source regex) with
     | Some c => Ascii.eqb c "^"%char
     | None => false
     end
  then
    [EvLog "warning"
           ("Anchors don't work well with respond, "
            ++ "perhaps you want to use 'hear'")%string;
     EvLog "warning"
           ("The regex in question was " ++ RegExp.toString regex)%string]
  else [].

(* ------------------------------------------------------------------ *)
(** * Strings: [split], [join] and escaping *)
(* ------------------------------------------------------------------ *)

Section StringFacts.

Variable sep : ascii.

Lemma split_nonempty (s : string) : Js.split sep s <> [].
Proof.
  destruct s as [|c s]; simpl; [discriminate|].
  destruct (Ascii.eqb c sep); [discriminate|].
  destruct (Js.split sep s); discriminate.
Qed.

Lemma split_app (a b : string) :
  Js.split sep (a ++ String sep b) = Js.split sep a ++ Js.split sep b.
Proof.
  induction a as [|c a IH]; simpl.
  - now rewrite Ascii.eqb_refl.
  - destruct (Ascii.eqb c sep); [now rewrite IH|].
    rewrite IH.
    pose proof (split_nonempty a) as Hne.
    destruct (Js.split sep a); [contradiction|reflexivity].
Qed.

Lemma split_without_sep (s : string) :
  existsb (Ascii.eqb sep) (list_ascii_of_string s) = false ->
  Js.split sep s = [s].
Proof.
  induction s as [|c s IH]; simpl; [reflexivity|].
  intros H. apply orb_false_iff in H as [Hc Hs].
  rewrite Ascii.eqb_sym, Hc, (IH Hs). reflexivity.
Qed.

Lemma join_split (s : string) :
  Js.join (String sep EmptyString) (Js.split sep s) = s.
Proof.
  induction s as [|c s IH]; simpl; [reflexivity|].
  pose proof (split_nonempty s) as Hne.
  destruct (Ascii.eqb c sep) eqn:E.
  - apply Ascii.eqb_eq in E. subst c.
    destruct (Js.split sep s) as [|w ws]; [contradiction|].
    simpl in *. now rewrite IH.
  - destruct (Js.split sep s) as [|w ws]; [contradiction|].
    destruct ws as [|w' ws]; simpl in *; now rewrite <- IH.
Qed.

End StringFacts.

Lemma pop_snoc (a : list string) (x : string) :
  Js.pop (a ++ [x]) = (Some x, a).
Proof.
  unfold Js.pop.
  destruct (a ++ [x]) eqn:E; [now destruct a|].
  rewrite <- E, last_last, removelast_last. reflexivity.
Qed.

(** The flags of a well-formed regex contain no slash. *)
Lemma wf_flags_no_slash (r : RegExp.t) :
  RegExp.wf_flags r = true ->
  existsb (Ascii.eqb "/"%char) (list_ascii_of_string (RegExp.flags r)) = false.
Proof.
  unfold RegExp.wf_flags.
  induction (list_ascii_of_string (RegExp.flags r)) as [|c l IH];
    cbn [existsb forallb]; [reflexivity|].
  intros H. apply andb_true_iff in H as [Hc Hl].
  rewrite (IH Hl), orb_false_r.
  destruct (Ascii.eqb_spec "/"%char c) as [E|E]; [|reflexivity].
  subst c. discriminate.
Qed.

(** What [respondPattern] takes apart: a regex with well-formed flags
    gives back its source as the pattern and its flags as the
    modifiers. *)
Lemma toString_parts (regex : RegExp.t) :
  RegExp.wf_flags regex = true ->
  Js.pop (Js.shift (Js.split "/"%char (RegExp.toString regex)))
  = (Some (RegExp.flags regex), Js.split "/"%char (RegExp.source regex)).
Proof.
  intros Hwf. unfold RegExp.toString. simpl.
  rewrite split_app.
  rewrite (split_without_sep "/"%char (RegExp.flags regex))
    by now apply wf_flags_no_slash.
  apply pop_snoc.
Qed.

(* ------------------------------------------------------------------ *)
(** * Pattern builder *)
(* ------------------------------------------------------------------ *)

Section Escape.

Import RegExp.

Lemma special_escaped (c : ascii) :
  Robot.special c = true ->
  unsupported_escape c = false
  /\ node_of_item (escape_item c) = Chr c.
Proof.
  destruct c as [[] [] [] [] [] [] [] []]; vm_compute;
    intros H; try discriminate H; split; reflexivity.
Qed.

Lemma plain_atom (c : ascii) :
  Robot.special c = false ->
  (forall d rest, atom d (c :: rest) = Some (Chr c, rest))
  /\ ch_is c "|" || ch_is c ")" = false
  /\ not_quantifier c = true.
Proof.
  intros H. split; [intros d rest|]; revert H;
    destruct c as [[] [] [] [] [] [] [] []]; vm_compute;
    intros H; try discriminate H; try split; reflexivity.
Qed.

Lemma quantify_skip (a : Node) (s : list ascii) :
  head_not_quantifier s = true -> quantify a s = (a, s).
Proof.
  destruct s as [|c s]; [reflexivity|].
  unfold head_not_quantifier, not_quantifier, quantify.
  intros H. apply negb_true_iff in H.
  apply orb_false_iff in H as [H H3].
  apply orb_false_iff in H as [H1 H2].
  now rewrite H1, H2, H3.
Qed.

Lemma escape_head (s : string) :
  head_not_quantifier (list_ascii_of_string (Robot.escape s)) = true.
Proof.
  destruct s as [|c s]; [reflexivity|].
  simpl. destruct (Robot.special c) eqn:E; [reflexivity|].
  simpl. now apply plain_atom.
Qed.

Lemma escape_length (s : string) :
  String.length s <= List.length (list_ascii_of_string (Robot.escape s)).
Proof.
  induction s as [|c s IH]; simpl; [lia|].
  destruct (Robot.special c); simpl; lia.
Qed.

(** The escaped text reads as a sequence of literal characters. *)
Lemma alternative_escape (d : list ascii -> option (Node * list ascii))
  (s : string) :
  forall n, String.length s < n ->
    alternative d n (list_ascii_of_string (Robot.escape s))
    = Some (literal s, []).
Proof.
  induction s as [|c s IH]; intros n Hn;
    (destruct n as [|n]; [lia|]); [reflexivity|].
  simpl in Hn. assert (Hn' : String.length s < n) by lia.
  cbn [Robot.escape]. destruct (Robot.special c) eqn:E.
  - destruct (special_escaped c E) as [Hu Hi].
    cbn [list_ascii_of_string alternative].
    replace (ch_is "\" "|" || ch_is "\" ")") with false by reflexivity.
    replace (atom d ("\"%char :: c :: list_ascii_of_string (Robot.escape s)))
      with (Some (Chr c, list_ascii_of_string (Robot.escape s))).
    + rewrite quantify_skip by apply escape_head.
      now rewrite (IH n Hn').
    + unfold atom.
      replace (ch_is "\" "(") with false by reflexivity.
      replace (ch_is "\" "[") with false by reflexivity.
      replace (ch_is "\" "\") with true by reflexivity.
      now rewrite Hu, Hi.
  - destruct (plain_atom c E) as [Ha [Hb _]].
    cbn [list_ascii_of_string alternative].
    rewrite Hb, Ha, quantify_skip by apply escape_head.
    now rewrite (IH n Hn').
Qed.

Lemma parse_escape (s : string) :
  parse (Robot.escape s) = Some (literal s).
Proof.
  unfold parse. cbn [disjunction].
  rewrite alternative_escape; [reflexivity|].
  pose proof (escape_length s). lia.
Qed.

End Escape.

(** C7: with bot name "Webby" and no alias, the pattern that
    [respondPattern] builds from body pattern foo matches "Webby: foo" and
    "@Webby foo" and does not match "foofoo webby"; built from the
    case-insensitive body pattern it also matches "webby, foo" (which the
    case-sensitive one does not). *)
Theorem respondPattern_webby (this : Robot.t) (st : Store) :
  Robot.name this = "Webby" ->
  Robot.alias this = None ->
  exists re rei st1 st2,
    Robot.respondPattern this (RegExp.mk "foo" EmptyString) st = (Normal re, st1)
    /\ Robot.respondPattern this (RegExp.mk "foo" "i") st = (Normal rei, st2)
    /\ RegExp.test re "Webby: foo" = Some true
    /\ RegExp.test re "@Webby foo" = Some true
    /\ RegExp.test re "webby, foo" = Some false
    /\ RegExp.test re "foofoo webby" = Some false
    /\ RegExp.test rei "Webby: foo" = Some true
    /\ RegExp.test rei "@Webby foo" = Some true
    /\ RegExp.test rei "webby, foo" = Some true
    /\ RegExp.test rei "foofoo webby" = Some false.
Proof.
  destruct this as [name alias ls mw hs]. simpl. intros -> ->.
  do 4 eexists.
  split; [vm_compute; reflexivity|].
  split; [vm_compute; reflexivity|].
  vm_compute. repeat split; reflexivity.
Qed.

Lemma respondPattern_webby_witness :
  exists re rei st1 st2,
    Robot.respondPattern (Robot.constructor None None)
      (RegExp.mk "foo" EmptyString) empty_store = (Normal re, st1)
    /\ Robot.respondPattern (Robot.constructor None None)
         (RegExp.mk "foo" "i") empty_store = (Normal rei, st2)
    /\ RegExp.test re "Webby: foo" = Some true
    /\ RegExp.test re "@Webby foo" = Some true
    /\ RegExp.test re "webby, foo" = Some false
    /\ RegExp.test re "foofoo webby" = Some false
    /\ RegExp.test rei "Webby: foo" = Some true
    /\ RegExp.test rei "@Webby foo" = Some true
    /\ RegExp.test rei "webby, foo" = Some true
    /\ RegExp.test rei "foofoo webby" = Some false.
Proof.
  apply (respondPattern_webby (Robot.constructor None None) empty_store);
    reflexivity.
Defined.

(** Without the flag [u] the constructor accepts every source text. *)
Lemma new_RegExp_accepts (source : string) (regex : RegExp.t) :
  RegExp.has_flag "u" regex = false ->
  Robot.new_RegExp source (Some (RegExp.flags regex))
  = Returns (RegExp.mk source (RegExp.flags regex)).
Proof.
  intros Hu. unfold Robot.new_RegExp.
  change (RegExp.has_flag "u" (RegExp.mk source (RegExp.flags regex)))
    with (RegExp.has_flag "u" regex).
  now rewrite Hu.
Qed.

(** With its flags kept, the constructor returns the source it was given
    or throws. *)
Lemma new_RegExp_cases (source : string) (modifiers : string) :
  Robot.new_RegExp source (Some modifiers)
  = Returns (RegExp.mk source modifiers)
  \/ (RegExp.has_flag "u" (RegExp.mk source modifiers) = true
      /\ exists message,
           Robot.new_RegExp source (Some modifiers)
           = Throws (SyntaxError message)).
Proof.
  unfold Robot.new_RegExp.
  destruct (RegExp.has_flag "u" (RegExp.mk source modifiers)); simpl.
  - destruct (RegExp.escapes_in_u false (list_ascii_of_string source));
      simpl; [now left|].
    right. split; [reflexivity|]. eexists. reflexivity.
  - now left.
Qed.

(** What [respondPattern] hands to [new RegExp] when an alias is set. *)
Lemma respondPattern_alias (this : Robot.t) (regex : RegExp.t)
  (alias_ : string) (st : Store) :
  Robot.alias this = Some alias_ ->
  alias_ <> EmptyString ->
  RegExp.wf_flags regex = true ->
  let name := Robot.escape (Robot.name this) in
  let alias := Robot.escape alias_ in
  let a := if Js.length alias <? Js.length name then name else alias in
  let b := if Js.length alias <? Js.length name then alias else name in
  exists st',
    Robot.respondPattern this regex st
    = lift (Robot.new_RegExp
              ("^\s*[@]?(?:" ++ a ++ "[:,]?|" ++ b
               ++ "[:,]?)\s*(?:" ++ RegExp.source regex ++ ")")
              (Some (RegExp.flags regex))) st'.
Proof.
  intros Halias Hne Hwf name alias a b.
  unfold Robot.respondPattern.
  rewrite (toString_parts regex Hwf), Halias.
  assert (Ht : Js.truthy alias_ = true) by (destruct alias_; easy).
  rewrite Ht, join_split.
  fold name alias. subst a b.
  match goal with
  | |- context [bind ?w _] =>
      assert (Hw : exists st', w st = (Normal tt, st'))
        by (destruct (Robot.starts_with_anchor _); eexists; reflexivity);
      destruct Hw as [st' Hw]; exists st'; unfold bind at 1; rewrite Hw
  end.
  destruct (Js.length alias <? Js.length name); reflexivity.
Qed.

(** C8, as the code has it: when a bot name and an alias are set and the
    regex does not carry the flag [u], [respondPattern] escapes both for
    literal use (each escaped text parses as the sequence of the original
    characters) and puts the longer of the two escaped texts first in the
    alternation, the alias when they are equally long; with name "Webby"
    and alias "Bot" the pattern built from foo matches both "Webby: foo"
    and "Bot: foo". *)
Theorem respondPattern_longer_first (this : Robot.t) (regex : RegExp.t)
  (alias_ : string) (st : Store) :
  Robot.alias this = Some alias_ ->
  alias_ <> EmptyString ->
  RegExp.wf_flags regex = true ->
  RegExp.has_flag "u" regex = false ->
  let name := Robot.escape (Robot.name this) in
  let alias := Robot.escape alias_ in
  exists a b re st',
    Robot.respondPattern this regex st = (Normal re, st')
    /\ RegExp.source re
       = ("^\s*[@]?(?:" ++ a ++ "[:,]?|" ++ b ++ "[:,]?)\s*(?:"
          ++ RegExp.source regex ++ ")")%string
    /\ RegExp.flags re = RegExp.flags regex
    /\ (Js.length alias < Js.length name -> a = name /\ b = alias)
    /\ (Js.length name <= Js.length alias -> a = alias /\ b = name)
    /\ RegExp.parse name = Some (RegExp.literal (Robot.name this))
    /\ RegExp.parse alias = Some (RegExp.literal alias_)
    /\ (Robot.name this = "Webby" -> alias_ = "Bot" ->
        regex = RegExp.mk "foo" EmptyString ->
        RegExp.test re "Webby: foo" = Some true
        /\ RegExp.test re "Bot: foo" = Some true).
Proof.
  intros Halias Hne Hwf Hu name alias.
  destruct (respondPattern_alias this regex st Halias Hne Hwf) as [st' E].
  fold name alias in E. rewrite (new_RegExp_accepts _ regex Hu) in E.
  eexists _, _, _, st'. split; [exact E|].
  split; [reflexivity|]. split; [reflexivity|].
  split; [|split; [|split; [|split]]].
  - intros H. apply Nat.ltb_lt in H. now rewrite H.
  - intros H. apply Nat.ltb_ge in H. now rewrite H.
  - apply parse_escape.
  - apply parse_escape.
  - intros Hn Ha Hr. subst name alias. rewrite Hn, Ha, Hr.
    vm_compute. split; reflexivity.
Qed.

Lemma respondPattern_longer_first_witness :
  exists a b re st',
    Robot.respondPattern (Robot.constructor None (Some "Bot"))
      (RegExp.mk "foo" EmptyString) empty_store = (Normal re, st')
    /\ RegExp.source re
       = ("^\s*[@]?(?:" ++ a ++ "[:,]?|" ++ b ++ "[:,]?)\s*(?:"
          ++ "foo" ++ ")")%string
    /\ RegExp.flags re = EmptyString
    /\ (Js.length (Robot.escape "Bot") < Js.length (Robot.escape "Webby") ->
        a = Robot.escape "Webby" /\ b = Robot.escape "Bot")
    /\ (Js.length (Robot.escape "Webby") <= Js.length (Robot.escape "Bot") ->
        a = Robot.escape "Bot" /\ b = Robot.escape "Webby")
    /\ RegExp.parse (Robot.escape "Webby") = Some (RegExp.literal "Webby")
    /\ RegExp.parse (Robot.escape "Bot") = Some (RegExp.literal "Bot")
    /\ ("Webby" = "Webby" -> "Bot" = "Bot" ->
        RegExp.mk "foo" EmptyString = RegExp.mk "foo" EmptyString ->
        RegExp.test re "Webby: foo" = Some true
        /\ RegExp.test re "Bot: foo" = Some true).
Proof.
  apply (respondPattern_longer_first (Robot.constructor None (Some "Bot"))
           (RegExp.mk "foo" EmptyString) empty_store (alias_ := "Bot")).
  - reflexivity.
  - discriminate.
  - reflexivity.
  - reflexivity.
Defined.

(** C8, as the claim has it, fails twice.  With name "Webby" and alias
    "a.b." the alias is the shorter text, yet its escaped text is the
    longer one and comes first in the alternation.  With name "R2-D2",
    alias "Bot" and the regex [/foo/u] no pattern is built: the escaped
    hyphen is no escape of the unicode mode and [new RegExp] throws. *)
Lemma respondPattern_shorter_text_first :
  (Js.length "a.b." <? Js.length "Webby") = true
  /\ Robot.respondPattern (Robot.constructor (Some "Webby") (Some "a.b."))
       (RegExp.mk "foo" EmptyString) empty_store
     = (Normal (RegExp.mk "^\s*[@]?(?:a\.b\.[:,]?|Webby[:,]?)\s*(?:foo)"
                          EmptyString),
        empty_store)
  /\ Robot.respondPattern (Robot.constructor (Some "R2-D2") (Some "Bot"))
       (RegExp.mk "foo" "u") empty_store
     = (Throw
          (SyntaxError
             ("Invalid regular expression: "
              ++ "/^\s*[@]?(?:R2\-D2[:,]?|Bot[:,]?)\s*(?:foo)/"
              ++ ": Invalid escape")),
        empty_store).
Proof. repeat split; vm_compute; reflexivity. Qed.

(* ------------------------------------------------------------------ *)
(** * Reasoning about runs *)
(* ------------------------------------------------------------------ *)

Section Wp.

Context {A B : Type}.

Lemma wp_ret (a : A) st (post : Completion A -> list Event -> Store -> Prop) :
  post (Normal a) [] st -> wp (ret a) st post.
Proof. intros H. exists []. simpl. now rewrite app_nil_r. Qed.

Lemma wp_throw (e : Error) st
  (post : Completion A -> list Event -> Store -> Prop) :
  post (Throw e) [] st -> wp (throw e) st post.
Proof. intros H. exists []. simpl. now rewrite app_nil_r. Qed.

Lemma wp_lift (o : Outcome A) st
  (post : Completion A -> list Event -> Store -> Prop) :
  post (match o with Returns a => Normal a | Throws e => Throw e end) [] st ->
  wp (lift o) st post.
Proof. intros H. exists []. destruct o; simpl; now rewrite app_nil_r. Qed.

Lemma wp_mono (m : M A) st
  (P Q : Completion A -> list Event -> Store -> Prop) :
  wp m st P -> (forall c evs st', P c evs st' -> Q c evs st') -> wp m st Q.
Proof. intros [evs [Ht HP]] H. exists evs. auto. Qed.

Lemma wp_bind (m : M A) (k : A -> M B) st
  (post : Completion B -> list Event -> Store -> Prop) :
  wp m st (fun c evs st1 =>
             match c with
             | Normal a =>
                 wp (k a) st1 (fun c2 evs2 st2 => post c2 (evs ++ evs2) st2)
             | Throw e => post (Throw e) evs st1
             | Unfinished => post Unfinished evs st1
             end) ->
  wp (bind m k) st post.
Proof.
  intros [evs [Ht H]]. unfold wp, bind.
  destruct (m st) as [[a|e|] st1]; simpl in *.
  - destruct H as [evs2 [Ht2 H2]].
    exists (evs ++ evs2). split; [|exact H2].
    now rewrite Ht2, Ht, app_assoc.
  - exists evs. auto.
  - exists evs. auto.
Qed.

End Wp.

Lemma wp_try {A} (m : M A) (handler : Error -> M A) st
  (post : Completion A -> list Event -> Store -> Prop) :
  wp m st (fun c evs st1 =>
             match c with
             | Throw e =>
                 wp (handler e) st1
                    (fun c2 evs2 st2 => post c2 (evs ++ evs2) st2)
             | other => post other evs st1
             end) ->
  wp (try_catch m handler) st post.
Proof.
  intros [evs [Ht H]]. unfold wp, try_catch.
  destruct (m st) as [[a|e|] st1]; simpl in *.
  - exists evs. auto.
  - destruct H as [evs2 [Ht2 H2]].
    exists (evs ++ evs2). split; [|exact H2].
    now rewrite Ht2, Ht, app_assoc.
  - exists evs. auto.
Qed.

Lemma wp_record (ev : Event) st
  (post : Completion unit -> list Event -> Store -> Prop) :
  post (Normal tt) [ev]
       (mkStore (trace st ++ [ev]) (finished st) (next_ref st)) ->
  wp (record ev) st post.
Proof. intros H. exists [ev]. auto. Qed.

Lemma wp_finish (m : Message.t) st
  (post : Completion unit -> list Event -> Store -> Prop) :
  post (Normal tt) []
       (mkStore (trace st) (Message.ref m :: finished st) (next_ref st)) ->
  wp (finish m) st post.
Proof. intros H. exists []. simpl. now rewrite app_nil_r. Qed.

Lemma wp_read_done (m : Message.t) st
  (post : Completion bool -> list Event -> Store -> Prop) :
  post (Normal (is_done st m)) [] st -> wp (read_done m) st post.
Proof. intros H. exists []. simpl. now rewrite app_nil_r. Qed.

Lemma wp_new_CatchAllMessage (m : Message.t) st
  (post : Completion Message.t -> list Event -> Store -> Prop) :
  post (Normal (Message.CatchAllMessage (fresh st m) m)) []
       (mkStore (trace st) (finished st) (S (fresh st m))) ->
  wp (new_CatchAllMessage m) st post.
Proof. intros H. exists []. simpl. now rewrite app_nil_r. Qed.

(** From a run to its result. *)
Lemma wp_result {A} (m : M A) st
  (post : Completion A -> list Event -> Store -> Prop) :
  wp m st post ->
  exists c evs st', m st = (c, st') /\ trace st' = trace st ++ evs
                    /\ post c evs st'.
Proof.
  intros [evs [Ht H]]. exists (fst (m st)), evs, (snd (m st)).
  now rewrite <- surjective_pairing.
Qed.

Lemma wp_of_result {A} (m : M A) st c st' evs
  (post : Completion A -> list Event -> Store -> Prop) :
  m st = (c, st') -> trace st' = trace st ++ evs -> post c evs st' ->
  wp m st post.
Proof. intros E Ht H. exists evs. now rewrite E. Qed.

(** ** Projections of a trace *)

Lemma inner_settled evs : all_inner evs -> settled evs = [].
Proof.
  induction 1 as [|e evs He _ IH]; [reflexivity|].
  destruct e; try discriminate He; exact IH.
Qed.

Lemma inner_receives evs : all_inner evs -> receives evs = [].
Proof.
  induction 1 as [|e evs He _ IH]; [reflexivity|].
  destruct e; try discriminate He; exact IH.
Qed.

Lemma inner_attempts evs : all_inner evs -> attempts evs = [].
Proof.
  induction 1 as [|e evs He _ IH]; [reflexivity|].
  destruct e; try discriminate He; exact IH.
Qed.

Lemma all_inner_nil : all_inner [].
Proof. constructor. Qed.

Lemma all_inner_app a b : all_inner a -> all_inner b -> all_inner (a ++ b).
Proof. intros Ha Hb. apply Forall_app. now split. Qed.

Lemma all_inner_cons e evs :
  inner e = true -> all_inner evs -> all_inner (e :: evs).
Proof. intros He H. now constructor. Qed.

#[local] Hint Resolve all_inner_nil all_inner_app all_inner_cons : core.

Lemma settled_app a b : settled (a ++ b) = settled a ++ settled b.
Proof. apply flat_map_app. Qed.

Lemma receives_app a b : receives (a ++ b) = receives a ++ receives b.
Proof. apply flat_map_app. Qed.

Lemma attempts_app a b : attempts (a ++ b) = attempts a ++ attempts b.
Proof. apply flat_map_app. Qed.

Lemma callbacks_app a b : callbacks (a ++ b) = callbacks a ++ callbacks b.
Proof. apply flat_map_app. Qed.

Lemma emitted_app a b : emitted (a ++ b) = emitted a ++ emitted b.
Proof. apply flat_map_app. Qed.

Lemma handled_app a b : handled (a ++ b) = handled a ++ handled b.
Proof. apply flat_map_app. Qed.

(* ------------------------------------------------------------------ *)
(** * Error channel *)
(* ------------------------------------------------------------------ *)

Lemma push_push a b st : push b (push a st) = push (a ++ b) st.
Proof. unfold push. simpl. now rewrite app_assoc. Qed.

Section ErrorChannel.

Variables (err : Error) (res : option Response.t).

(** Handlers that do not throw are all called, in order. *)
Lemma forEach_handlers (T : Type) (hs : list ErrorHandler)
  (handler : option T -> Error -> M unit) :
  (forall h, In h hs -> eh_body h err res = None) ->
  forall st,
    forEach hs (fun this_ h =>
                  try_catch (call_handler h err res) (handler this_)) st
    = (Normal tt,
       push (map (fun h => EvHandler (eh_id h) err res) hs) st).
Proof.
  induction hs as [|h hs IH]; intros Hq st.
  - unfold push. simpl. rewrite app_nil_r. now destruct st.
  - cbn [forEach]. unfold bind at 1, try_catch, call_handler, bind, record.
    rewrite (Hq h (or_introl eq_refl)). simpl.
    rewrite IH by (intros h' Hin; apply Hq; now right).
    unfold push. simpl. now rewrite <- app_assoc.
Qed.

Lemma invokeErrorHandlers_quiet (this : Robot.t) (st : Store) :
  quiet this ->
  Robot.invokeErrorHandlers this err res st
  = (Normal tt, push (report_events this err res) st).
Proof.
  intros Hq. unfold Robot.invokeErrorHandlers, Log.error.
  unfold bind at 1, record.
  rewrite forEach_handlers by (intros h Hin; now apply Hq).
  unfold push, report_events. simpl. now rewrite <- app_assoc.
Qed.

Lemma emit_quiet (this : Robot.t) (st : Store) :
  quiet this ->
  Robot.emit this "error" err res st
  = (Normal tt, push (emit_events this err res) st).
Proof.
  intros Hq. unfold Robot.emit. unfold bind at 1, record.
  change (String.eqb "error" "error") with true. cbv iota beta.
  rewrite invokeErrorHandlers_quiet by assumption.
  unfold push, emit_events. simpl. now rewrite <- app_assoc.
Qed.

Lemma report_events_inner (this : Robot.t) :
  all_inner (report_events this err res).
Proof.
  unfold all_inner, report_events. constructor; [reflexivity|].
  induction (Robot.errorHandlers this); simpl; constructor; auto.
Qed.

Lemma emit_events_inner (this : Robot.t) :
  all_inner (emit_events this err res).
Proof. constructor; [reflexivity|apply report_events_inner]. Qed.

Lemma wp_emit (this : Robot.t) (st : Store)
  (post : Completion unit -> list Event -> Store -> Prop) :
  quiet this ->
  post (Normal tt) (emit_events this err res)
       (push (emit_events this err res) st) ->
  wp (Robot.emit this "error" err res) st post.
Proof.
  intros Hq H. unfold wp. rewrite emit_quiet by assumption.
  exists (emit_events this err res). auto.
Qed.

End ErrorChannel.

(** A handler that throws ends the report: the [catch] block reads
    [this.logger] with [this] undefined, the [TypeError] leaves
    [invokeErrorHandlers], and the handlers after it are not called. *)
Lemma forEach_fault (T : Type) (err : Error) (res : option Response.t)
  (hs1 hs2 : list ErrorHandler) (h : ErrorHandler) (e : Error)
  (k : Error -> M unit) :
  (forall h', In h' hs1 -> eh_body h' err res = None) ->
  eh_body h err res = Some e ->
  forall st,
    forEach (hs1 ++ h :: hs2)
      (fun (this_ : option T) h =>
         try_catch (call_handler h err res)
           (fun error =>
              property_of this_ "logger" (fun _ => tt) ;; k error)) st
    = (Throw (TypeError "Cannot read property 'logger' of undefined"),
       push (map (fun h => EvHandler (eh_id h) err res) (hs1 ++ [h])) st).
Proof.
  intros Hq He.
  induction hs1 as [|h1 hs1 IH]; intros st.
  - cbn [forEach app]. unfold bind at 1, try_catch, call_handler.
    unfold bind at 1, record. rewrite He. reflexivity.
  - cbn [forEach app]. unfold bind at 1, try_catch, call_handler.
    unfold bind at 1, record.
    rewrite (Hq h1 (or_introl eq_refl)). simpl.
    rewrite IH by (intros h' Hin; apply Hq; now right).
    unfold push. simpl. now rewrite <- app_assoc.
Qed.

Lemma invokeErrorHandlers_fault (this : Robot.t) (err : Error)
  (res : option Response.t) (hs1 hs2 : list ErrorHandler)
  (h : ErrorHandler) (e : Error) (st : Store) :
  Robot.errorHandlers this = hs1 ++ h :: hs2 ->
  (forall h', In h' hs1 -> eh_body h' err res = None) ->
  eh_body h err res = Some e ->
  Robot.invokeErrorHandlers this err res st
  = (Throw (TypeError "Cannot read property 'logger' of undefined"),
     push (EvLog "error" (err_stack err)
           :: map (fun h => EvHandler (eh_id h) err res) (hs1 ++ [h])) st).
Proof.
  intros Hhs Hq He. unfold Robot.invokeErrorHandlers, Log.error.
  unfold bind at 1, record. rewrite Hhs.
  rewrite (@forEach_fault Robot.t err res hs1 hs2 h e _ Hq He).
  unfold push. simpl. now rewrite <- app_assoc.
Qed.

(** The same [TypeError] leaves [emit], and with it the [catch] block of
    the search iterator: a listener attempt that throws on a robot with a
    throwing error handler ends the search with an exception. *)
Lemma emit_fault (this : Robot.t) (err : Error) (res : option Response.t)
  (hs1 hs2 : list ErrorHandler) (h : ErrorHandler) (e : Error) (st : Store) :
  Robot.errorHandlers this = hs1 ++ h :: hs2 ->
  (forall h', In h' hs1 -> eh_body h' err res = None) ->
  eh_body h err res = Some e ->
  exists st',
    Robot.emit this "error" err res st
    = (Throw (TypeError "Cannot read property 'logger' of undefined"), st').
Proof.
  intros Hhs Hq He. unfold Robot.emit. unfold bind at 1, record.
  change (String.eqb "error" "error") with true. cbv iota beta.
  rewrite (@invokeErrorHandlers_fault this err res hs1 hs2 h e _ Hhs Hq He).
  eexists. reflexivity.
Qed.

Lemma tryListener_fault (this : Robot.t) (m : Message.t) (l : Listener.t)
  (any : bool) (err : Error) (hs2 : list ErrorHandler) (h : ErrorHandler)
  (e : Error) (st st1 : Store) :
  Robot.errorHandlers this = h :: hs2 ->
  eh_body h err (Some (Response.mk (Some m) (Some []))) = Some e ->
  Listener.call (Robot.emit this) l m
                (Robot.listener (Robot.middleware this)) st
  = (Throw err, st1) ->
  exists st',
    Robot.tryListener this m l any st
    = (Throw (TypeError "Cannot read property 'logger' of undefined"), st').
Proof.
  intros Hhs He Hcall.
  destruct (@emit_fault this err (Some (Response.mk (Some m) (Some [])))
              [] hs2 h e st1 Hhs
              (fun h' (Hin : In h' []) => match Hin with end) He)
    as [st' E].
  exists st'. unfold Robot.tryListener, bind at 1, try_catch, bind at 1.
  rewrite Hcall. unfold bind at 1. now rewrite E.
Qed.

(** C1, on the code: with handlers [h1; h2] registered and [h1] throwing,
    [invokeErrorHandlers] of the complete class and that of [src/robot.js]
    both call [h1], write no line about the failed handler, never call
    [h2], and leave with a [TypeError] that reaches their caller. *)
Theorem invokeErrorHandlers_handler_throws :
  let boom := mkError "Error" "boom" "Error: boom" in
  let oops := mkError "Error" "oops" "Error: oops" in
  let h1 := mkErrorHandler 1 (fun _ _ => Some boom) in
  let h2 := mkErrorHandler 2 (fun _ _ => None) in
  let this := Robot.error (Robot.error (Robot.constructor None None) h1) h2 in
  let undefined_this :=
    TypeError "Cannot read property 'logger' of undefined" in
  Robot.invokeErrorHandlers this oops None empty_store
  = (Throw undefined_this,
     mkStore [EvLog "error" "Error: oops"; EvHandler 1 oops None] [] 0)
  /\ SrcRobot.invokeErrorHandlers this oops None empty_store
     = (Throw undefined_this,
        mkStore [EvLog "error" "Error: oops"; EvHandler 1 oops None] [] 0).
Proof. split; reflexivity. Qed.

(* ------------------------------------------------------------------ *)
(** * Plug-in calls *)
(* ------------------------------------------------------------------ *)

Tactic Notation "wp_use" open_constr(H) := eapply wp_mono; [apply H|].

Lemma wp_finish_response (res : Response.t) (st : Store) :
  wp (finish_response res) st (fun c evs _ => c <> Unfinished /\ evs = []).
Proof.
  unfold finish_response. destruct (Response.message res).
  - apply wp_finish. split; [discriminate|reflexivity].
  - apply wp_throw. split; [discriminate|reflexivity].
Qed.

Lemma wp_run_effect (e : Effect) (res : Response.t) (st : Store) :
  wp (run_effect e res) st (fun c evs _ => c <> Unfinished /\ evs = []).
Proof.
  unfold run_effect. apply wp_bind.
  assert (H : wp (if eff_finish e then finish_response res else ret tt) st
                 (fun c evs _ => c <> Unfinished /\ evs = [])).
  { destruct (eff_finish e); [apply wp_finish_response|].
    apply wp_ret. split; [discriminate|reflexivity]. }
  wp_use H. intros c evs st' [Hc ->].
  destruct c as [[]|err|]; [|split; [discriminate|reflexivity]|contradiction].
  destruct (eff_raise e).
  - apply wp_throw. split; [discriminate|reflexivity].
  - apply wp_ret. split; [discriminate|reflexivity].
Qed.

Lemma wp_call_callback (callback : Callback) :
  forall (res : Response.t) (st : Store),
    wp (call_callback callback res) st
       (fun c evs _ => c <> Unfinished /\ all_inner evs).
Proof.
  induction callback as [id body| |callback IH]; intros res st;
    cbn [call_callback].
  - apply wp_bind, wp_record.
    wp_use (wp_run_effect (body res) res _).
    intros c evs st' [Hc ->]. split; [exact Hc|]. auto.
  - apply wp_throw. split; [discriminate|auto].
  - apply wp_bind. destruct (Response.message res).
    + apply wp_ret. wp_use (IH (Response.set_message (Message.message t) res)).
      auto.
    + apply wp_throw. split; [discriminate|auto].
Qed.

Lemma wp_middleware_call (mw : MiddlewareFn) (context : Context)
  (st : Store) :
  wp (Middleware.call mw context) st
     (fun c evs _ => c <> Unfinished /\ all_inner evs).
Proof.
  unfold Middleware.call. apply wp_bind, wp_record, wp_bind.
  assert (H : wp (if mw_finish (mw_body mw context)
                  then finish_response (ctx_response context) else ret tt)
                 (push [EvMiddleware (mw_id mw) context] st)
                 (fun c evs _ => c <> Unfinished /\ evs = [])).
  { destruct (mw_finish _); [apply wp_finish_response|].
    apply wp_ret. split; [discriminate|reflexivity]. }
  wp_use H. intros c evs st' [Hc ->].
  destruct c as [[]|err|];
    [|split; [discriminate|auto]|contradiction].
  destruct (mw_outcome _).
  - apply wp_ret. split; [discriminate|auto].
  - apply wp_ret. split; [discriminate|auto].
  - apply wp_throw. split; [discriminate|auto].
Qed.

(* ------------------------------------------------------------------ *)
(** * Dispatcher *)
(* ------------------------------------------------------------------ *)

Section Dispatch.

Variable this : Robot.t.
Hypothesis Hquiet : quiet this.

(** A middleware chain adds inner events and then runs one of its two
    continuations. *)
Lemma wp_execute (A : Type) (stack : Middleware.t) (context : Context)
  (next done : Context -> M A)
  (Q : Completion A -> list Event -> Store -> Prop) :
  (forall st1, wp (next context) st1 Q) ->
  (forall st1, wp (done context) st1 Q) ->
  forall st,
    wp (Middleware.execute (Robot.emit this) stack context next done) st
       (fun c evs st' =>
          exists evs1 evs2,
            evs = evs1 ++ evs2 /\ all_inner evs1 /\ Q c evs2 st').
Proof.
  intros Hnext Hdone.
  induction stack as [|mw rest IH]; intros st; cbn [Middleware.execute].
  - wp_use (Hnext st). intros c evs st' H.
    exists [], evs. auto.
  - apply wp_bind, wp_try.
    wp_use (wp_middleware_call mw context st).
    intros c evs st1 [Hc Hin].
    destruct c as [continue|err|]; [| |contradiction].
    + destruct continue.
      * wp_use (IH st1).
        intros c2 evs2 st2 (evs1 & evs3 & -> & Hin1 & HQ).
        exists (evs ++ evs1), evs3. rewrite app_assoc.
        split; [reflexivity|]. split; [|exact HQ]. auto.
      * wp_use (Hdone st1). intros c2 evs2 st2 HQ.
        exists evs, evs2. auto.
    + apply wp_bind, wp_emit; [exact Hquiet|].
      apply wp_ret.
      wp_use (Hdone _). intros c2 evs2 st2 HQ.
      eexists _, evs2.
      split; [reflexivity|]. split; [|exact HQ].
      pose proof (emit_events_inner err (Some (ctx_response context)) this).
      auto.
Qed.

(** One listener attempt: the matcher call, then inner events. *)
Lemma wp_Listener_call (l : Listener.t) (m : Message.t)
  (stack : Middleware.t) (st : Store) :
  wp (Listener.call (Robot.emit this) l m stack) st
     (fun c evs _ =>
        c <> Unfinished
        /\ exists evs', evs = EvMatch (Listener.lid l) m :: evs'
                        /\ all_inner evs').
Proof.
  unfold Listener.call. apply wp_bind, wp_record, wp_bind, wp_lift.
  destruct (Listener.matcher l m) as [[groups|]|err].
  - eapply wp_mono.
    + apply wp_execute with
        (Q := fun (c : Completion bool) evs (_ : Store) =>
                c <> Unfinished /\ all_inner evs).
      * intros st1. apply wp_bind.
        wp_use (wp_call_callback _ _ st1).
        intros c evs st2 [Hc Hin].
        destruct c as [[]|err|]; [|split; [discriminate|exact Hin]
                                  |contradiction].
        apply wp_ret. split; [discriminate|]. now rewrite app_nil_r.
      * intros st1. apply wp_ret. split; [discriminate|auto].
    + intros c evs st' (evs1 & evs2 & -> & Hin1 & Hc & Hin2).
      split; [exact Hc|]. eexists. split; [reflexivity|].
      simpl. auto.
  - apply wp_ret. split; [discriminate|].
    eexists. split; [reflexivity|auto].
  - split; [discriminate|]. eexists. split; [reflexivity|auto].
Qed.

(** The iterator of the search: it always reports a truth value, and a
    true one only when the message is done. *)
Lemma wp_tryListener (m : Message.t) (l : Listener.t) (any : bool)
  (st : Store) :
  wp (Robot.tryListener this m l any) st
     (fun c evs st' =>
        exists truth any',
          c = Normal (truth, any')
          /\ (truth = true -> is_done st' m = true)
          /\ exists evs', evs = EvMatch (Listener.lid l) m :: evs'
                          /\ all_inner evs').
Proof.
  unfold Robot.tryListener. apply wp_bind, wp_try, wp_bind.
  wp_use (wp_Listener_call l m).
  intros c evs st1 [Hc (evs' & -> & Hin)].
  destruct c as [executed|err|]; [| |contradiction].
  - apply wp_ret. unfold Middleware.ticker, nextTick.
    apply wp_bind, wp_read_done, wp_ret.
    exists (is_done st1 m), (any || executed).
    split; [reflexivity|]. split; [auto|].
    exists evs'. now rewrite !app_nil_r.
  - apply wp_bind, wp_emit; [exact Hquiet|]. apply wp_ret, wp_ret.
    exists false, any. split; [reflexivity|]. split; [discriminate|].
    eexists. rewrite !app_nil_r. split; [reflexivity|].
    apply all_inner_app; [exact Hin|apply emit_events_inner].
Qed.

(** The series over a list of listeners. *)
Lemma wp_detectSeries (m : Message.t) (ls : list Listener.t) :
  forall (any : bool) (st : Store),
    wp (Async.detectSeries ls (Robot.tryListener this m) any) st
       (fun c evs st' =>
          exists found any',
            c = Normal (found, any')
            /\ settled evs = [] /\ receives evs = []
            /\ match found with
               | Some l =>
                   is_done st' m = true
                   /\ exists ls1 ls2 any1 st1,
                        ls = ls1 ++ l :: ls2
                        /\ attempts evs = map Listener.lid (ls1 ++ [l])
                        /\ Async.detectSeries ls1 (Robot.tryListener this m)
                             any st = (Normal (None, any1), st1)
               | None => attempts evs = map Listener.lid ls
               end).
Proof.
  induction ls as [|l ls IH]; intros any st; cbn [Async.detectSeries].
  - apply wp_ret. exists None, any. auto.
  - apply wp_bind.
    destruct (wp_result (wp_tryListener m l any st))
      as (c & evs & st1 & E & Ht & truth & any1 & -> & Hdone & evs' & -> & Hin).
    eapply wp_of_result; [exact E|exact Ht|].
    assert (Hs : settled (EvMatch (Listener.lid l) m :: evs') = [])
      by (apply (inner_settled Hin)).
    assert (Hr : receives (EvMatch (Listener.lid l) m :: evs') = [])
      by (apply (inner_receives Hin)).
    assert (Ha : attempts (EvMatch (Listener.lid l) m :: evs')
                 = [Listener.lid l])
      by (simpl; now rewrite (inner_attempts Hin)).
    destruct truth.
    + apply wp_ret. exists (Some l), any1. rewrite app_nil_r.
      repeat (split; [auto|]).
      exists [], ls, any, st. simpl. auto.
    + wp_use (IH any1 st1).
      intros c evs2 st2 (found & any2 & -> & Hs2 & Hr2 & Hfound).
      exists found, any2. split; [reflexivity|].
      rewrite settled_app, receives_app, Hs, Hr, Hs2, Hr2.
      repeat (split; [reflexivity|]).
      destruct found as [l'|].
      * destruct Hfound as [Hd (ls1 & ls2 & any3 & st3 & -> & Hat & Hpre)].
        split; [exact Hd|].
        exists (l :: ls1), ls2, any3, st3.
        split; [reflexivity|].
        split; [rewrite attempts_app, Ha, Hat; reflexivity|].
        cbn [Async.detectSeries]. unfold bind at 1. rewrite E. exact Hpre.
      * rewrite attempts_app, Ha, Hfound. reflexivity.
Qed.

Lemma wp_searchListeners (m : Message.t) (st : Store) :
  wp (Robot.searchListeners this m) st
     (fun c evs st' =>
        exists found any,
          c = Normal (found, any)
          /\ settled evs = [] /\ receives evs = []
          /\ match found with
             | Some l =>
                 is_done st' m = true
                 /\ exists ls1 ls2 any1 st1,
                      Robot.listeners this = ls1 ++ l :: ls2
                      /\ attempts evs = map Listener.lid (ls1 ++ [l])
                      /\ Async.detectSeries ls1 (Robot.tryListener this m)
                           false st = (Normal (None, any1), st1)
             | None => attempts evs = map Listener.lid (Robot.listeners this)
             end).
Proof. apply wp_detectSeries. Qed.

Lemma wp_call_done_opt (cb : option DoneFn) (st : Store) :
  wp (match cb with
      | Some d => call_done d
      | None => ret tt
      end) st
     (fun c evs _ => c = Normal tt /\ settled evs = settles cb
                     /\ receives evs = []).
Proof.
  destruct cb as [[tag]|].
  - apply wp_record. auto.
  - apply wp_ret. auto.
Qed.

(** [processListeners] after its search: the completion callback, or one
    dispatch of the wrapped message. *)
Lemma wp_processListeners
  (receive : Robot.t -> Message.t -> option DoneFn -> M unit)
  (context : Context) (m : Message.t) (done : option DoneFn) (st : Store) :
  Response.message (ctx_response context) = Some m ->
  (Message.isCatchAll m = false ->
   forall wrapped st1,
     Message.isCatchAll wrapped = true ->
     wp (receive this wrapped done) st1
        (fun c evs _ => c = Normal tt /\ settled evs = settles done
                        /\ receives evs = [wrapped])) ->
  exists found any st1 evs1,
    Robot.searchListeners this m st = (Normal (found, any), st1)
    /\ trace st1 = trace st ++ evs1
    /\ wp (Robot.processListeners receive this context done) st
          (fun c evs _ =>
             c = Normal tt
             /\ settled evs = settles done
             /\ receives evs
                = if negb (Message.isCatchAll m) && negb any
                  then [Message.CatchAllMessage (fresh st1 m) m]
                  else []).
Proof.
  intros Hm Hrecv.
  destruct (wp_result (wp_searchListeners m st))
    as (c & evs1 & st1 & E & Ht & found & any & -> & Hs & Hr & _).
  exists found, any, st1, evs1.
  split; [exact E|]. split; [exact Ht|].
  unfold Robot.processListeners, Robot.context_message. rewrite Hm.
  apply wp_bind, wp_ret, wp_bind.
  eapply wp_of_result; [exact E|exact Ht|]. cbv beta iota.
  destruct (negb (Message.isCatchAll m) && negb any) eqn:Hwrap.
  - apply andb_true_iff in Hwrap as [Hc _]. apply negb_true_iff in Hc.
    unfold Log.debug.
    apply wp_bind, wp_record, wp_bind, wp_new_CatchAllMessage.
    wp_use (Hrecv Hc (Message.CatchAllMessage (fresh _ m) m)).
    + reflexivity.
    + intros c evs st2 (-> & Hs2 & Hr2). simpl fresh.
      rewrite !app_nil_l, !settled_app, !receives_app, Hs, Hr, Hs2, Hr2.
      auto.
  - unfold nextTick.
    wp_use (wp_call_done_opt done).
    intros c evs st2 (-> & Hs2 & Hr2).
    rewrite !app_nil_l, !settled_app, !receives_app, Hs, Hr, Hs2, Hr2.
    auto.
Qed.

(** A dispatch of a CatchAll message: no further call of [receive]. *)
Lemma wp_receive_CatchAll (fuel : nat) (m : Message.t)
  (cb : option DoneFn) (st : Store) :
  Message.isCatchAll m = true ->
  wp (Robot.receive (S fuel) this m cb) st
     (fun c evs _ => c = Normal tt /\ settled evs = settles cb
                     /\ receives evs = [m]).
Proof.
  intros Hc. cbn [Robot.receive]. apply wp_bind, wp_record.
  eapply wp_mono.
  - apply wp_execute with
      (Q := fun (c : Completion unit) evs (_ : Store) =>
              c = Normal tt /\ settled evs = settles cb
              /\ receives evs = []).
    + intros st1.
      destruct (@wp_processListeners (Robot.receive fuel)
                  (mkContext None (Response.mk (Some m) None)) m cb st1
                  eq_refl) as (found & any & st2 & evs1 & _ & _ & H).
      * intros Hf. congruence.
      * wp_use H. intros c evs st' (-> & Hs & Hr).
        rewrite Hc in Hr. auto.
    + intros st1. apply wp_call_done_opt.
  - intros c evs st' (evs1 & evs2 & -> & Hin & -> & Hs & Hr).
    rewrite !settled_app, !receives_app, Hs, Hr.
    rewrite (inner_settled Hin), (inner_receives Hin). auto.
Qed.

(** A dispatch: it returns, the completion callback has been called
    once, and [receive] was called again at most once, with the wrapped
    message. *)
Lemma wp_receive (fuel : nat) (m : Message.t) (cb : option DoneFn)
  (st : Store) :
  2 <= fuel ->
  wp (Robot.receive fuel this m cb) st
     (fun c evs _ =>
        c = Normal tt /\ settled evs = settles cb
        /\ (receives evs = [m]
            \/ (Message.isCatchAll m = false
                /\ exists r,
                     receives evs = [m; Message.CatchAllMessage r m]))).
Proof.
  intros Hfuel. destruct fuel as [|[|fuel]]; [lia|lia|].
  cbn [Robot.receive]. apply wp_bind, wp_record.
  eapply wp_mono.
  - apply wp_execute with
      (Q := fun (c : Completion unit) evs (_ : Store) =>
              c = Normal tt /\ settled evs = settles cb
              /\ (receives evs = []
                  \/ (Message.isCatchAll m = false
                      /\ exists r,
                           receives evs = [Message.CatchAllMessage r m]))).
    + intros st1.
      destruct (@wp_processListeners (Robot.receive (S fuel))
                  (mkContext None (Response.mk (Some m) None)) m cb st1
                  eq_refl) as (found & any & st2 & evs1 & _ & _ & H).
      * intros _ wrapped st2 Hw. now apply wp_receive_CatchAll.
      * wp_use H. intros c evs st' (-> & Hs & Hr).
        split; [reflexivity|]. split; [exact Hs|].
        destruct (negb (Message.isCatchAll m) && negb any) eqn:Hwrap;
          [|now left].
        right. apply andb_true_iff in Hwrap as [Hc _].
        apply negb_true_iff in Hc. eauto.
    + intros st1. wp_use (wp_call_done_opt cb).
      intros c evs st' (-> & Hs & Hr). auto.
  - intros c evs st' (evs1 & evs2 & -> & Hin & -> & Hs & Hr).
    rewrite !settled_app, !receives_app, Hs.
    rewrite (inner_settled Hin), (inner_receives Hin).
    split; [reflexivity|]. split; [reflexivity|].
    destruct Hr as [->|[Hc [r ->]]]; [now left|].
    right. split; [exact Hc|]. now exists r.
Qed.

End Dispatch.

(** Two levels of [receive] are all a dispatch uses: more fuel changes
    nothing. *)
Lemma receive_enough_fuel (this : Robot.t) (fuel : nat) (m : Message.t)
  (cb : option DoneFn) (st : Store) :
  quiet this -> 2 <= fuel ->
  exists st', Robot.receive fuel this m cb st = (Normal tt, st').
Proof.
  intros Hq Hf.
  destruct (wp_result (wp_receive Hq m cb st Hf))
    as (c & evs & st' & E & _ & -> & _).
  now exists st'.
Qed.

(** A dispatch on a robot without receive middleware goes straight to
    the search, and a search over no listener falls through. *)
Lemma receive_no_middleware (this : Robot.t) (fuel : nat) (m : Message.t)
  (cb : option DoneFn) (st : Store) :
  Robot.receive_ (Robot.middleware this) = [] ->
  Robot.receive (S fuel) this m cb st
  = Robot.processListeners (Robot.receive fuel) this
      (mkContext None (Response.mk (Some m) None)) cb
      (push [EvReceive m] st).
Proof. intros Hmw. cbn [Robot.receive]. now rewrite Hmw. Qed.

Lemma processListeners_no_listeners
  (receive : Robot.t -> Message.t -> option DoneFn -> M unit)
  (this : Robot.t) (m : Message.t) (done : option DoneFn) (st : Store) :
  Robot.listeners this = [] ->
  Robot.processListeners receive this
    (mkContext None (Response.mk (Some m) None)) done st
  = if Message.isCatchAll m
    then match done with
         | Some d => call_done d
         | None => ret tt
         end st
    else receive this (Message.CatchAllMessage (fresh st m) m) done
           (mkStore
              (trace st
               ++ [EvLog "debug"
                         "No listeners executed; falling back to catch-all"])
              (finished st) (S (fresh st m))).
Proof.
  intros Hl. unfold Robot.processListeners, Robot.searchListeners.
  rewrite Hl. cbn. destruct (Message.isCatchAll m); reflexivity.
Qed.

(* ------------------------------------------------------------------ *)
(** * Single listener attempts *)
(* ------------------------------------------------------------------ *)

Lemma Listener_call_matcher_throws
  (emit : string -> Error -> option Response.t -> M unit)
  (l : Listener.t) (m : Message.t) (stack : Middleware.t) (e : Error)
  (st : Store) :
  Listener.matcher l m = Throws e ->
  Listener.call emit l m stack st
  = (Throw e, push [EvMatch (Listener.lid l) m] st).
Proof. intros H. unfold Listener.call. cbn. now rewrite H. Qed.

Lemma Listener_call_no_match
  (emit : string -> Error -> option Response.t -> M unit)
  (l : Listener.t) (m : Message.t) (stack : Middleware.t) (st : Store) :
  Listener.matcher l m = Returns None ->
  Listener.call emit l m stack st
  = (Normal false, push [EvMatch (Listener.lid l) m] st).
Proof. intros H. unfold Listener.call. cbn. now rewrite H. Qed.


Section Attempts.

Variables (this : Robot.t) (m : Message.t) (l : Listener.t) (any : bool).

Lemma tryListener_returns (executed : bool) (st st1 : Store) :
  Listener.call (Robot.emit this) l m
                (Robot.listener (Robot.middleware this)) st
  = (Normal executed, st1) ->
  Robot.tryListener this m l any st
  = (Normal (is_done st1 m, any || executed), st1).
Proof.
  intros H. unfold Robot.tryListener, bind at 1, try_catch, bind at 1.
  now rewrite H.
Qed.

Lemma tryListener_throws (e : Error) (st st1 : Store) :
  quiet this ->
  Listener.call (Robot.emit this) l m
                (Robot.listener (Robot.middleware this)) st
  = (Throw e, st1) ->
  Robot.tryListener this m l any st
  = (Normal (false, any),
     push (emit_events this e (Some (Response.mk (Some m) (Some [])))) st1).
Proof.
  intros Hq H. unfold Robot.tryListener, bind at 1, try_catch, bind at 1.
  rewrite H. unfold bind at 1. now rewrite emit_quiet.
Qed.

End Attempts.

Lemma detectSeries_step (this : Robot.t) (m : Message.t) (l : Listener.t)
  (ls : list Listener.t) (any truth any' : bool) (st st1 : Store) :
  Robot.tryListener this m l any st = (Normal (truth, any'), st1) ->
  Async.detectSeries (l :: ls) (Robot.tryListener this m) any st
  = if truth then (Normal (Some l, any'), st1)
    else Async.detectSeries ls (Robot.tryListener this m) any' st1.
Proof.
  intros H. cbn [Async.detectSeries]. unfold bind at 1. rewrite H.
  now destruct truth.
Qed.

Lemma detectSeries_app (this : Robot.t) (m : Message.t)
  (ls1 ls2 : list Listener.t) :
  forall (any any1 : bool) (st st1 : Store),
    Async.detectSeries ls1 (Robot.tryListener this m) any st
    = (Normal (None, any1), st1) ->
    Async.detectSeries (ls1 ++ ls2) (Robot.tryListener this m) any st
    = Async.detectSeries ls2 (Robot.tryListener this m) any1 st1.
Proof.
  induction ls1 as [|l ls1 IH]; intros any any1 st st1 H.
  - cbn in H. injection H as <- <-. reflexivity.
  - cbn [app Async.detectSeries] in *. unfold bind at 1 in H.
    unfold bind at 1.
    destruct (Robot.tryListener this m l any st) as [[[truth any']|e|] st2];
      try discriminate H.
    destruct truth; [discriminate H|]. now apply IH.
Qed.

Lemma emitted_emit_events (this : Robot.t) (e : Error)
  (res : option Response.t) :
  emitted (emit_events this e res) = [("error", e, res)]
  /\ handled (emit_events this e res)
     = map eh_id (Robot.errorHandlers this)
  /\ callbacks (emit_events this e res) = []
  /\ attempts (emit_events this e res) = [].
Proof.
  unfold emit_events, report_events. cbn.
  induction (Robot.errorHandlers this) as [|h hs IH]; cbn; [auto|].
  destruct IH as (-> & -> & -> & ->). auto.
Qed.

(** [processListeners], once the result of its search is known. *)
Lemma processListeners_eval
  (receive : Robot.t -> Message.t -> option DoneFn -> M unit)
  (this : Robot.t) (context : Context) (m : Message.t)
  (done : option DoneFn) (found : option Listener.t) (any : bool)
  (st st1 : Store) :
  Response.message (ctx_response context) = Some m ->
  Robot.searchListeners this m st = (Normal (found, any), st1) ->
  Robot.processListeners receive this context done st
  = if negb (Message.isCatchAll m) && negb any
    then receive this (Message.CatchAllMessage (fresh st1 m) m) done
           (mkStore
              (trace st1
               ++ [EvLog "debug"
                         "No listeners executed; falling back to catch-all"])
              (finished st1) (S (fresh st1 m)))
    else match done with
         | Some d => call_done d
         | None => ret tt
         end st1.
Proof.
  intros Hm E. unfold Robot.processListeners, Robot.context_message.
  rewrite Hm. unfold bind at 1, ret. unfold bind at 1. rewrite E.
  destruct (negb (Message.isCatchAll m) && negb any); reflexivity.
Qed.

(* ------------------------------------------------------------------ *)
(** * Listener helpers *)
(* ------------------------------------------------------------------ *)

(** C2: in the complete class the listener that [leave] registers
    matches exactly the Leave messages and the one that [topic] registers
    exactly the Topic messages.  In [src/robot.js] both helpers hand
    [listen] the test [msg instanceof EnterMessage], which accepts the
    Enter messages and neither a Leave nor a Topic message, and [listen]
    itself raises a [TypeError], [Listener] being no constructor there:
    neither helper registers a listener. *)
Theorem leave_topic_matchers (this : Robot.t)
  (options : list (string * string)) (callback : Callback) :
  (exists l,
      Robot.listeners (Robot.leave this options callback)
      = Robot.listeners this ++ [l]
      /\ Listener.callback l = callback
      /\ forall m,
           Listener.matcher l m
           = Returns (if Message.isLeave m then Some [] else None))
  /\ (exists l,
         Robot.listeners (Robot.topic this options callback)
         = Robot.listeners this ++ [l]
         /\ Listener.callback l = callback
         /\ forall m,
              Listener.matcher l m
              = Returns (if Message.isTopic m then Some [] else None))
  /\ ((forall m,
         SrcRobot.leave_matcher m
         = Returns (if Message.isEnter m then Some [] else None))
      /\ (forall ref user,
            SrcRobot.leave_matcher (Message.LeaveMessage ref user)
            = Returns None
            /\ SrcRobot.leave_matcher (Message.EnterMessage ref user)
               = Returns (Some []))
      /\ SrcRobot.leave this options callback
         = Throws (TypeError "Listener is not a constructor"))
  /\ ((forall m,
         SrcRobot.topic_matcher m
         = Returns (if Message.isEnter m then Some [] else None))
      /\ (forall ref user text,
            SrcRobot.topic_matcher (Message.TopicMessage ref user text)
            = Returns None
            /\ SrcRobot.topic_matcher (Message.EnterMessage ref user)
               = Returns (Some []))
      /\ SrcRobot.topic this options callback
         = Throws (TypeError "Listener is not a constructor")).
Proof.
  split; [|split; [|split]].
  - eexists; (split; [reflexivity|]); repeat split.
  - eexists; (split; [reflexivity|]); repeat split.
  - repeat split.
  - repeat split.
Qed.

(** C9: the listener that [catchAll] registers matches exactly the
    CatchAll messages, and its callback, given a response whose message
    is a CatchAll, calls the user's callback with the same response
    whose message is the wrapped message; the user's callback is the
    only one called and it never sees the wrapper.  The form without
    options registers the same listener.  Dispatched through [receive],
    a message that no listener handles reaches the user's callback as
    itself. *)
Theorem catchAll_hands_over_inner (this : Robot.t)
  (options : list (string * string)) (callback : Callback) :
  (exists l,
      Robot.listeners (Robot.catchAll this (Robot.Options options)
                                      (Some callback))
      = Robot.listeners this ++ [l]
      /\ (forall m,
            Listener.matcher l m
            = Returns (if Message.isCatchAll m then Some [] else None))
      /\ (forall ref inner groups st,
            call_callback (Listener.callback l)
              (Response.mk (Some (Message.CatchAllMessage ref inner)) groups)
              st
            = call_callback callback (Response.mk (Some inner) groups) st)
      /\ (forall emit ref inner id body st,
            callback = Plugin id body ->
            exists c st',
              Listener.call emit l (Message.CatchAllMessage ref inner) [] st
              = (c, st')
              /\ trace st'
                 = trace st
                   ++ [EvMatch (Listener.lid l)
                               (Message.CatchAllMessage ref inner);
                       EvCallback id (Response.mk (Some inner) (Some []))]))
  /\ Robot.catchAll this (Robot.Function callback) None
     = Robot.catchAll this (Robot.Options []) (Some callback)
  /\ (forall m id body cb st,
        Message.isCatchAll m = false ->
        let robot :=
          Robot.catchAll (Robot.constructor None None)
            (Robot.Function (Plugin id body)) None in
        exists c st' evs,
          Robot.receive 2 robot m cb st = (c, st')
          /\ trace st' = trace st ++ evs
          /\ callbacks evs = [(id, Response.mk (Some m) (Some []))]).
Proof.
  split; [|split].
  - eexists. split; [reflexivity|]. split; [reflexivity|].
    split; [reflexivity|].
    intros emit ref inner id body st ->.
    unfold Listener.call. cbn. unfold Response.set_message. cbn.
    unfold run_effect, bind. cbn.
    destruct (eff_finish (body _)), (eff_raise (body _)); cbn;
      eexists _, _; (split; [reflexivity|]); cbn;
      now rewrite <- ?app_assoc.
  - reflexivity.
  - intros m id body cb st Hc robot.
    assert (Hmw : Robot.receive_ (Robot.middleware robot) = [])
      by reflexivity.
    set (l := Listener.mk 0
                (fun msg => Robot.bool_value (Message.isCatchAll msg))
                [] (CatchAllClosure (Plugin id body))).
    assert (Hl : Robot.listeners robot = [l]) by reflexivity.
    (* first pass: the listener does not match *)
    assert (Hfirst :
              forall s, exists found,
                Robot.searchListeners robot m s
                = (Normal (found, false), push [EvMatch 0 m] s)).
    { intros s. unfold Robot.searchListeners. rewrite Hl.
      assert (Hno : Listener.matcher l m = Returns None)
        by (cbn; now rewrite Hc).
      pose proof (@Listener_call_no_match (Robot.emit robot) l m
                    (Robot.listener (Robot.middleware robot)) s Hno)
        as Hcall.
      pose proof (@tryListener_returns robot m l false _ _ _ Hcall) as Htry.
      rewrite (@detectSeries_step robot m l [] _ _ _ _ _ Htry).
      match goal with
      | |- context [if ?b then _ else _] => destruct b
      end; eexists; reflexivity. }
    (* second pass: the wrapped message reaches the callback *)
    assert (Hsecond :
              forall r s,
                exists c st' evs,
                  Robot.receive 1 robot (Message.CatchAllMessage r m) cb s
                  = (c, st')
                  /\ trace st' = trace s ++ evs
                  /\ callbacks evs = [(id, Response.mk (Some m) (Some []))]).
    { intros r s.
      set (W := Message.CatchAllMessage r m).
      set (res := Response.mk (Some m) (Some [])).
      assert (Hq : quiet robot) by (intros h err0 res0 []).
      rewrite (receive_no_middleware _ _ _ _ _ Hmw).
      assert (Hcall :
                Listener.call (Robot.emit robot) l W
                  (Robot.listener (Robot.middleware robot))
                  (push [EvReceive W] s)
                = (match eff_raise (body res) with
                   | Some e => Throw e
                   | None => Normal true
                   end,
                   mkStore
                     (trace s ++ [EvReceive W; EvMatch 0 W; EvCallback id res])
                     (if eff_finish (body res)
                      then Message.ref m :: finished s else finished s)
                     (next_ref s))).
      { unfold Listener.call. cbn. unfold Response.set_message. cbn.
        unfold run_effect, bind, ret, record. cbn. subst res.
        destruct (body (Response.mk (Some m) (Some []))) as [[|] [e|]];
          cbn; rewrite <- ?app_assoc; reflexivity. }
      assert (Hsearch :
                exists found any evs0 fin,
                  Robot.searchListeners robot W (push [EvReceive W] s)
                  = (Normal (found, any),
                     mkStore
                       (trace s
                        ++ [EvReceive W; EvMatch 0 W; EvCallback id res]
                        ++ evs0) fin (next_ref s))
                  /\ callbacks evs0 = []).
      { unfold Robot.searchListeners. rewrite Hl.
        destruct (eff_raise (body res)) as [e|].
        - pose proof (@tryListener_throws robot W l false e _ _ Hq Hcall)
            as Htry.
          rewrite (@detectSeries_step robot W l [] _ _ _ _ _ Htry).
          cbn [Async.detectSeries]. unfold ret, push. cbn [trace finished
                                                            next_ref].
          eexists _, _, _, _. rewrite <- app_assoc.
          split; [reflexivity|].
          apply (emitted_emit_events robot e
                   (Some (Response.mk (Some W) (Some [])))).
        - pose proof (@tryListener_returns robot W l false _ _ _ Hcall)
            as Htry.
          rewrite (@detectSeries_step robot W l [] _ _ _ _ _ Htry).
          match goal with
          | |- context [if ?b then _ else _] => destruct b
          end; cbn [Async.detectSeries]; unfold ret;
            eexists _, _, [], _; rewrite app_nil_r;
            (split; [reflexivity|]); reflexivity. }
      destruct Hsearch as (found & any & evs0 & fin & E & Hcb0).
      rewrite (@processListeners_eval (Robot.receive 0) robot
                 (mkContext None (Response.mk (Some W) None)) W cb found
                 any _ _ eq_refl E).
      change (negb (Message.isCatchAll W)) with false. cbn [andb].
      destruct cb as [[tag]|].
      - eexists _, _, ([EvReceive W; EvMatch 0 W; EvCallback id res]
                       ++ evs0 ++ [EvSettled tag]).
        split; [reflexivity|].
        split; [cbn; now rewrite <- !app_assoc|].
        rewrite !callbacks_app, Hcb0. reflexivity.
      - eexists _, _, ([EvReceive W; EvMatch 0 W; EvCallback id res]
                       ++ evs0).
        split; [reflexivity|]. split; [reflexivity|].
        rewrite !callbacks_app, Hcb0. reflexivity. }
    rewrite (receive_no_middleware _ _ _ _ _ Hmw).
    destruct (Hfirst (push [EvReceive m] st)) as [found E].
    rewrite (@processListeners_eval (Robot.receive 1) robot
               (mkContext None (Response.mk (Some m) None)) m cb found
               false _ _ eq_refl E).
    rewrite Hc. cbn [negb andb].
    match goal with
    | |- context [Robot.receive 1 robot (Message.CatchAllMessage ?r m) cb ?s]
      => destruct (Hsecond r s) as (c & st' & evs & E' & Ht & Hcb)
    end.
    exists c, st', (EvReceive m :: EvMatch 0 m
                    :: EvLog "debug"
                         "No listeners executed; falling back to catch-all"
                    :: evs).
    split; [exact E'|]. split; [|exact Hcb].
    rewrite Ht. cbn. now rewrite <- !app_assoc.
Qed.

Lemma catchAll_hands_over_inner_witness :
  let m := Message.TextMessage 0 "user" "hello" in
  exists c st' evs,
    Robot.receive 2
      (Robot.catchAll (Robot.constructor None None)
         (Robot.Function (Plugin 3 (fun _ => mkEffect false None))) None)
      m None empty_store
    = (c, st')
    /\ trace st' = trace empty_store ++ evs
    /\ callbacks evs = [(3, Response.mk (Some m) (Some []))].
Proof.
  intros m.
  destruct (catchAll_hands_over_inner (Robot.constructor None None) []
              (Plugin 3 (fun _ => mkEffect false None)))
    as (_ & _ & H).
  exact (H m 3 (fun _ => mkEffect false None) None empty_store eq_refl).
Defined.


(* ------------------------------------------------------------------ *)
(** * Help texts *)
(* ------------------------------------------------------------------ *)

Section HelpFacts.

Import Help.

Lemma step_adds (st1 st2 : State) (line : string) :
  same_section st1 st2 ->
  same_section (step st1 line) (step st2 line)
  /\ exists added,
       commands (step st1 line) = commands st1 ++ added
       /\ commands (step st2 line) = commands st2 ++ added.
Proof.
  intros Hs. pose proof Hs as [Hc Hd]. unfold step.
  destruct (Js.length (cleaned line) =? 0);
    [split; [exact Hs|exists []; now rewrite !app_nil_r]|].
  destruct (String.eqb (JsString.toLowerCase (cleaned line)) "none");
    [split; [exact Hs|exists []; now rewrite !app_nil_r]|].
  destruct (is_section (section_of (cleaned line))).
  - split; [split; cbn; congruence|].
    exists []. cbn. now rewrite !app_nil_r.
  - rewrite <- Hc. destruct (currentSection st1) as [section|].
    + split; [split; cbn; congruence|]. cbn.
      destruct (String.eqb section "commands").
      * now exists [JsString.trim (cleaned line)].
      * exists []. now rewrite !app_nil_r.
    + split; [exact Hs|exists []; now rewrite !app_nil_r].
Qed.

Lemma loop_adds (lines : list string) :
  forall st1 st2,
    same_section st1 st2 ->
    exists added,
      commands (loop lines st1) = commands st1 ++ added
      /\ commands (loop lines st2) = commands st2 ++ added.
Proof.
  induction lines as [|line rest IH]; intros st1 st2 Hs; cbn [loop].
  - exists []. now rewrite !app_nil_r.
  - destruct (is_comment line); [|exists []; now rewrite !app_nil_r].
    destruct (step_adds line Hs) as [Hs' (a & H1 & H2)].
    destruct (IH _ _ Hs') as (b & H3 & H4).
    exists (a ++ b). rewrite H3, H4, H1, H2. now rewrite !app_assoc.
Qed.

Lemma loop_app_stop (l1 l2 : list string) :
  match l2 with
  | [] => True
  | line :: _ => is_comment line = false
  end ->
  forall st, loop (l1 ++ l2) st = loop l1 st.
Proof.
  intros H. induction l1 as [|line rest IH]; intros st; cbn [app loop].
  - destruct l2 as [|l l2]; [reflexivity|]. cbn [loop]. now rewrite H.
  - destruct (is_comment line); [apply IH|reflexivity].
Qed.

(** The first line of a text is a comment only if the text starts like
    one. *)
Lemma first_line_comment (tail : string) :
  is_comment tail = false ->
  match Js.split (ascii_of_nat 10) tail with
  | [] => True
  | line :: _ => is_comment line = false
  end.
Proof.
  destruct tail as [|c [|d t]]; intros H.
  - reflexivity.
  - cbn [Js.split]. destruct (Ascii.eqb c (ascii_of_nat 10)); [reflexivity|].
    exact H.
  - cbn [Js.split].
    destruct (Ascii.eqb c (ascii_of_nat 10)) eqn:Ec; [reflexivity|].
    destruct (Ascii.eqb d (ascii_of_nat 10)) eqn:Ed.
    + unfold is_comment in *. cbn [Js.char0] in *.
      apply orb_false_iff in H as [H1 _]. rewrite H1.
      unfold JsString.substr_0_2. cbn [String.substring String.eqb orb].
      now destruct (Ascii.eqb c "/").
    + pose proof (split_nonempty (ascii_of_nat 10) t) as Hne.
      destruct (Js.split (ascii_of_nat 10) t) as [|w ws]; [contradiction|].
      unfold is_comment, JsString.substr_0_2 in *.
      cbn [Js.char0 String.substring] in *.
      now destruct t, w.
Qed.

(** ** [trim] *)

Lemma trimStart_clean (s : string) :
  starts_blank s = false -> JsString.trimStart s = s.
Proof. destruct s as [|c s]; cbn; [reflexivity|]. now intros ->. Qed.

Lemma trimStart_starts (s : string) :
  starts_blank (JsString.trimStart s) = false.
Proof.
  induction s as [|c s IH]; cbn; [reflexivity|].
  destruct (Js.is_space c) eqn:E; [exact IH|]. cbn. exact E.
Qed.

Lemma trimEnd_starts (s : string) :
  starts_blank s = false -> starts_blank (JsString.trimEnd s) = false.
Proof.
  destruct s as [|c s]; cbn; [reflexivity|]. intros E.
  destruct (JsString.trimEnd s); [rewrite E|]; cbn; exact E.
Qed.

Lemma trimEnd_idem (s : string) :
  JsString.trimEnd (JsString.trimEnd s) = JsString.trimEnd s.
Proof.
  induction s as [|c s IH]; cbn; [reflexivity|].
  destruct (JsString.trimEnd s) as [|d t] eqn:E.
  - destruct (Js.is_space c) eqn:Ec; cbn; [reflexivity|now rewrite Ec].
  - cbn [JsString.trimEnd]. cbn [JsString.trimEnd] in IH.
    destruct (JsString.trimEnd t) as [|d' t'] eqn:E'.
    + destruct (Js.is_space d) eqn:Ed; [discriminate IH|].
      now rewrite IH.
    + now rewrite IH.
Qed.

Lemma trim_idem (s : string) :
  JsString.trim (JsString.trim s) = JsString.trim s.
Proof.
  unfold JsString.trim.
  rewrite (trimStart_clean (JsString.trimEnd (JsString.trimStart s)))
    by apply trimEnd_starts, trimStart_starts.
  apply trimEnd_idem.
Qed.

Lemma step_clean (st : State) (line c : string) :
  In c (commands (step st line)) ->
  In c (commands st) \/ command_line c.
Proof.
  unfold step.
  destruct (Js.length (cleaned line) =? 0) eqn:E0; [now left|].
  destruct (String.eqb (JsString.toLowerCase (cleaned line)) "none")
    eqn:En; [now left|].
  destruct (is_section (section_of (cleaned line))) eqn:Es; [now left|].
  destruct (currentSection st) as [section|]; [|now left]. cbn.
  destruct (String.eqb section "commands"); [|now left].
  intros Hin. apply in_app_or in Hin as [Hin|[<-|[]]]; [now left|].
  right. unfold cleaned in *. rewrite trim_idem.
  repeat split.
  - apply trim_idem.
  - intros Hz. rewrite Hz in E0. discriminate E0.
  - now apply String.eqb_neq.
  - exact Es.
Qed.

Lemma loop_clean (lines : list string) (c : string) :
  forall st,
    In c (commands (loop lines st)) ->
    In c (commands st) \/ command_line c.
Proof.
  induction lines as [|line rest IH]; intros st Hin; cbn [loop] in Hin.
  - now left.
  - destruct (is_comment line); [|now left].
    destruct (IH _ Hin) as [H|H]; [|now right].
    now apply step_clean in H.
Qed.

Lemma loop_no_commands_section (lines : list string) :
  (forall line, In line lines -> section_of (cleaned line) <> "commands") ->
  forall st,
    currentSection st <> Some "commands" ->
    commands (loop lines st) = commands st.
Proof.
  induction lines as [|line rest IH]; intros Hl st Hc; cbn [loop].
  - reflexivity.
  - destruct (is_comment line); [|reflexivity].
    assert (Hstep : commands (step st line) = commands st
                    /\ currentSection (step st line) <> Some "commands").
    { unfold step.
      destruct (Js.length (cleaned line) =? 0); [now split|].
      destruct (String.eqb (JsString.toLowerCase (cleaned line)) "none");
        [now split|].
      destruct (is_section (section_of (cleaned line))).
      - split; [reflexivity|]. cbn. intros [= H].
        apply (Hl line (or_introl eq_refl) H).
      - destruct (currentSection st) as [section|] eqn:Ecur;
          [|split; [reflexivity|now rewrite Ecur]].
        cbn.
        destruct (String.eqb_spec section "commands") as [->|Hn];
          [now contradiction Hc|now split]. }
    destruct Hstep as [H1 H2].
    rewrite IH; [exact H1| |exact H2].
    intros l Hin. apply Hl. now right.
Qed.

End HelpFacts.

(** X1: [parseHelp] only appends to [this.commands]: the commands that
    were there stay, in their order, and what is appended depends on the
    file alone. *)
Theorem parseHelp_appends (path body : string) :
  exists added,
    forall commands st,
      Help.parseHelp commands path (Returns body) st
      = (Normal (commands ++ added),
         push [EvLog "debug" ("Parsing help for " ++ path)%string] st).
Proof.
  destruct (loop_adds (Js.split (ascii_of_nat 10) body)
              (st1 := Help.mkState None [] [])
              (st2 := Help.mkState None [] []))
    as (added & H & _); [now split|].
  exists added. intros commands st.
  destruct (loop_adds (Js.split (ascii_of_nat 10) body)
              (st1 := Help.mkState None [] [])
              (st2 := Help.mkState None [] commands))
    as (added' & H1 & H2); [now split|].
  cbn in H, H1, H2. rewrite H in H1. subst added'.
  unfold Help.parseHelp. cbn. now rewrite H2.
Qed.

(** X2: [parseHelp] reads the leading comment lines only: whatever
    follows the first line that starts neither with [#] nor with [//]
    (an empty line too) has no effect. *)
Theorem parseHelp_header_only (commands : list string)
  (path header tail : string) (st : Store) :
  Help.is_comment tail = false ->
  Help.parseHelp commands path
    (Returns (header ++ String (ascii_of_nat 10) tail)%string) st
  = Help.parseHelp commands path (Returns header) st.
Proof.
  intros H. unfold Help.parseHelp. cbn.
  rewrite split_app, loop_app_stop; [reflexivity|].
  now apply first_line_comment.
Qed.

Lemma parseHelp_header_only_witness :
  Help.parseHelp [] "x.js"
    (Returns ("// Commands:" ++ String (ascii_of_nat 10)
              "var x = '// Commands:';")%string) empty_store
  = Help.parseHelp [] "x.js" (Returns "// Commands:") empty_store.
Proof.
  apply (@parseHelp_header_only [] "x.js" "// Commands:"
           "var x = '// Commands:';" empty_store).
  reflexivity.
Defined.

(** X3: every command that [parseHelp] adds is trimmed, is not empty, is
    not the word "none" in any case, and is not the name of a
    documentation section. *)
Theorem parseHelp_adds_clean_lines (commands : list string)
  (path body : string) (st : Store) (c : string) :
  forall result st',
    Help.parseHelp commands path (Returns body) st = (Normal result, st') ->
    In c result ->
    In c commands
    \/ (JsString.trim c = c
        /\ c <> EmptyString
        /\ JsString.toLowerCase c <> "none"
        /\ Help.is_section (Help.section_of c) = false).
Proof.
  intros result st' E Hin. unfold Help.parseHelp in E. cbn in E.
  injection E as <- _.
  exact (loop_clean _ c _ Hin).
Qed.

Lemma parseHelp_adds_clean_lines_witness :
  In "webby ping" []
  \/ (JsString.trim "webby ping" = "webby ping"
      /\ "webby ping" <> EmptyString
      /\ JsString.toLowerCase "webby ping" <> "none"
      /\ Help.is_section (Help.section_of "webby ping") = false).
Proof.
  apply (@parseHelp_adds_clean_lines [] "x.js"
           ("# Commands:" ++ String (ascii_of_nat 10) "#   webby ping  ")%string
           empty_store "webby ping" ["webby ping"]
           (push [EvLog "debug" "Parsing help for x.js"] empty_store));
    [reflexivity|now left].
Defined.

(** X4: without a line that names the section "commands", [parseHelp]
    adds no command. *)
Theorem parseHelp_needs_commands_section (commands : list string)
  (path body : string) (st : Store) :
  (forall line,
      In line (Js.split (ascii_of_nat 10) body) ->
      Help.section_of (Help.cleaned line) <> "commands") ->
  Help.parseHelp commands path (Returns body) st
  = (Normal commands,
     push [EvLog "debug" ("Parsing help for " ++ path)%string] st).
Proof.
  intros H. unfold Help.parseHelp. cbn.
  rewrite loop_no_commands_section; [reflexivity|exact H|discriminate].
Qed.

Lemma parseHelp_needs_commands_section_witness :
  Help.parseHelp ["old"] "x.js"
    (Returns ("// Description:" ++ String (ascii_of_nat 10)
              "//   webby ping")%string)
    empty_store
  = (Normal ["old"], push [EvLog "debug" "Parsing help for x.js"] empty_store).
Proof.
  apply (@parseHelp_needs_commands_section ["old"] "x.js"
           ("// Description:" ++ String (ascii_of_nat 10)
            "//   webby ping")%string
           empty_store).
  intros line [<-|[<-|[]]]; vm_compute; discriminate.
Defined.

(** ** [helpCommands] *)

Lemma insert_perm (x : string) (a : list string) :
  Permutation.Permutation (x :: a) (JsString.insert x a).
Proof.
  induction a as [|y rest IH]; cbn; [apply Permutation.Permutation_refl|].
  destruct (String.leb x y); [apply Permutation.Permutation_refl|].
  eapply Permutation.perm_trans; [apply Permutation.perm_swap|].
  now apply Permutation.perm_skip.
Qed.

Lemma insert_sorted (x : string) (a : list string) :
  Sorted.Sorted ascending a -> Sorted.Sorted ascending (JsString.insert x a).
Proof.
  induction 1 as [|y rest Hs IH Hd]; cbn.
  - repeat constructor.
  - destruct (String.leb x y) eqn:E.
    + constructor; [now constructor|]. now constructor.
    + constructor; [exact IH|].
      assert (Hyx : ascending y x).
      { destruct (String.leb_total x y) as [H|H]; [congruence|exact H]. }
      destruct Hd as [|z rest' Hz]; cbn.
      * now constructor.
      * destruct (String.leb x z); now constructor.
Qed.

Lemma sort_sorted_id (a : list string) :
  Sorted.Sorted ascending a -> JsString.sort a = a.
Proof.
  induction 1 as [|y rest Hs IH Hd]; cbn; [reflexivity|].
  rewrite IH. destruct Hd as [|z rest' Hz]; cbn; [reflexivity|].
  unfold ascending in Hz. now rewrite Hz.
Qed.

(** X5: [helpCommands] returns the commands it holds, each as often as
    it was added, in ascending order; sorting again changes nothing. *)
Theorem helpCommands_sorted (commands : list string) :
  Sorted.Sorted ascending (Help.helpCommands commands)
  /\ Permutation.Permutation commands (Help.helpCommands commands)
  /\ Help.helpCommands (Help.helpCommands commands)
     = Help.helpCommands commands.
Proof.
  unfold Help.helpCommands.
  assert (Hs : Sorted.Sorted ascending (JsString.sort commands)).
  { induction commands as [|x rest IH]; cbn;
      [constructor|now apply insert_sorted]. }
  split; [exact Hs|]. split; [|now apply sort_sorted_id].
  induction commands as [|x rest IH]; cbn; [constructor|].
  eapply Permutation.perm_trans; [|apply insert_perm].
  apply Permutation.perm_skip, IH.
  clear IH Hs. induction rest as [|y rest IH]; cbn;
    [constructor|now apply insert_sorted].
Qed.

(** * Objects and [extend] *)

Lemma get_set (o : Obj.t) (k k' : string) (v : JsValue) :
  Obj.get (Obj.set o k v) k'
  = if String.eqb k k' then Some v else Obj.get o k'.
Proof.
  induction o as [|[k0 w] rest IH]; cbn; [reflexivity|].
  destruct (String.eqb_spec k0 k) as [->|Hn]; cbn.
  - now destruct (String.eqb k k').
  - rewrite IH. destruct (String.eqb_spec k0 k') as [->|Hn'];
      [|reflexivity].
    destruct (String.eqb_spec k k'); [congruence|reflexivity].
Qed.

Lemma set_set (o : Obj.t) (k : string) (v w : JsValue) :
  Obj.set (Obj.set o k v) k w = Obj.set o k w.
Proof.
  induction o as [|[k0 u] rest IH]; cbn.
  - now rewrite String.eqb_refl.
  - destruct (String.eqb k0 k) eqn:E; cbn; rewrite E; [reflexivity|].
    now rewrite IH.
Qed.

Lemma fold_set_get (f : string -> JsValue) (ks : list string) (k : string) :
  forall obj,
    Obj.get (fold_left (fun o key => Obj.set o key (f key)) ks obj) k
    = if existsb (String.eqb k) ks then Some (f k) else Obj.get obj k.
Proof.
  induction ks as [|a ks IH]; intros obj; cbn [fold_left existsb];
    [reflexivity|].
  rewrite IH, get_set.
  destruct (existsb (String.eqb k) ks); [now rewrite orb_true_r|].
  rewrite orb_false_r, (String.eqb_sym k a).
  now destruct (String.eqb_spec a k) as [->|].
Qed.

Lemma existsb_find {A} (f : A -> string) (k : string) (l : list A) :
  existsb (String.eqb k) (map f l)
  = match find (fun i => String.eqb (f i) k) l with
    | Some _ => true
    | None => false
    end.
Proof.
  induction l as [|a l IH]; cbn; [reflexivity|].
  rewrite (String.eqb_sym k (f a)).
  now destruct (String.eqb (f a) k).
Qed.

Lemma keys_own (v : JsValue) (k : string) :
  existsb (String.eqb k) (Obj.keys v)
  = match Obj.own v k with Some _ => true | None => false end.
Proof.
  destruct v as [| | | |s|props]; cbn; try reflexivity.
  - rewrite existsb_find.
    now destruct (find (fun i => String.eqb (JsString.of_index i) k)
                       (seq 0 (String.length s))).
  - induction props as [|[k0 w] rest IH]; cbn; [reflexivity|].
    rewrite (String.eqb_sym k k0).
    now destruct (String.eqb k0 k).
Qed.

Lemma copy_get (obj : Obj.t) (source : string) (k : string) :
  Obj.get (Obj.copy obj source) k
  = match Obj.own (JsString source) k with
    | Some v => Some v
    | None => Obj.get obj k
    end.
Proof.
  unfold Obj.copy. rewrite fold_set_get, keys_own. unfold Obj.prop.
  now destruct (Obj.own (JsString source) k).
Qed.

(** ** [extend] of the complete class *)

Lemma assign_get (obj : Obj.Target) (k key : string) (v : JsValue) :
  k <> key \/ key <> "__proto__" ->
  Obj.get (Obj.own_props (Obj.assign obj k v)) key
  = if String.eqb k key then Some v else Obj.get (Obj.own_props obj) key.
Proof.
  intros H. unfold Obj.assign.
  destruct (String.eqb_spec k "__proto__") as [->|Hk];
    [|cbn; apply get_set].
  assert (Hne : String.eqb "__proto__" key = false).
  { apply String.eqb_neq. destruct H as [H|H]; congruence. }
  assert (Hv : Obj.get (Obj.own_props (Obj.set_prototype obj v)) key
               = Obj.get (Obj.own_props obj) key)
    by (destruct v; reflexivity).
  rewrite Hne.
  destruct (Obj.get (Obj.own_props obj) "__proto__");
    [cbn; now rewrite get_set, Hne|].
  destruct (Obj.proto obj) as [| |props];
    [exact Hv|cbn; now rewrite get_set, Hne|].
  destruct (Obj.get props "__proto__");
    [cbn; now rewrite get_set, Hne|exact Hv].
Qed.

Lemma assign_proto (obj : Obj.Target) (k : string) (v : JsValue) :
  k <> "__proto__" -> Obj.proto (Obj.assign obj k v) = Obj.proto obj.
Proof.
  intros H. unfold Obj.assign.
  apply String.eqb_neq in H. now rewrite H.
Qed.

Lemma hasOwnProperty_own (source : JsValue) (k : string) :
  Obj.hasOwnProperty "source" source k = Returns true ->
  Obj.own source k <> None.
Proof.
  destruct source as [| | | |s|props]; cbn; try discriminate.
  - destruct (find _ _); [discriminate|discriminate].
  - destruct (Obj.get props "hasOwnProperty"); [discriminate|].
    destruct (Obj.get props k); discriminate.
Qed.

(** A key that the source does not own is not written, however the
    loop ends. *)
Lemma copy_keys_other (source : JsValue) (key : string) :
  Obj.own source key = None ->
  forall ks obj,
    Obj.get (Obj.own_props (snd (Obj.copy_keys source ks obj))) key
    = Obj.get (Obj.own_props obj) key
    /\ (key = "__proto__" ->
        Obj.proto (snd (Obj.copy_keys source ks obj)) = Obj.proto obj).
Proof.
  intros Hown. induction ks as [|k ks IH]; intros obj; cbn [Obj.copy_keys];
    [now split|].
  destruct (Obj.hasOwnProperty "source" source k) as [[|]|e] eqn:E;
    [|apply IH|now split].
  assert (Hk : k <> key).
  { intros ->. now apply hasOwnProperty_own in E. }
  destruct (IH (Obj.assign obj k (Obj.prop source k))) as [IH1 IH2].
  split.
  - rewrite IH1, assign_get by now left.
    apply String.eqb_neq in Hk. now rewrite Hk.
  - intros ->. rewrite IH2 by reflexivity. now apply assign_proto.
Qed.

Lemma extend_other (sources : list JsValue) (key : string) :
  (forall s, In s sources -> Obj.own s key = None) ->
  forall obj,
    Obj.get (Obj.own_props (snd (RobotUtil.extend obj sources))) key
    = Obj.get (Obj.own_props obj) key
    /\ (key = "__proto__" ->
        Obj.proto (snd (RobotUtil.extend obj sources)) = Obj.proto obj).
Proof.
  induction sources as [|s rest IH]; intros H obj; cbn [RobotUtil.extend];
    [now split|].
  pose proof (copy_keys_other s key (H s (or_introl eq_refl))
                (Obj.keys s) obj) as [H1 H2].
  destruct (Obj.copy_keys s (Obj.keys s) obj) as [[e|] obj'];
    cbn [snd] in *; [now split|].
  destruct (IH (fun s' Hin => H s' (or_intror Hin)) obj') as [IH1 IH2].
  split; [now rewrite IH1|].
  intros Hk. now rewrite IH2, H2.
Qed.

(** A source that owns no [hasOwnProperty] is copied key by key. *)
Lemma copy_keys_plain (source : JsValue) :
  Obj.own source "hasOwnProperty" = None ->
  forall ks obj,
    incl ks (Obj.keys source) ->
    Obj.copy_keys source ks obj
    = (None,
       fold_left (fun o k => Obj.assign o k (Obj.prop source k)) ks obj).
Proof.
  intros Hh. induction ks as [|k ks IH]; intros obj Hin; [reflexivity|].
  cbn [Obj.copy_keys fold_left].
  assert (Hk : existsb (String.eqb k) (Obj.keys source) = true).
  { apply existsb_exists. exists k. split; [|apply String.eqb_refl].
    apply Hin. now left. }
  rewrite keys_own in Hk.
  assert (E : Obj.hasOwnProperty "source" source k = Returns true).
  { destruct source as [| | | |s|props]; try discriminate Hk.
    - clear Hh. cbn in Hk |- *.
      destruct (find _ _); [reflexivity|discriminate Hk].
    - cbn in Hh, Hk |- *. rewrite Hh.
      destruct (Obj.get props k); [reflexivity|discriminate Hk]. }
  rewrite E. apply IH. intros x Hx. apply Hin. now right.
Qed.

Lemma fold_assign_get (f : string -> JsValue) (ks : list string)
  (key : string) :
  key <> "__proto__" ->
  forall obj,
    Obj.get (Obj.own_props
               (fold_left (fun o k => Obj.assign o k (f k)) ks obj)) key
    = if existsb (String.eqb key) ks then Some (f key)
      else Obj.get (Obj.own_props obj) key.
Proof.
  intros Hkey. induction ks as [|a ks IH]; intros obj;
    cbn [fold_left existsb]; [reflexivity|].
  rewrite IH, assign_get by now right.
  destruct (existsb (String.eqb key) ks); [now rewrite orb_true_r|].
  rewrite orb_false_r, (String.eqb_sym key a).
  now destruct (String.eqb_spec a key) as [->|].
Qed.

Lemma extend_plain (sources : list JsValue) (key : string) :
  key <> "__proto__" ->
  (forall s, In s sources -> Obj.own s "hasOwnProperty" = None) ->
  forall obj,
    exists obj',
      RobotUtil.extend obj sources = (None, obj')
      /\ Obj.get (Obj.own_props obj') key
         = fold_left (fun acc s => match Obj.own s key with
                                   | Some v => Some v
                                   | None => acc
                                   end)
                     sources (Obj.get (Obj.own_props obj) key).
Proof.
  intros Hkey. induction sources as [|s rest IH]; intros H obj;
    cbn [RobotUtil.extend fold_left]; [now exists obj|].
  rewrite (copy_keys_plain s (H s (or_introl eq_refl)) obj
             (incl_refl (Obj.keys s))).
  destruct (IH (fun s' Hin => H s' (or_intror Hin))
              (fold_left (fun o k => Obj.assign o k (Obj.prop s k))
                         (Obj.keys s) obj)) as [obj' [E G]].
  exists obj'. split; [exact E|]. rewrite G. f_equal.
  rewrite (fold_assign_get (Obj.prop s) (Obj.keys s) Hkey), keys_own.
  unfold Obj.prop. now destruct (Obj.own s key).
Qed.

Lemma fold_own_none (sources : list JsValue) (k : string) :
  (forall s, In s sources -> Obj.own s k = None) ->
  forall acc,
    fold_left (fun acc s => match Obj.own s k with
                            | Some v => Some v
                            | None => acc
                            end) sources acc = acc.
Proof.
  induction sources as [|s rest IH]; intros H acc; cbn [fold_left];
    [reflexivity|].
  rewrite (H s (or_introl eq_refl)). apply IH.
  intros s' Hin. apply H. now right.
Qed.

(** X6: when no source owns a property [hasOwnProperty],
    [extend(obj, ...sources)] of the complete class returns, and a key
    other than [__proto__] then holds, as an own property of [obj], the
    value of the last source that has it as an own property. *)
Theorem extend_last_source_wins (obj : Obj.Target)
  (before after : list JsValue) (source : JsValue) (key : string)
  (v : JsValue) :
  key <> "__proto__" ->
  (forall s, In s (before ++ source :: after) ->
             Obj.own s "hasOwnProperty" = None) ->
  Obj.own source key = Some v ->
  (forall s, In s after -> Obj.own s key = None) ->
  exists obj',
    RobotUtil.extend obj (before ++ source :: after) = (None, obj')
    /\ Obj.get (Obj.own_props obj') key = Some v.
Proof.
  intros Hkey Hplain Hv Hafter.
  destruct (extend_plain (before ++ source :: after) Hkey Hplain obj)
    as [obj' [E G]].
  exists obj'. split; [exact E|].
  rewrite G, fold_left_app. cbn [fold_left]. rewrite Hv.
  now apply fold_own_none.
Qed.

Lemma extend_last_source_wins_witness :
  exists obj',
    RobotUtil.extend
      (Obj.mkTarget [("name", JsString "Webby")] Obj.ObjectPrototype)
      ([JsObject [("name", JsString "a")]]
       ++ JsObject [("name", JsString "b"); ("adapter", JsString "shell")]
       :: [JsUndefined; JsObject [("alias", JsString "w")]])
    = (None, obj')
    /\ Obj.get (Obj.own_props obj') "name" = Some (JsString "b").
Proof.
  apply (@extend_last_source_wins
           (Obj.mkTarget [("name", JsString "Webby")] Obj.ObjectPrototype)
           [JsObject [("name", JsString "a")]]
           [JsUndefined; JsObject [("alias", JsString "w")]]
           (JsObject [("name", JsString "b"); ("adapter", JsString "shell")])
           "name" (JsString "b")).
  - discriminate.
  - intros s [<-|[<-|[<-|[<-|[]]]]]; reflexivity.
  - reflexivity.
  - intros s [<-|[<-|[]]]; reflexivity.
Defined.

(** X7: [extend] of the complete class leaves a key alone that no
    source has, whether the call returns or throws: its value stays,
    and a key [obj] does not have stays absent; when that key is
    [__proto__], the prototype of [obj] stays too.  [undefined] and
    [null] among the sources have no keys. *)
Theorem extend_keeps_other_keys (obj : Obj.Target) (sources : list JsValue)
  (key : string) :
  (forall s, In s sources -> Obj.own s key = None) ->
  Obj.get (Obj.own_props (snd (RobotUtil.extend obj sources))) key
  = Obj.get (Obj.own_props obj) key
  /\ (key = "__proto__" ->
      Obj.proto (snd (RobotUtil.extend obj sources)) = Obj.proto obj).
Proof.
  intros H. now apply extend_other.
Qed.

Lemma extend_keeps_other_keys_witness :
  Obj.get
    (Obj.own_props
       (snd (RobotUtil.extend
               (Obj.mkTarget [("name", JsString "Webby")]
                             Obj.ObjectPrototype)
               [JsNull; JsObject [("alias", JsString "w")]; JsUndefined])))
    "name"
  = Obj.get
      (Obj.own_props
         (Obj.mkTarget [("name", JsString "Webby")] Obj.ObjectPrototype))
      "name"
  /\ ("name" = "__proto__" ->
      Obj.proto
        (snd (RobotUtil.extend
                (Obj.mkTarget [("name", JsString "Webby")]
                              Obj.ObjectPrototype)
                [JsNull; JsObject [("alias", JsString "w")]; JsUndefined]))
      = Obj.proto
          (Obj.mkTarget [("name", JsString "Webby")] Obj.ObjectPrototype)).
Proof.
  apply (@extend_keeps_other_keys
           (Obj.mkTarget [("name", JsString "Webby")] Obj.ObjectPrototype)
           [JsNull; JsObject [("alias", JsString "w")]; JsUndefined]
           "name").
  intros s [<-|[<-|[<-|[]]]]; reflexivity.
Defined.

(** X26: what [extend] of the complete class does with the two keys
    that are not plain data.  A source that owns a property
    [hasOwnProperty] makes the call throw at its first key, with what
    the earlier sources gave already written to [obj]; a source that
    owns a property [__proto__] holding an object hands [obj] that
    object as prototype and gives it no own property. *)
Theorem extend_special_keys :
  let obj := Obj.mkTarget [("name", JsString "Webby")] Obj.ObjectPrototype in
  RobotUtil.extend obj
    [JsObject [("alias", JsString "w")];
     JsObject [("hasOwnProperty", JsNumber 1); ("name", JsString "b")];
     JsObject [("adapter", JsString "shell")]]
  = (Some (TypeError "source.hasOwnProperty is not a function"),
     Obj.mkTarget [("name", JsString "Webby"); ("alias", JsString "w")]
                  Obj.ObjectPrototype)
  /\ RobotUtil.extend obj
       [JsObject [("__proto__", JsObject [("admin", JsBoolean true)]);
                  ("alias", JsString "w")]]
     = (None,
        Obj.mkTarget [("name", JsString "Webby"); ("alias", JsString "w")]
                     (Obj.ProtoObject [("admin", JsBoolean true)])).
Proof. split; reflexivity. Qed.

(** ** [extend] of [src/robot.js] *)

Lemma of_index_digit (i : nat) :
  starts_with_digit (JsString.of_index i) = true.
Proof.
  unfold JsString.of_index.
  now destruct (Nat.to_uint i).
Qed.

Lemma own_index_only (source key : string) :
  starts_with_digit key = false ->
  Obj.own (JsString source) key = None.
Proof.
  intros H. cbn.
  destruct (find (fun i => String.eqb (JsString.of_index i) key)
                 (seq 0 (String.length source))) as [i|] eqn:E;
    [|reflexivity].
  apply find_some in E as [_ E]. apply String.eqb_eq in E.
  rewrite <- E, of_index_digit in H. discriminate H.
Qed.

Lemma copy_index (i : nat) (obj : Obj.t) :
  i < 10 ->
  Obj.copy obj (JsString.of_index i)
  = Obj.set obj "0" (JsString (JsString.of_index i)).
Proof.
  intros H.
  do 10 (destruct i as [|i]; [reflexivity|]). lia.
Qed.

Lemma src_extend_fold (n : nat) :
  n <= 10 ->
  forall obj,
    fold_left Obj.copy (map JsString.of_index (seq 0 n)) obj
    = match n with
      | 0 => obj
      | S m => Obj.set obj "0" (JsString (JsString.of_index m))
      end.
Proof.
  induction n as [|n IH]; intros Hn obj; [reflexivity|].
  rewrite seq_S, map_app, fold_left_app, IH by lia. cbn [map fold_left].
  rewrite copy_index by (cbn; lia).
  destruct n; [reflexivity|apply set_set].
Qed.

(** X8: [extend] of [src/robot.js] iterates over the indices of
    [sources], not over the sources: no key that does not start with a
    digit is ever written, whatever the sources hold. *)
Theorem src_extend_copies_no_option (obj : Obj.t) (sources : list JsValue)
  (key : string) :
  starts_with_digit key = false ->
  Obj.get (SrcRobotUtil.extend obj sources) key = Obj.get obj key.
Proof.
  intros H. unfold SrcRobotUtil.extend.
  generalize (map JsString.of_index (seq 0 (List.length sources))).
  intros indices. revert obj.
  induction indices as [|source rest IH]; intros obj; cbn [fold_left];
    [reflexivity|].
  now rewrite IH, copy_get, own_index_only.
Qed.

Lemma src_extend_copies_no_option_witness :
  Obj.get
    (SrcRobotUtil.extend [("name", JsString "Webby")]
       [JsObject [("name", JsString "b")]])
    "name"
  = Obj.get [("name", JsString "Webby")] "name".
Proof.
  apply (@src_extend_copies_no_option [("name", JsString "Webby")]
           [JsObject [("name", JsString "b")]] "name").
  reflexivity.
Defined.

(** X9: with one to ten sources, [extend] of [src/robot.js] does
    nothing but set the key [0] to the last index, as a string; the
    sources' values play no role. *)
Theorem src_extend_sets_index (obj : Obj.t) (sources : list JsValue)
  (last : JsValue) :
  List.length sources < 10 ->
  SrcRobotUtil.extend obj (sources ++ [last])
  = Obj.set obj "0" (JsString (JsString.of_index (List.length sources))).
Proof.
  intros H. unfold SrcRobotUtil.extend.
  rewrite length_app, Nat.add_comm. cbn [List.length Nat.add].
  now rewrite src_extend_fold by lia.
Qed.

Lemma src_extend_sets_index_witness :
  SrcRobotUtil.extend [("name", JsString "Webby")]
    ([JsObject [("name", JsString "a")]]
     ++ [JsObject [("name", JsString "b")]])
  = Obj.set [("name", JsString "Webby")] "0"
      (JsString (JsString.of_index 1)).
Proof.
  apply (@src_extend_sets_index [("name", JsString "Webby")]
           [JsObject [("name", JsString "a")]]
           (JsObject [("name", JsString "b")])).
  cbn. lia.
Defined.

(** * Loading scripts *)

(** X10: [loadHubotScripts] calls [loadFile] for no script: with one
    script or more, the callback reads [this.loadFile] with [this]
    undefined, and the [TypeError] ends the call after the debug line;
    with none, the call returns. *)
Theorem loadHubotScripts_never_loads
  (loadFile : Robot.t -> string -> string -> M unit) (this : Robot.t)
  (path : string) (scripts : list string) (st : Store) :
  RobotUtil.loadHubotScripts loadFile this path scripts st
  = (match scripts with
     | [] => Normal tt
     | _ :: _ =>
         Throw (TypeError "Cannot read property 'loadFile' of undefined")
     end,
     push [EvLog "debug" ("Loading hubot-scripts from " ++ path)%string] st).
Proof.
  destruct scripts; reflexivity.
Qed.

(** X11: [load] calls [loadFile] for no file: a directory with an entry
    makes it raise the [TypeError] of [this.loadFile] on [undefined], an
    empty or missing directory makes it return, and what
    [Fs.readdirSync] raises is passed on. *)
Theorem load_never_loads
  (loadFile : Robot.t -> string -> string -> M unit) (this : Robot.t)
  (path : string) (existsSync : bool) (readdirSync : Outcome (list string))
  (st : Store) :
  RobotUtil.load loadFile this path existsSync readdirSync st
  = (match existsSync, readdirSync with
     | false, _ => Normal tt
     | true, Returns [] => Normal tt
     | true, Returns (_ :: _) =>
         Throw (TypeError "Cannot read property 'loadFile' of undefined")
     | true, Throws e => Throw e
     end,
     push [EvLog "debug" ("Loading scripts from " ++ path)%string] st).
Proof.
  destruct existsSync; [|reflexivity].
  destruct readdirSync as [entries|e]; [|reflexivity].
  unfold RobotUtil.load, bind, Log.debug, record, lift. cbn.
  destruct entries as [|x rest]; [reflexivity|].
  cbn [JsString.sort].
  destruct (JsString.sort rest) as [|y rest']; cbn; [reflexivity|].
  now destruct (String.leb x y).
Qed.

(* ------------------------------------------------------------------ *)
(** * The error channel and the dispatcher, whatever the handlers do *)
(* ------------------------------------------------------------------ *)

(** X12: error handlers run in the order in which [error] registered
    them, after the log line, when none of them throws on the report. *)
Theorem error_handlers_run_in_order (name alias : option string)
  (hs : list ErrorHandler) (err : Error) (res : option Response.t)
  (st : Store) :
  (forall h, In h hs -> eh_body h err res = None) ->
  Robot.invokeErrorHandlers
    (fold_left Robot.error hs (Robot.constructor name alias)) err res st
  = (Normal tt,
     push (EvLog "error" (err_stack err)
           :: map (fun h => EvHandler (eh_id h) err res) hs) st).
Proof.
  intros Hq.
  assert (Hreg : forall this,
             Robot.errorHandlers (fold_left Robot.error hs this)
             = Robot.errorHandlers this ++ hs).
  { clear Hq. induction hs as [|h hs' IH]; intros this; cbn [fold_left].
    - now rewrite app_nil_r.
    - rewrite IH. cbn. now rewrite <- app_assoc. }
  unfold Robot.invokeErrorHandlers, Log.error.
  unfold bind at 1, record. rewrite Hreg. cbn [Robot.constructor
    Robot.errorHandlers app].
  rewrite forEach_handlers by exact Hq.
  unfold push. simpl. now rewrite <- app_assoc.
Qed.

Lemma error_handlers_run_in_order_witness :
  Robot.invokeErrorHandlers
    (fold_left Robot.error
       [mkErrorHandler 1 (fun _ _ => None); mkErrorHandler 2 (fun _ _ => None)]
       (Robot.constructor None None))
    (TypeError "bad") None empty_store
  = (Normal tt,
     push (EvLog "error" (err_stack (TypeError "bad"))
           :: map (fun h => EvHandler (eh_id h) (TypeError "bad") None)
                  [mkErrorHandler 1 (fun _ _ => None);
                   mkErrorHandler 2 (fun _ _ => None)])
          empty_store).
Proof.
  apply (@error_handlers_run_in_order None None
           [mkErrorHandler 1 (fun _ _ => None);
            mkErrorHandler 2 (fun _ _ => None)]
           (TypeError "bad") None empty_store).
  intros h [<-|[<-|[]]]; reflexivity.
Defined.

(** X13: the first error handler that throws ends the report: the
    handlers before it and the handler itself have been called, in
    order, no handler after it is called, no line about the failure is
    logged, and [invokeErrorHandlers] leaves with the [TypeError] of
    [this.logger]. *)
Theorem invokeErrorHandlers_stops_at_first_throw (this : Robot.t)
  (err : Error) (res : option Response.t) (hs1 hs2 : list ErrorHandler)
  (h : ErrorHandler) (e : Error) (st : Store) :
  Robot.errorHandlers this = hs1 ++ h :: hs2 ->
  (forall h', In h' hs1 -> eh_body h' err res = None) ->
  eh_body h err res = Some e ->
  Robot.invokeErrorHandlers this err res st
  = (Throw logger_fault,
     push (EvLog "error" (err_stack err)
           :: map (fun h => EvHandler (eh_id h) err res) (hs1 ++ [h])) st).
Proof.
  intros Hhs Hq He. unfold Robot.invokeErrorHandlers, Log.error.
  unfold bind at 1, record. rewrite Hhs.
  rewrite (@forEach_fault Robot.t err res hs1 hs2 h e _ Hq He).
  unfold push, logger_fault. simpl. now rewrite <- app_assoc.
Qed.

Lemma invokeErrorHandlers_stops_at_first_throw_witness :
  Robot.invokeErrorHandlers
    (fold_left Robot.error
       [mkErrorHandler 1 (fun _ _ => None);
        mkErrorHandler 2 (fun _ _ => Some (TypeError "handler"));
        mkErrorHandler 3 (fun _ _ => None)]
       (Robot.constructor None None))
    (TypeError "bad") None empty_store
  = (Throw logger_fault,
     push (EvLog "error" (err_stack (TypeError "bad"))
           :: map (fun h => EvHandler (eh_id h) (TypeError "bad") None)
                  ([mkErrorHandler 1 (fun _ _ => None)]
                   ++ [mkErrorHandler 2
                         (fun _ _ => Some (TypeError "handler"))]))
          empty_store).
Proof.
  apply (@invokeErrorHandlers_stops_at_first_throw
           (fold_left Robot.error
              [mkErrorHandler 1 (fun _ _ => None);
               mkErrorHandler 2 (fun _ _ => Some (TypeError "handler"));
               mkErrorHandler 3 (fun _ _ => None)]
              (Robot.constructor None None))
           (TypeError "bad") None
           [mkErrorHandler 1 (fun _ _ => None)]
           [mkErrorHandler 3 (fun _ _ => None)]
           (mkErrorHandler 2 (fun _ _ => Some (TypeError "handler")))
           (TypeError "handler") empty_store).
  - reflexivity.
  - intros h' [<-|[]]. reflexivity.
  - reflexivity.
Defined.

(** X14: on a robot without receive middleware whose first error
    handler throws, a first listener whose matcher throws makes
    [receive] leave with the [TypeError] of [this.logger]: no other
    listener is tried, there is no catch-all pass, and the completion
    callback is never called. *)
Theorem receive_abandoned_by_throwing_handler (this : Robot.t)
  (fuel : nat) (m : Message.t) (cb : option DoneFn) (l : Listener.t)
  (ls : list Listener.t) (h : ErrorHandler) (hs : list ErrorHandler)
  (err e : Error) (st : Store) :
  Robot.receive_ (Robot.middleware this) = [] ->
  Robot.listeners this = l :: ls ->
  Listener.matcher l m = Throws err ->
  Robot.errorHandlers this = h :: hs ->
  eh_body h err (Some (Response.mk (Some m) (Some []))) = Some e ->
  let res := Some (Response.mk (Some m) (Some [])) in
  Robot.receive (S fuel) this m cb st
  = (Throw logger_fault,
     push [EvReceive m; EvMatch (Listener.lid l) m; EvEmit "error" err res;
           EvLog "error" (err_stack err); EvHandler (eh_id h) err res] st).
Proof.
  intros Hmw Hl Hm Hh He res.
  rewrite receive_no_middleware by exact Hmw.
  unfold Robot.processListeners, Robot.searchListeners. rewrite Hl.
  unfold bind at 1. cbn [Robot.context_message ctx_response
    Response.message ret].
  unfold bind at 1. cbn [Async.detectSeries]. unfold bind at 1.
  unfold Robot.tryListener. unfold bind at 1, try_catch, bind at 1.
  rewrite (@Listener_call_matcher_throws _ _ _ _ _ _ Hm).
  unfold bind at 1, Robot.emit. unfold bind at 1, record.
  change (String.eqb "error" "error") with true. cbv iota beta.
  rewrite (@invokeErrorHandlers_fault this err res [] hs h e _ Hh
             (fun h' (Hin : In h' []) => match Hin with end) He).
  unfold push. cbn. now rewrite <- !app_assoc.
Qed.

Lemma receive_abandoned_by_throwing_handler_witness :
  Robot.receive 2
    (Robot.error
       (Robot.listen (Robot.constructor None None)
          (fun _ => Throws (TypeError "bad matcher")) []
          (Plugin 1 (fun _ => mkEffect false None)))
       (mkErrorHandler 1 (fun _ _ => Some (TypeError "handler"))))
    (Message.TextMessage 0 "user" "hello") (Some (OnSettled 7)) empty_store
  = (Throw logger_fault,
     push [EvReceive (Message.TextMessage 0 "user" "hello");
           EvMatch 0 (Message.TextMessage 0 "user" "hello");
           EvEmit "error" (TypeError "bad matcher")
             (Some (Response.mk
                      (Some (Message.TextMessage 0 "user" "hello"))
                      (Some [])));
           EvLog "error" (err_stack (TypeError "bad matcher"));
           EvHandler 1 (TypeError "bad matcher")
             (Some (Response.mk
                      (Some (Message.TextMessage 0 "user" "hello"))
                      (Some [])))]
          empty_store).
Proof.
  apply (@receive_abandoned_by_throwing_handler
           (Robot.error
              (Robot.listen (Robot.constructor None None)
                 (fun _ => Throws (TypeError "bad matcher")) []
                 (Plugin 1 (fun _ => mkEffect false None)))
              (mkErrorHandler 1 (fun _ _ => Some (TypeError "handler"))))
           1 (Message.TextMessage 0 "user" "hello") (Some (OnSettled 7))
           (Listener.mk 0 (fun _ => Throws (TypeError "bad matcher")) []
              (Plugin 1 (fun _ => mkEffect false None)))
           [] (mkErrorHandler 1 (fun _ _ => Some (TypeError "handler"))) []
           (TypeError "bad matcher") (TypeError "handler") empty_store);
    reflexivity.
Defined.

(** ** Runs on a robot whose error handlers may throw *)

Section AnyHandlers.

Variable this : Robot.t.

(** A report ends normally or with the fault of [this.logger]. *)
Lemma wp_forEach_handlers_any (err : Error) (res : option Response.t)
  (k : Error -> M unit) (hs : list ErrorHandler) :
  forall st,
    wp (forEach hs
          (fun (this_ : option Robot.t) h =>
             try_catch (call_handler h err res)
               (fun error =>
                  property_of this_ "logger" (fun _ => tt) ;; k error))) st
       (fun c evs _ =>
          (c = Normal tt \/ c = Throw logger_fault) /\ all_inner evs).
Proof.
  induction hs as [|h hs IH]; intros st; cbn [forEach].
  - apply wp_ret. auto.
  - apply wp_bind, wp_try. unfold call_handler.
    apply wp_bind, wp_record.
    destruct (eh_body h err res) as [e|].
    + apply wp_throw, wp_bind, wp_throw. split; [now right|].
      rewrite !app_nil_r. auto.
    + apply wp_ret. wp_use (IH _). intros c evs st' [Hc Hin].
      split; [exact Hc|]. rewrite !app_nil_r. auto.
Qed.

Lemma wp_emit_any (event : string) (err : Error) (res : option Response.t)
  (st : Store) :
  wp (Robot.emit this event err res) st
     (fun c evs _ =>
        (c = Normal tt \/ c = Throw logger_fault) /\ all_inner evs).
Proof.
  unfold Robot.emit. apply wp_bind, wp_record.
  destruct (String.eqb event "error").
  - unfold Robot.invokeErrorHandlers, Log.error.
    apply wp_bind, wp_record.
    wp_use (wp_forEach_handlers_any err res _ (Robot.errorHandlers this) _).
    intros c evs st' [Hc Hin]. split; [exact Hc|]. auto.
  - apply wp_ret. split; [now left|]. auto.
Qed.

(** A middleware chain adds inner events and then runs one of its two
    continuations, unless the report of a throwing middleware faults. *)
Lemma wp_execute_any (A : Type) (stack : Middleware.t) (context : Context)
  (next done : Context -> M A)
  (Q : Completion A -> list Event -> Store -> Prop) :
  (forall st1, wp (next context) st1 Q) ->
  (forall st1, wp (done context) st1 Q) ->
  forall st,
    wp (Middleware.execute (Robot.emit this) stack context next done) st
       (fun c evs st' =>
          exists evs1 evs2,
            evs = evs1 ++ evs2 /\ all_inner evs1
            /\ (Q c evs2 st' \/ (c = Throw logger_fault /\ evs2 = []))).
Proof.
  intros Hnext Hdone.
  induction stack as [|mw rest IH]; intros st; cbn [Middleware.execute].
  - wp_use (Hnext st). intros c evs st' H.
    exists [], evs. auto.
  - apply wp_bind, wp_try.
    wp_use (wp_middleware_call mw context st).
    intros c evs st1 [Hc Hin].
    destruct c as [continue|err|]; [| |contradiction].
    + destruct continue.
      * wp_use (IH st1).
        intros c2 evs2 st2 (evs1 & evs3 & -> & Hin1 & HQ).
        exists (evs ++ evs1), evs3. rewrite app_assoc.
        split; [reflexivity|]. split; [|exact HQ]. auto.
      * wp_use (Hdone st1). intros c2 evs2 st2 HQ.
        exists evs, evs2. auto.
    + apply wp_bind.
      wp_use (wp_emit_any "error" err (Some (ctx_response context)) st1).
      intros c1 evs1 st2 [[->| ->] Hin1].
      * apply wp_ret. wp_use (Hdone _). intros c2 evs2 st3 HQ.
        exists (evs ++ evs1), evs2. rewrite !app_nil_r.
        split; [reflexivity|]. auto.
      * exists (evs ++ evs1), []. rewrite !app_nil_r.
        split; [reflexivity|]. auto.
Qed.

Lemma wp_Listener_call_any (l : Listener.t) (m : Message.t)
  (stack : Middleware.t) (st : Store) :
  wp (Listener.call (Robot.emit this) l m stack) st
     (fun c evs _ =>
        c <> Unfinished
        /\ exists evs', evs = EvMatch (Listener.lid l) m :: evs'
                        /\ all_inner evs').
Proof.
  unfold Listener.call. apply wp_bind, wp_record, wp_bind, wp_lift.
  destruct (Listener.matcher l m) as [[groups|]|err].
  - eapply wp_mono.
    + apply wp_execute_any with
        (Q := fun (c : Completion bool) evs (_ : Store) =>
                c <> Unfinished /\ all_inner evs).
      * intros st1. apply wp_bind.
        wp_use (wp_call_callback _ _ st1).
        intros c evs st2 [Hc Hin].
        destruct c as [[]|err|]; [|split; [discriminate|exact Hin]
                                  |contradiction].
        apply wp_ret. split; [discriminate|]. now rewrite app_nil_r.
      * intros st1. apply wp_ret. split; [discriminate|auto].
    + intros c evs st' (evs1 & evs2 & -> & Hin1 & H).
      destruct H as [[Hc Hin2]|[-> ->]].
      * split; [exact Hc|]. eexists. split; [reflexivity|].
        simpl. auto.
      * split; [discriminate|]. eexists. split; [reflexivity|].
        simpl. auto.
  - apply wp_ret. split; [discriminate|].
    eexists. split; [reflexivity|auto].
  - split; [discriminate|]. eexists. split; [reflexivity|auto].
Qed.

Lemma wp_tryListener_any (m : Message.t) (l : Listener.t) (any : bool)
  (st : Store) :
  wp (Robot.tryListener this m l any) st
     (fun c evs st' =>
        (c = Throw logger_fault
         \/ exists truth any',
              c = Normal (truth, any')
              /\ (truth = true -> is_done st' m = true))
        /\ exists evs', evs = EvMatch (Listener.lid l) m :: evs'
                        /\ all_inner evs').
Proof.
  unfold Robot.tryListener. apply wp_bind, wp_try, wp_bind.
  wp_use (wp_Listener_call_any l m _ st).
  intros c evs st1 [Hc (evs' & -> & Hin)].
  destruct c as [executed|err|]; [| |contradiction].
  - apply wp_ret. unfold Middleware.ticker, nextTick.
    apply wp_bind, wp_read_done, wp_ret.
    split.
    + right. exists (is_done st1 m), (any || executed). auto.
    + exists evs'. now rewrite !app_nil_r.
  - apply wp_bind.
    wp_use (wp_emit_any "error" err
              (Some (Response.mk (Some m) (Some []))) st1).
    intros c1 evs1 st2 [[->| ->] Hin1].
    + apply wp_ret, wp_ret. split.
      * right. exists false, any. split; [reflexivity|discriminate].
      * eexists. rewrite ?app_nil_r. split; [reflexivity|]. auto.
    + split; [now left|].
      eexists. rewrite ?app_nil_r. split; [reflexivity|]. auto.
Qed.

(** The series over a list of listeners: it goes through a prefix of the
    list, in order, and ends past the last listener, at a listener that
    left the message done, or with the fault. *)
Lemma wp_detectSeries_any (m : Message.t) (ls : list Listener.t) :
  forall (any : bool) (st : Store),
    wp (Async.detectSeries ls (Robot.tryListener this m) any) st
       (fun c evs st' =>
          settled evs = [] /\ receives evs = []
          /\ exists ls1 ls2,
               ls = ls1 ++ ls2
               /\ attempts evs = map Listener.lid ls1
               /\ (c = Throw logger_fault
                   \/ exists found any',
                        c = Normal (found, any')
                        /\ match found with
                           | Some l =>
                               is_done st' m = true
                               /\ exists ls0, ls1 = ls0 ++ [l]
                           | None => ls2 = []
                           end)).
Proof.
  induction ls as [|l ls IH]; intros any st; cbn [Async.detectSeries].
  - apply wp_ret. repeat (split; [reflexivity|]).
    exists [], []. repeat (split; [reflexivity|]).
    right. now exists None, any.
  - apply wp_bind.
    wp_use (wp_tryListener_any m l any st).
    intros c evs st1 [Hc (evs' & -> & Hin)].
    assert (Hs : settled (EvMatch (Listener.lid l) m :: evs') = [])
      by (apply (inner_settled Hin)).
    assert (Hr : receives (EvMatch (Listener.lid l) m :: evs') = [])
      by (apply (inner_receives Hin)).
    assert (Ha : attempts (EvMatch (Listener.lid l) m :: evs')
                 = [Listener.lid l])
      by (simpl; now rewrite (inner_attempts Hin)).
    destruct Hc as [->|(truth & any1 & -> & Hdone)].
    + split; [exact Hs|]. split; [exact Hr|].
      exists [l], ls. split; [reflexivity|]. split; [exact Ha|]. now left.
    + destruct truth.
      * apply wp_ret. rewrite app_nil_r.
        split; [exact Hs|]. split; [exact Hr|].
        exists [l], ls. split; [reflexivity|]. split; [exact Ha|].
        right. exists (Some l), any1. split; [reflexivity|].
        split; [auto|now exists []].
      * wp_use (IH any1 st1).
        intros c evs2 st2 (Hs2 & Hr2 & ls1 & ls2 & -> & Hat & Hc).
        rewrite settled_app, receives_app, Hs, Hr, Hs2, Hr2.
        repeat (split; [reflexivity|]).
        exists (l :: ls1), ls2. split; [reflexivity|].
        split; [rewrite attempts_app, Ha, Hat; reflexivity|].
        destruct Hc as [->|(found & any2 & -> & Hfound)]; [now left|].
        right. exists found, any2. split; [reflexivity|].
        destruct found as [l'|]; [|exact Hfound].
        destruct Hfound as [Hd [ls0 ->]].
        split; [exact Hd|]. now exists (l :: ls0).
Qed.





End AnyHandlers.




(** ** [done] flags *)

Section KeepsDone.

Context {A B : Type}.

Lemma keeps_ret (a : A) : keeps_done (ret a).
Proof. intros st msg H. exact H. Qed.

Lemma keeps_throw (e : Error) : keeps_done (@throw A e).
Proof. intros st msg H. exact H. Qed.

Lemma keeps_bind (m : M A) (k : A -> M B) :
  keeps_done m -> (forall a, keeps_done (k a)) -> keeps_done (bind m k).
Proof.
  intros Hm Hk st msg H. specialize (Hm st msg H). unfold bind.
  destruct (m st) as [[a|e|] st1]; cbn in *; [now apply Hk|exact Hm..].
Qed.

Lemma keeps_try (m : M A) (handler : Error -> M A) :
  keeps_done m -> (forall e, keeps_done (handler e)) ->
  keeps_done (try_catch m handler).
Proof.
  intros Hm Hk st msg H. specialize (Hm st msg H). unfold try_catch.
  destruct (m st) as [[a|e|] st1]; cbn in *; [exact Hm|now apply Hk|exact Hm].
Qed.

End KeepsDone.

Lemma keeps_record (ev : Event) : keeps_done (record ev).
Proof. intros st msg H. exact H. Qed.

Lemma keeps_finish (m : Message.t) : keeps_done (finish m).
Proof.
  intros st msg H. unfold is_done in *. cbn. rewrite H. apply orb_true_r.
Qed.

Create HintDb keeps.

#[local] Hint Resolve keeps_ret keeps_throw keeps_record keeps_finish
  : keeps.

Lemma keeps_finish_response (res : Response.t) :
  keeps_done (finish_response res).
Proof. unfold finish_response. destruct (Response.message res); auto with keeps. Qed.

Lemma keeps_call_callback (callback : Callback) :
  forall res, keeps_done (call_callback callback res).
Proof.
  induction callback as [id body| |callback IH]; intros res;
    cbn [call_callback].
  - apply keeps_bind; [auto with keeps|]. intros _. unfold run_effect.
    apply keeps_bind.
    + destruct (eff_finish (body res));
        [apply keeps_finish_response|auto with keeps].
    + intros _. destruct (eff_raise (body res)); auto with keeps.
  - auto with keeps.
  - apply keeps_bind; [destruct (Response.message res); auto with keeps|].
    intros inner. apply IH.
Qed.

Lemma keeps_middleware_call (mw : MiddlewareFn) (context : Context) :
  keeps_done (Middleware.call mw context).
Proof.
  unfold Middleware.call. apply keeps_bind; [auto with keeps|]. intros _.
  apply keeps_bind.
  - destruct (mw_finish (mw_body mw context));
      [apply keeps_finish_response|auto with keeps].
  - intros _. destruct (mw_outcome (mw_body mw context)); auto with keeps.
Qed.

Lemma keeps_forEach {X T} (cb : option T -> X -> M unit) (l : list X) :
  (forall x, keeps_done (cb None x)) -> keeps_done (forEach l cb).
Proof.
  intros H. induction l as [|x l IH]; cbn [forEach]; [auto with keeps|].
  apply keeps_bind; [apply H|]. intros _. exact IH.
Qed.

Lemma keeps_emit (this : Robot.t) (event : string) (err : Error)
  (res : option Response.t) :
  keeps_done (Robot.emit this event err res).
Proof.
  unfold Robot.emit. apply keeps_bind; [auto with keeps|]. intros _.
  destruct (String.eqb event "error"); [|auto with keeps].
  unfold Robot.invokeErrorHandlers, Log.error.
  apply keeps_bind; [auto with keeps|]. intros _.
  apply keeps_forEach. intros h. apply keeps_try.
  - unfold call_handler. apply keeps_bind; [auto with keeps|]. intros _.
    destruct (eh_body h err res); auto with keeps.
  - intros e. apply keeps_bind; [cbn; auto with keeps|]. intros _.
    auto with keeps.
Qed.

Lemma keeps_execute {X} (this : Robot.t) (stack : Middleware.t)
  (context : Context) (next done : Context -> M X) :
  keeps_done (next context) -> keeps_done (done context) ->
  keeps_done (Middleware.execute (Robot.emit this) stack context next done).
Proof.
  intros Hn Hd. induction stack as [|mw rest IH]; cbn [Middleware.execute];
    [exact Hn|].
  apply keeps_bind.
  - apply keeps_try; [apply keeps_middleware_call|]. intros e.
    apply keeps_bind; [apply keeps_emit|]. intros _. auto with keeps.
  - intros []; [exact IH|exact Hd].
Qed.

Lemma keeps_Listener_call (this : Robot.t) (l : Listener.t)
  (m : Message.t) (stack : Middleware.t) :
  keeps_done (Listener.call (Robot.emit this) l m stack).
Proof.
  unfold Listener.call. apply keeps_bind; [auto with keeps|]. intros _.
  apply keeps_bind;
    [destruct (Listener.matcher l m); cbn; auto with keeps|].
  intros [groups|]; [|auto with keeps].
  apply keeps_execute; [|auto with keeps].
  apply keeps_bind; [apply keeps_call_callback|]. intros _.
  auto with keeps.
Qed.

Lemma keeps_tryListener (this : Robot.t) (m : Message.t) (l : Listener.t)
  (any : bool) :
  keeps_done (Robot.tryListener this m l any).
Proof.
  unfold Robot.tryListener. apply keeps_bind.
  - apply keeps_try.
    + apply keeps_bind; [apply keeps_Listener_call|]. intros executed.
      auto with keeps.
    + intros e. apply keeps_bind; [apply keeps_emit|]. intros _.
      auto with keeps.
  - intros [executed|]; [|auto with keeps].
    unfold Middleware.ticker, nextTick. apply keeps_bind.
    + intros st msg H. exact H.
    + intros done. auto with keeps.
Qed.

(** A search that gets past listeners while the message is done has
    seen each of their attempts throw: [anyListenersExecuted] is as
    before, and the message is still done. *)
Lemma done_search_passes (this : Robot.t) (m : Message.t)
  (ls : list Listener.t) :
  forall (any any1 : bool) (st st1 : Store),
    is_done st m = true ->
    Async.detectSeries ls (Robot.tryListener this m) any st
    = (Normal (None, any1), st1) ->
    any1 = any /\ is_done st1 m = true.
Proof.
  induction ls as [|l ls IH]; intros any any1 st st1 Hd H.
  - cbn in H. injection H as <- <-. auto.
  - cbn [Async.detectSeries] in H. unfold bind at 1 in H.
    pose proof (@keeps_tryListener this m l any st m Hd) as Hk.
    destruct (Robot.tryListener this m l any st) as [[[truth any']|e|] st2]
      eqn:E; try discriminate H.
    cbn [snd] in Hk. destruct truth; [discriminate H|].
    destruct (IH any' any1 st2 st1 Hk H) as [-> Hd1].
    split; [|exact Hd1].
    pose proof (@keeps_Listener_call this l m
                  (Robot.listener (Robot.middleware this)) st m Hd) as Hc.
    destruct (Listener.call (Robot.emit this) l m
                (Robot.listener (Robot.middleware this)) st)
      as [[executed|err|] st3] eqn:Ec; cbn [snd] in Hc.
    + rewrite (@tryListener_returns this m l any executed st st3 Ec) in E.
      congruence.
    + unfold Robot.tryListener, bind at 1, try_catch, bind at 1 in E.
      rewrite Ec in E. unfold bind at 1 in E.
      destruct (Robot.emit this "error" err
                  (Some (Response.mk (Some m) (Some []))) st3)
        as [[[]|e'|] st4]; cbn in E; try discriminate E.
      unfold ret in E. congruence.
    + unfold Robot.tryListener, bind at 1, try_catch, bind at 1 in E.
      rewrite Ec in E. discriminate E.
Qed.

(** X17: when the message is already done before the search (a receive
    middleware finished it), the search ends at the first listener whose
    attempt returns, whether or not that listener matched: once the
    search is past the listeners in front of it, whose attempts then
    all threw, its attempt ends the search, and the listeners after it
    are not tried. *)
Theorem done_message_stops_search (this : Robot.t) (m : Message.t)
  (before after : list Listener.t) (l : Listener.t) (any1 executed : bool)
  (st st1 st2 : Store) :
  is_done st m = true ->
  Robot.listeners this = before ++ l :: after ->
  Async.detectSeries before (Robot.tryListener this m) false st
  = (Normal (None, any1), st1) ->
  Listener.call (Robot.emit this) l m
                (Robot.listener (Robot.middleware this)) st1
  = (Normal executed, st2) ->
  Robot.searchListeners this m st = (Normal (Some l, executed), st2).
Proof.
  intros Hd Hl Hpre Hcall. unfold Robot.searchListeners. rewrite Hl.
  destruct (@done_search_passes this m before _ _ _ _ Hd Hpre) as [-> Hd1].
  rewrite (@detectSeries_app this m before (l :: after) _ _ _ _ Hpre).
  pose proof (@keeps_Listener_call this l m
                (Robot.listener (Robot.middleware this)) st1 m Hd1) as Hk.
  rewrite Hcall in Hk. cbn [snd] in Hk.
  rewrite (@detectSeries_step this m l after false (is_done st2 m)
             (false || executed) st1 st2)
    by (now apply tryListener_returns).
  now rewrite Hk.
Qed.

Lemma done_message_stops_search_witness :
  let m := Message.TextMessage 0 "user" "hello" in
  let bad := mkError "Error" "bad matcher" "Error: bad matcher" in
  let plain := Plugin 1 (fun _ => mkEffect false None) in
  let T := Listener.mk 0 (fun _ => Throws bad) [] plain in
  let N := Listener.mk 1 (fun _ => Returns None) [] plain in
  let Y := Listener.mk 2 (fun _ => Returns (Some [])) [] plain in
  let report :=
    [EvMatch 0 m;
     EvEmit "error" bad (Some (Response.mk (Some m) (Some [])));
     EvLog "error" "Error: bad matcher"] in
  Robot.searchListeners
    (Robot.set_listeners [T; N; Y] (Robot.constructor None None)) m
    (mkStore [] [0] 1)
  = (Normal (Some N, false), mkStore (report ++ [EvMatch 1 m]) [0] 1).
Proof.
  intros m bad plain T N Y report.
  apply (@done_message_stops_search
           (Robot.set_listeners [T; N; Y] (Robot.constructor None None)) m
           [T] [Y] N false false (mkStore [] [0] 1)
           (mkStore report [0] 1)
           (mkStore (report ++ [EvMatch 1 m]) [0] 1));
    reflexivity.
Defined.

(** ** The catch-all pass, whatever the error handlers do *)

Section FallbackAny.

Variable this : Robot.t.

Lemma wp_call_done_receives (cb : option DoneFn) (st : Store) :
  wp (match cb with
      | Some d => call_done d
      | None => ret tt
      end) st
     (fun _ evs _ => receives evs = []).
Proof.
  destruct cb as [[tag]|]; [apply wp_record|apply wp_ret]; reflexivity.
Qed.

(** The search for a CatchAll message is the end of the dispatch. *)
Lemma wp_processListeners_CatchAll
  (receive : Robot.t -> Message.t -> option DoneFn -> M unit)
  (context : Context) (m : Message.t) (done : option DoneFn) (st : Store) :
  Response.message (ctx_response context) = Some m ->
  Message.isCatchAll m = true ->
  wp (Robot.processListeners receive this context done) st
     (fun _ evs _ => receives evs = []).
Proof.
  intros Hm Hc.
  unfold Robot.processListeners, Robot.context_message. rewrite Hm.
  apply wp_bind, wp_ret, wp_bind.
  unfold Robot.searchListeners.
  wp_use (wp_detectSeries_any this m (Robot.listeners this) false st).
  intros c evs1 st1 (_ & Hr & ls1 & ls2 & _ & _ & Hend).
  destruct Hend as [->|(found & any & -> & _)]; [exact Hr|].
  cbv beta iota. rewrite Hc. cbn [negb andb]. unfold nextTick.
  wp_use (wp_call_done_receives done).
  intros c evs st2 H. now rewrite !app_nil_l, receives_app, Hr, H.
Qed.

Lemma wp_receive_CatchAll_receives (fuel : nat) (m : Message.t)
  (cb : option DoneFn) (st : Store) :
  Message.isCatchAll m = true ->
  wp (Robot.receive (S fuel) this m cb) st
     (fun _ evs _ => receives evs = [m]).
Proof.
  intros Hc. cbn [Robot.receive]. apply wp_bind, wp_record.
  eapply wp_mono.
  - apply wp_execute_any with
      (Q := fun (_ : Completion unit) evs (_ : Store) => receives evs = []).
    + intros st1.
      now apply (@wp_processListeners_CatchAll (Robot.receive fuel)
                   (mkContext None (Response.mk (Some m) None)) m cb st1
                   eq_refl).
    + intros st1. apply wp_call_done_receives.
  - intros c evs st' (evs1 & evs2 & -> & Hin & H).
    rewrite !receives_app, (inner_receives Hin). cbn [receives flat_map app].
    destruct H as [->|[_ ->]]; reflexivity.
Qed.

(** The search for another message is followed by at most one more
    call of [receive], on the message wrapped in a CatchAll. *)
Lemma wp_processListeners_wraps (fuel : nat) (context : Context)
  (m : Message.t) (done : option DoneFn) (st : Store) :
  Response.message (ctx_response context) = Some m ->
  wp (Robot.processListeners (Robot.receive (S fuel)) this context done) st
     (fun _ evs _ =>
        receives evs = []
        \/ (Message.isCatchAll m = false
            /\ exists r, receives evs = [Message.CatchAllMessage r m])).
Proof.
  intros Hm.
  unfold Robot.processListeners, Robot.context_message. rewrite Hm.
  apply wp_bind, wp_ret, wp_bind.
  unfold Robot.searchListeners.
  wp_use (wp_detectSeries_any this m (Robot.listeners this) false st).
  intros c evs1 st1 (_ & Hr & ls1 & ls2 & _ & _ & Hend).
  destruct Hend as [->|(found & any & -> & _)]; [now left|].
  cbv beta iota.
  destruct (negb (Message.isCatchAll m) && negb any) eqn:Hwrap.
  - apply andb_true_iff in Hwrap as [Hc _]. apply negb_true_iff in Hc.
    unfold Log.debug.
    apply wp_bind, wp_record, wp_bind, wp_new_CatchAllMessage.
    wp_use (@wp_receive_CatchAll_receives fuel
              (Message.CatchAllMessage (fresh _ m) m) done _ eq_refl).
    intros c evs st2 H. right. split; [exact Hc|].
    eexists. rewrite !app_nil_l, !receives_app, Hr, H. reflexivity.
  - unfold nextTick. wp_use (wp_call_done_receives done).
    intros c evs st2 H. left. now rewrite !app_nil_l, receives_app, Hr, H.
Qed.

Lemma wp_receive_receives (fuel : nat) (m : Message.t)
  (cb : option DoneFn) (st : Store) :
  wp (Robot.receive (S (S fuel)) this m cb) st
     (fun _ evs _ =>
        receives evs = [m]
        \/ (Message.isCatchAll m = false
            /\ exists r, receives evs = [m; Message.CatchAllMessage r m])).
Proof.
  cbn [Robot.receive]. apply wp_bind, wp_record.
  eapply wp_mono.
  - apply wp_execute_any with
      (Q := fun (_ : Completion unit) evs (_ : Store) =>
              receives evs = []
              \/ (Message.isCatchAll m = false
                  /\ exists r, receives evs = [Message.CatchAllMessage r m])).
    + intros st1.
      now apply (@wp_processListeners_wraps fuel
                   (mkContext None (Response.mk (Some m) None)) m cb st1).
    + intros st1. wp_use (wp_call_done_receives cb).
      intros c evs st2 H. now left.
  - intros c evs st' (evs1 & evs2 & -> & Hin & H).
    rewrite !receives_app, (inner_receives Hin). cbn [receives flat_map app].
    destruct H as [[->|[Hc [r ->]]]|[_ ->]];
      [now left|right; split; [exact Hc|now exists r]|now left].
Qed.

(** [anyListenersExecuted] is only set by a listener whose call
    returned true. *)
Lemma any_true_executed (m : Message.t) (ls : list Listener.t) :
  forall (any0 : bool) (st : Store) found any st',
    Async.detectSeries ls (Robot.tryListener this m) any0 st
    = (Normal (found, any), st') ->
    any = true ->
    any0 = true
    \/ exists l st0 st1,
         In l ls
         /\ Listener.call (Robot.emit this) l m
              (Robot.listener (Robot.middleware this)) st0
            = (Normal true, st1).
Proof.
  induction ls as [|l ls IH]; intros any0 st found any st' H Hany.
  - cbn in H. injection H as _ <- _. now left.
  - cbn [Async.detectSeries] in H. unfold bind at 1 in H.
    destruct (Listener.call (Robot.emit this) l m
                (Robot.listener (Robot.middleware this)) st)
      as [[executed|err|] st3] eqn:Ec.
    + rewrite (@tryListener_returns this m l any0 executed st st3 Ec) in H.
      destruct executed;
        [right; exists l, st, st3; split; [now left|exact Ec]|].
      rewrite orb_false_r in H.
      destruct (is_done st3 m).
      * injection H as _ <- _. now left.
      * destruct (IH any0 st3 found any st' H Hany)
          as [Ha|(l' & st0 & st1 & Hin & Hcall)]; [now left|].
        right. exists l', st0, st1. split; [now right|exact Hcall].
    + unfold Robot.tryListener, bind at 1, try_catch, bind at 1 in H.
      rewrite Ec in H. unfold bind at 1 in H.
      destruct (Robot.emit this "error" err
                  (Some (Response.mk (Some m) (Some []))) st3)
        as [[[]|e'|] st4]; cbn in H; try discriminate H.
      destruct (IH any0 st4 found any st' H Hany)
        as [Ha|(l' & st0 & st1 & Hin & Hcall)]; [now left|].
      right. exists l', st0, st1. split; [now right|exact Hcall].
    + unfold Robot.tryListener, bind at 1, try_catch, bind at 1 in H.
      rewrite Ec in H. discriminate H.
Qed.

End FallbackAny.

(** X28: the catch-all pass, whatever the listeners, the middleware and
    the error handlers do.  Once its search has returned,
    [processListeners] calls [receive] exactly when the message is no
    CatchAll and [anyListenersExecuted] is false, which it is unless
    the call of a registered listener returned true, and it calls it
    once, with the message wrapped in a new CatchAll; this holds even
    when the pass it starts ends with an exception.  A dispatch of a
    CatchAll message never calls [receive] again, and a dispatch of any
    message calls it again at most once. *)
Theorem catchAll_fallback_once (this : Robot.t) (fuel : nat)
  (context : Context) (m : Message.t) (done : option DoneFn) (st : Store) :
  Response.message (ctx_response context) = Some m ->
  (forall found anyListenersExecuted st1,
      Robot.searchListeners this m st
      = (Normal (found, anyListenersExecuted), st1) ->
      (exists c st' evs,
          Robot.processListeners (Robot.receive (S fuel)) this context
                                 done st = (c, st')
          /\ trace st' = trace st ++ evs
          /\ receives evs
             = if negb (Message.isCatchAll m) && negb anyListenersExecuted
               then [Message.CatchAllMessage (fresh st1 m) m]
               else [])
      /\ (anyListenersExecuted = true ->
          exists l st0 st0',
            In l (Robot.listeners this)
            /\ Listener.call (Robot.emit this) l m
                 (Robot.listener (Robot.middleware this)) st0
               = (Normal true, st0')))
  /\ (Message.isCatchAll m = true ->
      exists c st' evs,
        Robot.receive (S fuel) this m done st = (c, st')
        /\ trace st' = trace st ++ evs
        /\ receives evs = [m])
  /\ (exists c st' evs,
        Robot.receive (S (S fuel)) this m done st = (c, st')
        /\ trace st' = trace st ++ evs
        /\ (receives evs = [m]
            \/ (Message.isCatchAll m = false
                /\ exists r,
                     receives evs = [m; Message.CatchAllMessage r m]))).
Proof.
  intros Hm. split; [|split].
  - intros found any st1 E. split.
    + destruct (wp_result
                  (wp_detectSeries_any this m (Robot.listeners this) false st))
        as (c1 & evs1 & st1' & E1 & Ht1 & _ & Hr1 & _).
      unfold Robot.searchListeners in E. rewrite E in E1.
      injection E1 as <- <-.
      rewrite (@processListeners_eval (Robot.receive (S fuel)) this context
                 m done found any st st1 Hm E).
      destruct (negb (Message.isCatchAll m) && negb any).
      * match goal with
        | |- context [Robot.receive _ _ ?w _ ?s] =>
            destruct (wp_result
                        (@wp_receive_CatchAll_receives this fuel w done s
                           eq_refl))
              as (c & evs & st' & E2 & Ht2 & Hr2)
        end.
        exists c, st', (evs1 ++ [EvLog "debug"
                                   "No listeners executed; falling back to catch-all"]
                         ++ evs).
        split; [exact E2|]. cbn [trace] in Ht2.
        split; [now rewrite Ht2, Ht1, <- !app_assoc|].
        now rewrite !receives_app, Hr1, Hr2.
      * destruct (wp_result (wp_call_done_receives done st1))
          as (c & evs & st' & E2 & Ht2 & Hr2).
        exists c, st', (evs1 ++ evs).
        split; [exact E2|].
        split; [now rewrite Ht2, Ht1, <- !app_assoc|].
        now rewrite receives_app, Hr1, Hr2.
    + intros Hany. unfold Robot.searchListeners in E.
      destruct (@any_true_executed this m (Robot.listeners this) false st
                  found any st1 E Hany) as [H|H]; [discriminate H|exact H].
  - intros Hc.
    destruct (wp_result (@wp_receive_CatchAll_receives this fuel m done st Hc))
      as (c & evs & st' & E & Ht & Hr).
    now exists c, st', evs.
  - destruct (wp_result (wp_receive_receives this fuel m done st))
      as (c & evs & st' & E & Ht & Hr).
    now exists c, st', evs.
Qed.

Lemma catchAll_fallback_once_witness :
  exists c st' evs,
    Robot.receive 2 (Robot.constructor None None)
      (Message.TextMessage 0 "user" "hello") None empty_store
    = (c, st')
    /\ trace st' = trace empty_store ++ evs
    /\ (receives evs = [Message.TextMessage 0 "user" "hello"]
        \/ (Message.isCatchAll (Message.TextMessage 0 "user" "hello") = false
            /\ exists r,
                 receives evs
                 = [Message.TextMessage 0 "user" "hello";
                    Message.CatchAllMessage r
                      (Message.TextMessage 0 "user" "hello")])).
Proof.
  exact (proj2 (proj2
           (@catchAll_fallback_once (Robot.constructor None None) 0
              (mkContext None
                 (Response.mk (Some (Message.TextMessage 0 "user" "hello"))
                              None))
              (Message.TextMessage 0 "user" "hello") None empty_store
              eq_refl))).
Defined.

(* ------------------------------------------------------------------ *)
(** * Claims about the dispatcher *)
(* ------------------------------------------------------------------ *)

(** C3, on the code: a robot with one listener, whose matcher throws,
    and one error handler, which throws.  A text message is dispatched;
    no callback of a listener is called, so no listener executed, and
    yet the message is never wrapped in a CatchAll and [receive] is not
    called again: the report of the matcher's exception ends with the
    [TypeError] of [this.logger], which takes the search and the
    dispatch with it, whatever the depth of the recursion allowed. *)
Theorem catchAll_fallback_lost :
  let bad := mkError "Error" "bad matcher" "Error: bad matcher" in
  let boom := mkError "Error" "boom" "Error: boom" in
  let m := Message.TextMessage 0 "user" "hello" in
  let res := Some (Response.mk (Some m) (Some [])) in
  let this :=
    Robot.error
      (Robot.listen (Robot.constructor None None) (fun _ => Throws bad) []
                    (Plugin 10 (fun _ => mkEffect false None)))
      (mkErrorHandler 1 (fun _ _ => Some boom)) in
  let evs :=
    [EvReceive m; EvMatch 0 m; EvEmit "error" bad res;
     EvLog "error" "Error: bad matcher"; EvHandler 1 bad res] in
  Message.isCatchAll m = false
  /\ (forall fuel done,
        Robot.receive (S fuel) this m done empty_store
        = (Throw logger_fault, mkStore evs [] 0))
  /\ callbacks evs = []
  /\ receives evs = [m].
Proof. repeat split. Qed.

(** C4, on the code: listeners [A; B] with B matching, and one error
    handler, which throws.  Whether it is A's matcher or A's callback
    that throws, the exception is caught and emitted with a response,
    and the handler is called; its exception ends the report, the
    search and the dispatch with the [TypeError] of [this.logger]: B's
    matcher is never called and B's callback never runs. *)
Theorem throwing_listener_blocks_search :
  let bad := mkError "Error" "bad" "Error: bad" in
  let boom := mkError "Error" "boom" "Error: boom" in
  let m := Message.TextMessage 0 "user" "hello" in
  let res := Response.mk (Some m) (Some []) in
  let plain := Plugin 11 (fun _ => mkEffect false None) in
  let B := Listener.mk 1 (fun _ => Returns (Some [])) [] plain in
  let handler := mkErrorHandler 1 (fun _ _ => Some boom) in
  let bad_matcher :=
    Robot.error
      (Robot.set_listeners [Listener.mk 0 (fun _ => Throws bad) [] plain; B]
                           (Robot.constructor None None)) handler in
  let bad_callback :=
    Robot.error
      (Robot.set_listeners
         [Listener.mk 0 (fun _ => Returns (Some [])) []
                      (Plugin 10 (fun _ => mkEffect false (Some bad))); B]
         (Robot.constructor None None)) handler in
  let report :=
    [EvEmit "error" bad (Some res); EvLog "error" "Error: bad";
     EvHandler 1 bad (Some res)] in
  Robot.searchListeners bad_matcher m empty_store
  = (Throw logger_fault, mkStore (EvMatch 0 m :: report) [] 0)
  /\ Robot.searchListeners bad_callback m empty_store
     = (Throw logger_fault,
        mkStore (EvMatch 0 m :: EvCallback 10 res :: report) [] 0)
  /\ attempts (EvMatch 0 m :: report) = [0]
  /\ callbacks (EvMatch 0 m :: report) = []
  /\ attempts (EvMatch 0 m :: EvCallback 10 res :: report) = [0]
  /\ callbacks (EvMatch 0 m :: EvCallback 10 res :: report) = [(10, res)]
  /\ (forall fuel done,
        fst (Robot.receive (S fuel) bad_matcher m done empty_store)
        = Throw logger_fault
        /\ fst (Robot.receive (S fuel) bad_callback m done empty_store)
           = Throw logger_fault).
Proof. repeat split. Qed.

(** C5, on the code: a robot with one listener, whose matcher throws,
    and one error handler, which throws.  One call of [receive] with a
    completion callback leaves with the [TypeError] of [this.logger],
    and the completion callback is never called, whatever the depth of
    the recursion allowed. *)
Theorem receive_never_settles :
  let bad := mkError "Error" "bad matcher" "Error: bad matcher" in
  let boom := mkError "Error" "boom" "Error: boom" in
  let m := Message.TextMessage 0 "user" "hello" in
  let res := Some (Response.mk (Some m) (Some [])) in
  let this :=
    Robot.error
      (Robot.listen (Robot.constructor None None) (fun _ => Throws bad) []
                    (Plugin 10 (fun _ => mkEffect false None)))
      (mkErrorHandler 1 (fun _ _ => Some boom)) in
  forall fuel,
    exists st',
      Robot.receive (S fuel) this m (Some (OnSettled 7)) empty_store
      = (Throw logger_fault, st')
      /\ settled (trace st') = []
      /\ handled (trace st') = [1]
      /\ emitted (trace st') = [("error", bad, res)].
Proof. intros bad boom m res this fuel. eexists. repeat split. Qed.

(** C10, on the code: with the completion callback left out, [receive]
    raises the [TypeError] of [this.logger] on a robot whose error
    handler throws, in the first pass when the matcher of a listener
    throws, and in the catch-all pass when the callback given to
    [catchAll] throws. *)
Theorem receive_without_callback_raises :
  let bad := mkError "Error" "bad" "Error: bad" in
  let boom := mkError "Error" "boom" "Error: boom" in
  let m := Message.TextMessage 0 "user" "hello" in
  let handler := mkErrorHandler 1 (fun _ _ => Some boom) in
  let first_pass :=
    Robot.error
      (Robot.listen (Robot.constructor None None) (fun _ => Throws bad) []
                    (Plugin 10 (fun _ => mkEffect false None))) handler in
  let catch_all_pass :=
    Robot.error
      (Robot.catchAll (Robot.constructor None None)
         (Robot.Function (Plugin 10 (fun _ => mkEffect false (Some bad))))
         None) handler in
  forall fuel,
    (exists st',
        Robot.receive (S fuel) first_pass m None empty_store
        = (Throw logger_fault, st')
        /\ receives (trace st') = [m])
    /\ (exists st',
           Robot.receive (S (S fuel)) catch_all_pass m None empty_store
           = (Throw logger_fault, st')
           /\ receives (trace st') = [m; Message.CatchAllMessage 1 m]).
Proof.
  intros bad boom m handler first_pass catch_all_pass fuel.
  split; eexists; split; reflexivity.
Qed.








(** * [respondPattern] on every robot *)

Lemma starts_with_anchor_split (s : string) :
  Robot.starts_with_anchor (Js.split "/"%char s)
  = match Js.char0 s with
    | Some c => Ascii.eqb c "^"%char
    | None => false
    end.
Proof.
  destruct s as [|c s]; [reflexivity|]. cbn [Js.split Js.char0].
  destruct (Ascii.eqb c "/"%char) eqn:E.
  - apply Ascii.eqb_eq in E. now subst c.
  - pose proof (split_nonempty "/"%char s) as Hne.
    now destruct (Js.split "/"%char s).
Qed.

Lemma respondPattern_warnings (regex : RegExp.t) (st : Store) :
  (if match Js.char0 (RegExp.source regex) with
      | Some c => Ascii.eqb c "^"%char
      | None => false
      end
   then
     Log.warning ("Anchors don't work well with respond, "
                  ++ "perhaps you want to use 'hear'")%string ;;
     Log.warning ("The regex in question was "
                  ++ RegExp.toString regex)%string
   else ret tt) st
  = (Normal tt, push (anchor_warnings regex) st).
Proof.
  unfold anchor_warnings, push.
  destruct (match Js.char0 (RegExp.source regex) with
            | Some c => Ascii.eqb c "^"%char
            | None => false
            end).
  - unfold bind, Log.warning, record. cbn [trace finished next_ref].
    now rewrite <- app_assoc.
  - unfold ret. rewrite app_nil_r. now destruct st.
Qed.

(** X18: for every robot and every regex object [respondPattern] logs
    exactly the two warnings about anchors when the body pattern starts
    with [^] and nothing otherwise, whether or not a pattern is built.
    It returns a regex with the flags of the given one, or, which only
    happens when that one carries the flag [u], leaves with the
    [SyntaxError] of [new RegExp]. *)
Theorem respondPattern_warns_on_anchor (this : Robot.t) (regex : RegExp.t)
  (st : Store) :
  RegExp.wf_flags regex = true ->
  exists c,
    Robot.respondPattern this regex st
    = (c, push (anchor_warnings regex) st)
    /\ ((exists re, c = Normal re /\ RegExp.flags re = RegExp.flags regex)
        \/ (RegExp.has_flag "u" regex = true
            /\ exists message, c = Throw (SyntaxError message))).
Proof.
  intros Hwf. unfold Robot.respondPattern.
  rewrite (toString_parts regex Hwf), starts_with_anchor_split.
  unfold bind at 1. rewrite respondPattern_warnings.
  assert (H : forall source,
             exists c,
               lift (Robot.new_RegExp source (Some (RegExp.flags regex)))
                    (push (anchor_warnings regex) st)
               = (c, push (anchor_warnings regex) st)
               /\ ((exists re,
                      c = Normal re
                      /\ RegExp.flags re = RegExp.flags regex)
                   \/ (RegExp.has_flag "u" regex = true
                       /\ exists message, c = Throw (SyntaxError message)))).
  { intros source.
    destruct (new_RegExp_cases source (RegExp.flags regex))
      as [E | [Hu [message E]]]; rewrite E.
    - eexists. split; [reflexivity|]. left. eexists. now split.
    - eexists. split; [reflexivity|]. right. split; [exact Hu|].
      now exists message. }
  destruct (Robot.alias this) as [alias_|]; [|apply H].
  destruct (Js.truthy alias_); [|apply H].
  destruct (Js.length (Robot.escape alias_)
            <? Js.length (Robot.escape (Robot.name this))); apply H.
Qed.

Lemma respondPattern_warns_on_anchor_witness :
  exists c,
    Robot.respondPattern (Robot.constructor None (Some "Bot"))
      (RegExp.mk "^foo" "i") empty_store
    = (c, push (anchor_warnings (RegExp.mk "^foo" "i")) empty_store)
    /\ ((exists re,
           c = Normal re
           /\ RegExp.flags re = RegExp.flags (RegExp.mk "^foo" "i"))
        \/ (RegExp.has_flag "u" (RegExp.mk "^foo" "i") = true
            /\ exists message, c = Throw (SyntaxError message))).
Proof.
  apply (@respondPattern_warns_on_anchor (Robot.constructor None (Some "Bot"))
           (RegExp.mk "^foo" "i") empty_store).
  reflexivity.
Defined.

(** What [respondPattern] hands to [new RegExp] when no alias is set. *)
Lemma respondPattern_plain (this : Robot.t) (regex : RegExp.t)
  (st : Store) :
  Robot.alias this = None \/ Robot.alias this = Some EmptyString ->
  RegExp.wf_flags regex = true ->
  Robot.respondPattern this regex st
  = lift (Robot.new_RegExp
            ("^\s*[@]?" ++ Robot.escape (Robot.name this)
             ++ "[:,]?\s*(?:" ++ RegExp.source regex ++ ")")
            (Some (RegExp.flags regex)))
         (push (anchor_warnings regex) st).
Proof.
  intros Halias Hwf. unfold Robot.respondPattern.
  rewrite (toString_parts regex Hwf), starts_with_anchor_split.
  unfold bind at 1. rewrite respondPattern_warnings, join_split.
  now destruct Halias as [-> | ->].
Qed.

(** X19: without an alias, and with the empty string as alias, the
    pattern that [respondPattern] builds from a regex without the flag
    [u] is the escaped bot name between the optional [@] and the optional
    [:] or [,], in front of the body pattern in a group of its own; the
    flags are those of the regex. *)
Theorem respondPattern_without_alias (this : Robot.t) (regex : RegExp.t)
  (st : Store) :
  Robot.alias this = None \/ Robot.alias this = Some EmptyString ->
  RegExp.wf_flags regex = true ->
  RegExp.has_flag "u" regex = false ->
  Robot.respondPattern this regex st
  = (Normal (RegExp.mk ("^\s*[@]?" ++ Robot.escape (Robot.name this)
                        ++ "[:,]?\s*(?:" ++ RegExp.source regex ++ ")")
                       (RegExp.flags regex)),
     push (anchor_warnings regex) st).
Proof.
  intros Halias Hwf Hu.
  rewrite (respondPattern_plain this regex st Halias Hwf).
  now rewrite (new_RegExp_accepts _ regex Hu).
Qed.

Lemma respondPattern_without_alias_witness :
  Robot.respondPattern (Robot.constructor (Some "a.b") (Some EmptyString))
    (RegExp.mk "x/y" "i") empty_store
  = (Normal (RegExp.mk ("^\s*[@]?" ++ Robot.escape "a.b"
                        ++ "[:,]?\s*(?:" ++ "x/y" ++ ")") "i"),
     push (anchor_warnings (RegExp.mk "x/y" "i")) empty_store).
Proof.
  apply (@respondPattern_without_alias
           (Robot.constructor (Some "a.b") (Some EmptyString))
           (RegExp.mk "x/y" "i") empty_store).
  - now right.
  - reflexivity.
  - reflexivity.
Defined.

(* ------------------------------------------------------------------ *)
(** * Listener helpers, end to end *)
(* ------------------------------------------------------------------ *)

Section VariantListener.

(** A robot whose only listener tests the variant of the message, as
    the listeners of [enter], [leave] and [topic] do, with a plug-in
    function as callback and no middleware or error handler. *)
Variables (p : Message.t -> bool) (this : Robot.t) (lid id : nat)
  (options : list (string * string)) (body : Response.t -> Effect).

Hypothesis Hp : forall r inner, p (Message.CatchAllMessage r inner) = false.
Hypothesis Hl :
  Robot.listeners this
  = [Listener.mk lid (fun msg => Robot.bool_value (p msg)) options
       (Plugin id body)].
Hypothesis Hmw : Robot.middleware this = Robot.mkMiddlewares [] [] [].
Hypothesis Hh : Robot.errorHandlers this = [].






End VariantListener.



(** ** [invokeErrorHandlers] of [src/robot.js] *)

Lemma forEach_push_agrees (err : Error) (res : option Response.t)
  (k : Error -> M unit) (k' : Error -> M SrcRobot.Pushed)
  (hs : list ErrorHandler) :
  forall (results : list SrcRobot.Pushed) (st : Store),
    let run :=
      forEach hs
        (fun (this_ : option Robot.t) h =>
           try_catch (call_handler h err res)
             (fun error =>
                property_of this_ "logger" (fun _ => tt) ;; k error)) st in
    SrcRobot.forEach_push hs
      (fun (this_ : option Robot.t) h =>
         try_catch
           (call_handler h err res ;;
            ret (SrcRobot.ReturnOf (eh_id h) err res))
           (fun error =>
              property_of this_ "logger" (fun _ => tt) ;; k' error))
      results st
    = (match fst run with
       | Normal _ =>
           Normal (results
                   ++ map (fun h => SrcRobot.ReturnOf (eh_id h) err res) hs)
       | Throw e => Throw e
       | Unfinished => Unfinished
       end, snd run).
Proof.
  induction hs as [|h hs IH]; intros results st; cbn zeta.
  - cbn. now rewrite app_nil_r.
  - cbn [forEach SrcRobot.forEach_push List.length map].
    unfold bind at 1 4, try_catch, call_handler, bind, record, ret.
    destruct (eh_body h err res) as [e|]; cbn; [reflexivity|].
    specialize (IH (results ++ [SrcRobot.ReturnOf (eh_id h) err res])).
    cbn zeta in IH. unfold bind, ret in IH. rewrite IH.
    now rewrite <- app_assoc.
Qed.

Lemma bind_record {A} (ev : Event) (k : M A) (st : Store) :
  (record ev ;; k) st = k (push [ev] st).
Proof. reflexivity. Qed.

(** X21: [invokeErrorHandlers] of [src/robot.js] behaves as the one of
    the complete class on every robot, report and store: the same log
    line and handler calls, the same exception if one leaves; where the
    complete class returns nothing it returns an array that holds, for
    each handler in registration order, what that handler returned from
    its call with the report and the response. *)
Theorem src_invokeErrorHandlers_agrees (this : Robot.t) (err : Error)
  (res : option Response.t) (st : Store) :
  SrcRobot.invokeErrorHandlers this err res st
  = (match fst (Robot.invokeErrorHandlers this err res st) with
     | Normal _ =>
         Normal (map (fun h => SrcRobot.ReturnOf (eh_id h) err res)
                     (Robot.errorHandlers this))
     | Throw e => Throw e
     | Unfinished => Unfinished
     end,
     snd (Robot.invokeErrorHandlers this err res st)).
Proof.
  unfold SrcRobot.invokeErrorHandlers, Robot.invokeErrorHandlers, Log.error.
  rewrite !bind_record.
  pose proof (@forEach_push_agrees err res
                (fun error =>
                   Log.error ("while invoking error handler:" ++ newline
                              ++ "          " ++ error_toString error
                              ++ newline ++ err_stack error)%string)
                (fun error =>
                   Log.error ("while invoking error handler: "
                              ++ error_toString error
                              ++ newline ++ err_stack error)%string ;;
                   ret SrcRobot.LoggerResult)
                (Robot.errorHandlers this) []
                (push [EvLog "error" (err_stack err)] st)) as H.
  cbn zeta in H. unfold Log.error in H. exact H.
Qed.

(** * External scripts *)

(** X22: given an object of packages, [loadExternalScripts] of
    [src/robot.js] loads none of them: with at least one key the first
    round of the loop raises a [TypeError] before [require] is reached,
    that of [results1.push] or, when the object owns a property
    [hasOwnProperty], that of calling it; the [catch] block logs the
    error and the process exits with code 1; with no key the call
    returns. *)
Theorem src_loadExternalScripts_object
  (require_call :
     string -> option Robot.t -> option JsValue -> Store -> ScriptEnd * Store)
  (this : Robot.t) (v : JsValue) (st : Store) :
  SrcRobotUtil.loadExternalScripts require_call this (PkgOther v) st
  = match Obj.keys v with
    | [] =>
        (Normal Returned,
         push [EvLog "debug" "Loading external-scripts from npm packages"] st)
    | _ :: _ =>
        (Normal (Exited 1),
         push [EvLog "debug" "Loading external-scripts from npm packages";
               EvLog "error"
                 ("Error loading scripts from npm package - "
                  ++ err_stack
                       (TypeError
                          (match Obj.own v "hasOwnProperty" with
                           | Some _ =>
                               "packages.hasOwnProperty is not a function"
                           | None =>
                               "Cannot read property 'push' of undefined"
                           end)))%string]
              st)
    end.
Proof.
  unfold SrcRobotUtil.loadExternalScripts, Log.debug.
  rewrite bind_record. unfold try_load.
  destruct (Obj.keys v) as [|key rest] eqn:E; [reflexivity|].
  assert (Hin : existsb (String.eqb key) (Obj.keys v) = true)
    by (rewrite E; cbn; now rewrite String.eqb_refl).
  rewrite keys_own in Hin. cbn [each_key].
  destruct v as [| | | |s|props]; try discriminate E.
  - rewrite (own_index_only s "hasOwnProperty" eq_refl).
    unfold Obj.hasOwnProperty.
    destruct (Obj.own (JsString s) key); [|discriminate Hin].
    unfold push. cbn. now rewrite <- app_assoc.
  - cbn [Obj.own] in *. unfold Obj.hasOwnProperty.
    destruct (Obj.get props "hasOwnProperty").
    + unfold push. cbn. now rewrite <- app_assoc.
    + destruct (Obj.get props key); [|discriminate Hin].
      unfold push. cbn. now rewrite <- app_assoc.
Qed.

Lemma each_package_app (callback : string -> Store -> ScriptEnd * Store)
  (before after : list string) :
  forall st st1,
    each_package before callback st = (ScriptReturned, st1) ->
    each_package (before ++ after) callback st
    = each_package after callback st1.
Proof.
  induction before as [|pkg before IH]; intros st st1 H; cbn in *.
  - now injection H as <-.
  - destruct (callback pkg st) as [[|t|] st0]; try discriminate H.
    now apply IH.
Qed.

(** X23: [loadExternalScripts] of the complete class, given an array,
    loads the packages in order up to the first one that throws.  What
    that one threw reaches the [catch] block: when its [stack] can be
    read as text, as it can of an [Error] object, the error line with
    that text is logged, the process exits with code 1, and no later
    package is loaded; when what was thrown is [null] or [undefined],
    or an object whose [stack] gives no text, reading it raises a
    [TypeError] inside the [catch] block, which leaves the function:
    nothing is logged and the process is not ended. *)
Theorem loadExternalScripts_guarded
  (require_call :
     string -> option Robot.t -> option JsValue -> Store -> ScriptEnd * Store)
  (this : Robot.t) (before after : list string) (pkg : string)
  (thrown : Thrown) (st st1 st2 : Store) :
  each_package before (fun pkg => require_call pkg (Some this) None)
    (push [EvLog "debug" "Loading external-scripts from npm packages"] st)
  = (ScriptReturned, st1) ->
  require_call pkg (Some this) None st1 = (ScriptThrew thrown, st2) ->
  RobotUtil.loadExternalScripts require_call this
    (PkgArray (before ++ pkg :: after)) st
  = match stack_text thrown with
    | Returns text =>
        (Normal (Exited 1),
         push [EvLog "error"
                 ("Error loading scripts from npm package - " ++ text)%string]
              st2)
    | Throws e => (Throw e, st2)
    end.
Proof.
  intros Hbefore Hpkg.
  unfold RobotUtil.loadExternalScripts, Log.debug.
  rewrite bind_record. unfold try_load.
  rewrite (each_package_app _ before (pkg :: after) _ Hbefore).
  cbn [each_package]. rewrite Hpkg. unfold load_failed, bind at 1.
  destruct (stack_text thrown) as [text|e]; reflexivity.
Qed.

Lemma loadExternalScripts_guarded_witness :
  RobotUtil.loadExternalScripts
    (fun (pkg : string) (_ : option Robot.t) (_ : option JsValue)
         (st : Store) =>
       (if String.eqb pkg "bad" then ScriptThrew (ThrownValue JsNull)
        else ScriptReturned,
        push [EvLog "info" pkg] st))
    (Robot.constructor None None)
    (PkgArray (["good"] ++ "bad" :: ["other"])) empty_store
  = match stack_text (ThrownValue JsNull) with
    | Returns text =>
        (Normal (Exited 1),
         push [EvLog "error"
                 ("Error loading scripts from npm package - " ++ text)%string]
              (mkStore
                 [EvLog "debug" "Loading external-scripts from npm packages";
                  EvLog "info" "good"; EvLog "info" "bad"] [] 0))
    | Throws e =>
        (Throw e,
         mkStore
           [EvLog "debug" "Loading external-scripts from npm packages";
            EvLog "info" "good"; EvLog "info" "bad"] [] 0)
    end.
Proof.
  apply (@loadExternalScripts_guarded
           (fun (pkg : string) (_ : option Robot.t) (_ : option JsValue)
                (st : Store) =>
              (if String.eqb pkg "bad" then ScriptThrew (ThrownValue JsNull)
               else ScriptReturned,
               push [EvLog "info" pkg] st))
           (Robot.constructor None None) ["good"] ["other"] "bad"
           (ThrownValue JsNull) empty_store
           (mkStore
              [EvLog "debug" "Loading external-scripts from npm packages";
               EvLog "info" "good"] [] 0)
           (mkStore
              [EvLog "debug" "Loading external-scripts from npm packages";
               EvLog "info" "good"; EvLog "info" "bad"] [] 0));
    reflexivity.
Defined.


(* ------------------------------------------------------------------ *)
(** * Messages addressed to the robot *)
(* ------------------------------------------------------------------ *)

(** ** The parser on a text that goes on after a group *)

Section ParserTail.

Import RegExp.

(** What follows the text: the parenthesis that closes the group the
    text is in, and more. *)
Variable t : list ascii.

Lemma class_atom_app (s s1 : list ascii) (a : ClassItem) :
  class_atom s = Some (a, s1) ->
  class_atom (s ++ ")"%char :: t) = Some (a, s1 ++ ")"%char :: t).
Proof.
  destruct s as [|c [|e rest]]; unfold class_atom; cbn [app];
    try discriminate.
  - destruct (ch_is c "\"); [discriminate|]. now intros [= <- <-].
  - destruct (ch_is c "\").
    + destruct (unsupported_escape e); [discriminate|]. now intros [= <- <-].
    + now intros [= <- <-].
Qed.

Lemma class_items_nil (f : nat) (acc : list ClassItem) :
  class_items f [] acc = None.
Proof. now destruct f. Qed.

Lemma class_items_one (f : nat) (d : ascii) (acc : list ClassItem)
  (r : list ClassItem * list ascii) :
  class_items f [d] acc = Some r -> ch_is d "]" = true.
Proof.
  destruct f as [|f]; [discriminate|]. cbn [class_items].
  destruct (ch_is d "]"); [reflexivity|]. unfold class_atom.
  destruct (ch_is d "\"); [discriminate|].
  now rewrite class_items_nil.
Qed.

Lemma class_items_app (f : nat) :
  forall s acc items rest,
    class_items f s acc = Some (items, rest) ->
    forall f', f <= f' ->
      class_items f' (s ++ ")"%char :: t) acc
      = Some (items, rest ++ ")"%char :: t).
Proof.
  induction f as [|f IH]; intros s acc items rest H f' Hf;
    [discriminate|].
  destruct f' as [|f']; [lia|]. assert (Hf' : f <= f') by lia.
  destruct s as [|c s0]; [discriminate|].
  cbn [class_items app] in *.
  destruct (ch_is c "]"); [now injection H as <- <-|].
  destruct (class_atom (c :: s0)) as [[a s1]|] eqn:Ea; [|discriminate].
  change (c :: s0 ++ ")"%char :: t) with ((c :: s0) ++ ")"%char :: t).
  rewrite (class_atom_app _ Ea).
  destruct a as [lo|lo hi|neg|neg|neg];
    try (now apply IH).
  destruct s1 as [|d [|e s2]].
  - now rewrite class_items_nil in H.
  - pose proof (class_items_one _ _ _ H) as Hd. cbn [app].
    assert (Hm : ch_is d "-" = false).
    { unfold ch_is in *. apply Ascii.eqb_eq in Hd. now subst d. }
    rewrite Hm. cbn [andb]. now apply (IH [d]).
  - cbn [app].
    destruct (ch_is d "-" && negb (ch_is e "]")).
    + destruct (class_atom (e :: s2)) as [[[hi| | | |] s3]|] eqn:Eb;
        try discriminate.
      change (e :: s2 ++ ")"%char :: t) with ((e :: s2) ++ ")"%char :: t).
      rewrite (class_atom_app _ Eb). now apply IH.
    + now apply (IH (d :: e :: s2)).
Qed.

Lemma quantify_app (a q : Node) (s s2 : list ascii) :
  quantify a s = (q, s2) ->
  quantify a (s ++ ")"%char :: t) = (q, s2 ++ ")"%char :: t).
Proof.
  destruct s as [|c rest]; cbn [app].
  - cbn. now intros [= <- <-].
  - unfold quantify.
    destruct (ch_is c "*"), (ch_is c "+"), (ch_is c "?");
      try (now intros [= <- <-]);
      destruct rest as [|c' rest']; cbn [app];
      try (now intros [= <- <-]);
      destruct (ch_is c' "?"); now intros [= <- <-].
Qed.

Section Inside.

(** [d'] does on the longer text what [d] does on the shorter one. *)
Variables d d' : list ascii -> option (Node * list ascii).
Hypothesis Hd :
  forall s r rest,
    d s = Some (r, rest) ->
    d' (s ++ ")"%char :: t) = Some (r, rest ++ ")"%char :: t).

Lemma closes_app (s : list ascii) (a : Node) (s1 : list ascii) :
  closes (d s) = Some (a, s1) ->
  closes (d' (s ++ ")"%char :: t)) = Some (a, s1 ++ ")"%char :: t).
Proof.
  unfold closes.
  destruct (d s) as [[r [|c rest]]|] eqn:E; try discriminate.
  destruct (ch_is c ")") eqn:Ec; [|discriminate]. intros [= <- <-].
  rewrite (Hd E). cbn [app]. now rewrite Ec.
Qed.

Lemma class_of_app (neg : bool) (s : list ascii) (a : Node)
  (s1 : list ascii) :
  class_of neg s = Some (a, s1) ->
  class_of neg (s ++ ")"%char :: t) = Some (a, s1 ++ ")"%char :: t).
Proof.
  unfold class_of.
  destruct (class_items (S (List.length s)) s []) as [[items rest]|] eqn:E;
    [|discriminate].
  intros [= <- <-].
  rewrite (@class_items_app _ _ _ _ _ E
             (S (List.length (s ++ ")"%char :: t))));
    [reflexivity|].
  rewrite length_app. lia.
Qed.

Lemma atom_app (s : list ascii) (a : Node) (s1 : list ascii) :
  atom d s = Some (a, s1) ->
  atom d' (s ++ ")"%char :: t) = Some (a, s1 ++ ")"%char :: t).
Proof.
  destruct s as [|c rest]; [discriminate|]. unfold atom. cbn [app].
  destruct (ch_is c "(").
  { destruct rest as [|q rest1]; [discriminate|]. cbn [app].
    destruct (ch_is q "?").
    - destruct rest1 as [|k rest2]; [discriminate|]. cbn [app].
      destruct (ch_is k ":"); [apply closes_app|discriminate].
    - apply (closes_app (q :: rest1)). }
  destruct (ch_is c "[").
  { destruct rest as [|n rest1]; [discriminate|]. cbn [app].
    destruct (ch_is n "^"); [apply class_of_app|].
    apply (class_of_app false (n :: rest1)). }
  destruct (ch_is c "\").
  { destruct rest as [|e rest1]; [discriminate|]. cbn [app].
    destruct (unsupported_escape e); [discriminate|].
    now intros [= <- <-]. }
  destruct (ch_is c "."); [now intros [= <- <-]|].
  destruct (ch_is c "^"); [now intros [= <- <-]|].
  destruct (ch_is c "$"); [now intros [= <- <-]|].
  destruct (existsb (ch_is c) ["*"; "+"; "?"; "{"; ")"; "|"]);
    [discriminate|].
  now intros [= <- <-].
Qed.

Lemma alternative_app (n : nat) :
  forall s r rest,
    alternative d n s = Some (r, rest) ->
    forall n', n <= n' ->
      alternative d' n' (s ++ ")"%char :: t)
      = Some (r, rest ++ ")"%char :: t).
Proof.
  induction n as [|n IH]; intros s r rest H n' Hn; [discriminate|].
  destruct n' as [|n']; [lia|]. assert (Hn' : n <= n') by lia.
  destruct s as [|c s0].
  - cbn in H. injection H as <- <-. reflexivity.
  - cbn [alternative app] in *.
    destruct (ch_is c "|" || ch_is c ")"); [now injection H as <- <-|].
    destruct (atom d (c :: s0)) as [[a s1]|] eqn:Ea; [|discriminate].
    change (c :: s0 ++ ")"%char :: t) with ((c :: s0) ++ ")"%char :: t).
    rewrite (atom_app _ Ea).
    destruct (quantify a s1) as [q s2] eqn:Eq.
    rewrite (quantify_app _ _ Eq).
    destruct (alternative d n s2) as [[r' s3]|] eqn:Er; [|discriminate].
    injection H as <- <-.
    now rewrite (IH _ _ _ Er n' Hn').
Qed.

End Inside.

Lemma disjunction_app (f : nat) :
  forall s r rest,
    disjunction f s = Some (r, rest) ->
    forall f', f <= f' ->
      disjunction f' (s ++ ")"%char :: t)
      = Some (r, rest ++ ")"%char :: t).
Proof.
  induction f as [|f IH]; intros s r rest H f' Hf; [discriminate|].
  destruct f' as [|f']; [lia|]. assert (Hf' : f <= f') by lia.
  cbn [disjunction] in *.
  destruct (alternative (disjunction f) (S (List.length s)) s)
    as [[a s1]|] eqn:Ea; [|discriminate].
  assert (Hd : forall s r rest,
             disjunction f s = Some (r, rest) ->
             disjunction f' (s ++ ")"%char :: t)
             = Some (r, rest ++ ")"%char :: t))
    by (intros s' r' rest' H'; now apply (IH _ _ _ H')).
  rewrite (@alternative_app _ _ Hd _ _ _ _ Ea
             (S (List.length (s ++ ")"%char :: t))))
    by (rewrite length_app; lia).
  destruct s1 as [|c s2].
  - injection H as <- <-. reflexivity.
  - cbn [app]. destruct (ch_is c "|"); [|now injection H as <- <-].
    destruct (disjunction f s2) as [[b rest']|] eqn:Eb; [|discriminate].
    injection H as <- <-. now rewrite (Hd _ _ _ Eb).
Qed.

End ParserTail.

(** ** The pattern of [respondPattern], parsed *)

Section RespondParse.

Import RegExp.

Lemma list_ascii_app (a b : string) :
  list_ascii_of_string (a ++ b)
  = list_ascii_of_string a ++ list_ascii_of_string b.
Proof. induction a as [|c a IH]; cbn; [reflexivity|now rewrite IH]. Qed.

Lemma escape_head_app (s : string) (tail : list ascii) :
  head_not_quantifier tail = true ->
  head_not_quantifier (list_ascii_of_string (Robot.escape s) ++ tail) = true.
Proof.
  intros H. destruct s as [|c s]; [exact H|].
  cbn [Robot.escape]. destruct (Robot.special c) eqn:E; [reflexivity|].
  cbn. now apply plain_atom.
Qed.

(** The escaped text in front of more pattern text. *)
Lemma alternative_escape_tail
  (d : list ascii -> option (Node * list ascii)) (tail : list ascii)
  (s : string) :
  head_not_quantifier tail = true ->
  forall n,
    alternative d (String.length s + n)
      (list_ascii_of_string (Robot.escape s) ++ tail)
    = match alternative d n tail with
      | Some (r, rest) => Some (literal_then s r, rest)
      | None => None
      end.
Proof.
  intros Htail. induction s as [|c s IH]; intros n.
  - cbn. now destruct (alternative d n tail) as [[r rest]|].
  - cbn [String.length Nat.add Robot.escape].
    destruct (Robot.special c) eqn:E.
    + destruct (special_escaped c E) as [Hu Hi].
      cbn [list_ascii_of_string app alternative].
      replace (ch_is "\" "|" || ch_is "\" ")") with false by reflexivity.
      replace (atom d ("\"%char :: c
                       :: list_ascii_of_string (Robot.escape s) ++ tail))
        with (Some (Chr c, list_ascii_of_string (Robot.escape s) ++ tail)).
      * rewrite quantify_skip by now apply escape_head_app.
        rewrite IH. now destruct (alternative d n tail) as [[r rest]|].
      * unfold atom.
        replace (ch_is "\" "(") with false by reflexivity.
        replace (ch_is "\" "[") with false by reflexivity.
        replace (ch_is "\" "\") with true by reflexivity.
        now rewrite Hu, Hi.
    + destruct (plain_atom c E) as [Ha [Hb _]].
      cbn [list_ascii_of_string app alternative].
      rewrite Hb, Ha, quantify_skip by now apply escape_head_app.
      rewrite IH. now destruct (alternative d n tail) as [[r rest]|].
Qed.

Lemma alternative_here
  (d : list ascii -> option (Node * list ascii)) (n : nat)
  (s s1 s2 : list ascii) (a q : Node) :
  match s with
  | c :: _ => ch_is c "|" || ch_is c ")" = false
  | [] => False
  end ->
  atom d s = Some (a, s1) ->
  quantify a s1 = (q, s2) ->
  alternative d (S n) s
  = match alternative d n s2 with
    | Some (r, rest) => Some (Seq q r, rest)
    | None => None
    end.
Proof.
  intros Hc Ha Hq. destruct s as [|c s0]; [contradiction|].
  cbn [alternative]. now rewrite Hc, Ha, Hq.
Qed.

(** The body pattern in its group, at the end of the pattern. *)
Lemma alternative_body
  (d : list ascii -> option (Node * list ascii)) (n : nat)
  (src : list ascii) (body : Node) :
  d (src ++ [")"%char]) = Some (body, [")"%char]) ->
  alternative d (S (S n)) ("("%char :: "?"%char :: ":"%char :: src ++ [")"%char])
  = Some (Seq body Empty, []).
Proof.
  intros Hd.
  rewrite (@alternative_here d (S n) _ [] [] body body);
    [reflexivity|reflexivity| |reflexivity].
  unfold atom. cbn [ch_is]. cbn. now rewrite Hd.
Qed.

Lemma alternative_suffix
  (d : list ascii -> option (Node * list ascii)) (n : nat)
  (src : list ascii) (body : Node) :
  d (src ++ [")"%char]) = Some (body, [")"%char]) ->
  alternative d (S (S (S (S n))))
    ("["%char :: ":"%char :: ","%char :: "]"%char :: "?"%char
     :: "\"%char :: "s"%char :: "*"%char
     :: "("%char :: "?"%char :: ":"%char :: src ++ [")"%char])
  = Some (Seq separator (Seq blanks (Seq body Empty)), []).
Proof.
  intros Hd.
  rewrite (@alternative_here d (S (S (S n))) _
             ("?"%char :: "\"%char :: "s"%char :: "*"%char
              :: "("%char :: "?"%char :: ":"%char :: src ++ [")"%char])
             ("\"%char :: "s"%char :: "*"%char
              :: "("%char :: "?"%char :: ":"%char :: src ++ [")"%char])
             (Class false [CChar ":"; CChar ","]) separator);
    [|reflexivity|reflexivity|reflexivity].
  rewrite (@alternative_here d (S (S n)) _
             ("*"%char :: "("%char :: "?"%char :: ":"%char
              :: src ++ [")"%char])
             ("("%char :: "?"%char :: ":"%char :: src ++ [")"%char])
             (Class false [CSpace false]) blanks);
    [|reflexivity|reflexivity|reflexivity].
  now rewrite (@alternative_body d n src body Hd).
Qed.

Lemma alternative_respond
  (d : list ascii -> option (Node * list ascii)) (n : nat)
  (name : string) (src : list ascii) (body : Node) :
  d (src ++ [")"%char]) = Some (body, [")"%char]) ->
  alternative d (3 + (String.length name + (4 + n)))
    (list_ascii_of_string "^\s*[@]?"
     ++ list_ascii_of_string (Robot.escape name)
     ++ list_ascii_of_string "[:,]?\s*(?:" ++ src ++ [")"%char])
  = Some (respond_node name body, []).
Proof.
  intros Hd. cbn [list_ascii_of_string app Nat.add].
  set (tail := "["%char :: ":"%char :: ","%char :: "]"%char :: "?"%char
               :: "\"%char :: "s"%char :: "*"%char
               :: "("%char :: "?"%char :: ":"%char :: src ++ [")"%char]).
  set (escaped := list_ascii_of_string (Robot.escape name) ++ tail).
  rewrite (@alternative_here d _ _
             ("\"%char :: "s"%char :: "*"%char :: "["%char :: "@"%char
              :: "]"%char :: "?"%char :: escaped)
             ("\"%char :: "s"%char :: "*"%char :: "["%char :: "@"%char
              :: "]"%char :: "?"%char :: escaped)
             Bol Bol);
    [|reflexivity|reflexivity|reflexivity].
  rewrite (@alternative_here d _ _
             ("*"%char :: "["%char :: "@"%char :: "]"%char :: "?"%char
              :: escaped)
             ("["%char :: "@"%char :: "]"%char :: "?"%char :: escaped)
             (Class false [CSpace false]) blanks);
    [|reflexivity|reflexivity|reflexivity].
  rewrite (@alternative_here d _ _
             ("?"%char :: escaped) escaped
             (Class false [CChar "@"]) at_sign);
    [|reflexivity|reflexivity|].
  - unfold escaped.
    rewrite (@alternative_escape_tail d tail name eq_refl).
    unfold tail. now rewrite (@alternative_suffix d n src body Hd).
  - unfold quantify. cbn [ch_is]. cbn.
    pose proof (@escape_head_app name tail eq_refl) as Hh.
    fold escaped in Hh. destruct escaped as [|c rest]; [reflexivity|].
    unfold head_not_quantifier, not_quantifier in Hh.
    apply negb_true_iff, orb_false_iff in Hh as [_ Hh].
    unfold ch_is in Hh. now rewrite Hh.
Qed.

Lemma parse_respond (name src : string) (body : Node) :
  parse src = Some body ->
  parse ("^\s*[@]?" ++ Robot.escape name ++ "[:,]?\s*(?:" ++ src ++ ")")
  = Some (respond_node name body).
Proof.
  unfold parse. intros H.
  destruct (disjunction (S (List.length (list_ascii_of_string src)))
              (list_ascii_of_string src)) as [[r [|c rest]]|] eqn:E;
    try discriminate H.
  injection H as ->.
  rewrite !list_ascii_app.
  change (list_ascii_of_string ")") with [")"%char].
  set (s := list_ascii_of_string "^\s*[@]?"
            ++ list_ascii_of_string (Robot.escape name)
            ++ list_ascii_of_string "[:,]?\s*(?:"
            ++ list_ascii_of_string src ++ [")"%char]).
  assert (Hlen : exists n,
             S (List.length s)
             = 3 + (String.length name + (4 + n))
             /\ S (List.length (list_ascii_of_string src))
                <= List.length s).
  { exists (List.length s - 6 - String.length name).
    unfold s. rewrite !length_app. cbn [List.length list_ascii_of_string].
    pose proof (escape_length name). lia. }
  destruct Hlen as (n & Hn & Hsrc).
  cbn [disjunction]. rewrite Hn.
  unfold s at 2.
  rewrite (@alternative_respond (disjunction (List.length s)) n name
             (list_ascii_of_string src) body);
    [reflexivity|].
  apply (@disjunction_app [] _ _ _ _ E _ Hsrc).
Qed.

End RespondParse.

(** ** Matching an addressed message *)

Section RespondMatch.

Import RegExp.

Variables ignoreCase multiline : bool.

Lemma last_char_app (p : option ascii) (a b : list ascii) :
  last_char p (a ++ b) = last_char (last_char p a) b.
Proof.
  revert p. induction a as [|c a IH]; intros p; cbn; [reflexivity|apply IH].
Qed.

Lemma reach_seq (a b : Node) (x y z : Pos) :
  In y (reach ignoreCase multiline a x) ->
  In z (reach ignoreCase multiline b y) ->
  In z (reach ignoreCase multiline (Seq a b) x).
Proof.
  intros Hy Hz. cbn [reach]. apply in_flat_map. now exists y.
Qed.

Lemma reach_star_here (a : Node) (x : Pos) :
  In x (reach ignoreCase multiline (Star a) x).
Proof.
  cbn [reach]. destruct (List.length (rest x)); now left.
Qed.

Lemma reach_star_step (a : Node) (p : option ascii) (c : ascii)
  (tl : list ascii) :
  reach ignoreCase multiline a (pos p (c :: tl)) = [pos (Some c) tl] ->
  reach ignoreCase multiline (Star a) (pos p (c :: tl))
  = pos p (c :: tl) :: reach ignoreCase multiline (Star a) (pos (Some c) tl).
Proof.
  intros H. cbn [reach rest List.length]. cbn [flat_map app].
  rewrite H. cbn [app]. reflexivity.
Qed.

Lemma reach_blanks (ws : list ascii) :
  forallb Js.is_space ws = true ->
  forall p tail,
    In (pos (last_char p ws) tail)
       (reach ignoreCase multiline blanks (pos p (ws ++ tail))).
Proof.
  induction ws as [|c ws IH]; intros Hws p tail.
  - apply reach_star_here.
  - cbn [forallb] in Hws. apply andb_true_iff in Hws as [Hc Hws].
    unfold blanks in *. cbn [app last_char].
    rewrite reach_star_step; [right; now apply IH|].
    cbn [reach eat rest]. unfold class_has. cbn [existsb item_has xorb].
    now rewrite Hc.
Qed.

Lemma reach_literal_then (s : string) (r : Node) (z : Pos) :
  forall p tail,
    In z (reach ignoreCase multiline r
            (pos (last_char p (list_ascii_of_string s)) tail)) ->
    In z (reach ignoreCase multiline (literal_then s r)
            (pos p (list_ascii_of_string s ++ tail))).
Proof.
  induction s as [|c s IH]; intros p tail H; [exact H|].
  cbn [literal_then list_ascii_of_string app reach rest eat].
  unfold same_char. rewrite Ascii.eqb_refl.
  cbn [flat_map]. rewrite app_nil_r. apply IH. exact H.
Qed.

Lemma reach_at_sign (at_ : list ascii) (r : Node) (z : Pos) :
  at_ = [] \/ at_ = ["@"%char] ->
  forall p tail,
    In z (reach ignoreCase multiline r (pos (last_char p at_) tail)) ->
    In z (reach ignoreCase multiline (Seq at_sign r) (pos p (at_ ++ tail))).
Proof.
  intros [-> | ->] p tail H; cbn [last_char app] in *.
  - eapply reach_seq; [|exact H]. now left.
  - eapply reach_seq; [|exact H]. right. now left.
Qed.

Lemma reach_separator (sep : list ascii) (r : Node) (z : Pos) :
  sep = [] \/ sep = [":"%char] \/ sep = [","%char] ->
  forall p tail,
    In z (reach ignoreCase multiline r (pos (last_char p sep) tail)) ->
    In z (reach ignoreCase multiline (Seq separator r)
            (pos p (sep ++ tail))).
Proof.
  intros [-> | [-> | ->]] p tail H; cbn [last_char app] in *.
  - eapply reach_seq; [|exact H]. now left.
  - eapply reach_seq; [|exact H]. right. now left.
  - eapply reach_seq; [|exact H]. right. now left.
Qed.

(** The pattern of [respondPattern] on an addressed message. *)
Lemma reach_respond (name : string) (body : Node)
  (ws1 at_ sep ws2 text : list ascii) (z : Pos) :
  forallb Js.is_space ws1 = true ->
  forallb Js.is_space ws2 = true ->
  at_ = [] \/ at_ = ["@"%char] ->
  sep = [] \/ sep = [":"%char] \/ sep = [","%char] ->
  In z (reach ignoreCase multiline body
          (pos (last_char None
                  (ws1 ++ at_ ++ list_ascii_of_string name ++ sep ++ ws2))
               text)) ->
  In z (reach ignoreCase multiline (respond_node name body)
          (pos None
             (ws1 ++ at_ ++ list_ascii_of_string name ++ sep ++ ws2
              ++ text))).
Proof.
  intros H1 H2 Hat Hsep Hz. rewrite !last_char_app in Hz.
  unfold respond_node.
  eapply reach_seq; [now left|].
  eapply reach_seq; [now apply reach_blanks|].
  apply reach_at_sign; [exact Hat|].
  apply reach_literal_then.
  apply reach_separator; [exact Hsep|].
  eapply reach_seq; [now apply reach_blanks|].
  eapply reach_seq; [exact Hz|]. now left.
Qed.

Lemma search_at_start (r : Node) (s : string) (z : Pos) :
  In z (reach ignoreCase multiline r (pos None (list_ascii_of_string s))) ->
  search ignoreCase multiline r s = true.
Proof.
  intros H. unfold search.
  assert (Hn : negb (List.length
                       (reach ignoreCase multiline r
                          (pos None (list_ascii_of_string s))) =? 0)
               = true).
  { destruct (reach ignoreCase multiline r
                (pos None (list_ascii_of_string s)));
      [destruct H|reflexivity]. }
  destruct (list_ascii_of_string s); cbn [starts existsb]; now rewrite Hn.
Qed.

End RespondMatch.

(** X24: on a robot without alias, the pattern that [respondPattern]
    builds matches every message that addresses the robot: optional
    white space, an optional [@], the bot name as it is written, an
    optional [:] or [,], optional white space, and then a text that the
    body pattern matches at that position.  This holds for every bot
    name, every body pattern of the modelled syntax and every set of
    flags without [u]. *)
Theorem respond_matches_addressed (this : Robot.t) (regex : RegExp.t)
  (st : Store) (ws1 at_ sep ws2 text : string) :
  Robot.alias this = None \/ Robot.alias this = Some EmptyString ->
  RegExp.wf_flags regex = true ->
  RegExp.has_flag "u" regex = false ->
  blank ws1 = true ->
  blank ws2 = true ->
  at_ = EmptyString \/ at_ = "@" ->
  sep = EmptyString \/ sep = ":" \/ sep = "," ->
  test_at regex (ws1 ++ at_ ++ Robot.name this ++ sep ++ ws2) text
  = Some true ->
  exists re st',
    Robot.respondPattern this regex st = (Normal re, st')
    /\ RegExp.test re
         ((ws1 ++ at_ ++ Robot.name this ++ sep ++ ws2) ++ text)
       = Some true.
Proof.
  intros Halias Hwf Hu H1 H2 Hat Hsep Hbody.
  rewrite (respondPattern_plain this regex st Halias Hwf).
  rewrite (new_RegExp_accepts _ regex Hu).
  eexists _, _. split; [reflexivity|].
  unfold test_at in Hbody. unfold RegExp.test. cbn [RegExp.source].
  destruct (RegExp.parse (RegExp.source regex)) as [body|] eqn:Eb;
    [|discriminate Hbody].
  rewrite (parse_respond (Robot.name this) _ Eb).
  injection Hbody as Hbody. apply negb_true_iff, Nat.eqb_neq in Hbody.
  match type of Hbody with
  | List.length ?l <> 0 => destruct l as [|z zs] eqn:Ez; [now contradiction Hbody|]
  end.
  f_equal.
  apply (@search_at_start _ _ _ _ z).
  rewrite !list_ascii_app in *.
  rewrite <- !app_assoc.
  apply reach_respond.
  - exact H1.
  - exact H2.
  - destruct Hat as [-> | ->]; [now left|now right].
  - destruct Hsep as [-> | [-> | ->]]; auto.
  - change (RegExp.has_flag "i"
              {| RegExp.source := _; RegExp.flags := RegExp.flags regex |})
      with (RegExp.has_flag "i" regex).
    change (RegExp.has_flag "m"
              {| RegExp.source := _; RegExp.flags := RegExp.flags regex |})
      with (RegExp.has_flag "m" regex).
    rewrite Ez. now left.
Qed.

Lemma respond_matches_addressed_witness :
  exists re st',
    Robot.respondPattern (Robot.constructor (Some "R2-D2") None)
      (RegExp.mk "open (.*) doors?" "i") empty_store
    = (Normal re, st')
    /\ RegExp.test re
         ((" " ++ "@" ++ "R2-D2" ++ ":" ++ "  ") ++ "Open the pod doors")
       = Some true.
Proof.
  apply (@respond_matches_addressed
           (Robot.constructor (Some "R2-D2") None)
           (RegExp.mk "open (.*) doors?" "i") empty_store
           " " "@" ":" "  " "Open the pod doors").
  - now left.
  - reflexivity.
  - reflexivity.
  - reflexivity.
  - reflexivity.
  - now right.
  - right. now left.
  - vm_compute. reflexivity.
Defined.

(** ** With an alias *)

Section RespondAlias.

Import RegExp.

(** One branch of the alternation of name and alias, up to the bar or
    the closing parenthesis. *)
Lemma alternative_branch
  (d : list ascii -> option (Node * list ascii)) (n : nat) (who : string)
  (c : ascii) (tail : list ascii) :
  ch_is c "|" || ch_is c ")" = true ->
  alternative d (String.length who + S (S n))
    (list_ascii_of_string (Robot.escape who)
     ++ "["%char :: ":"%char :: ","%char :: "]"%char :: "?"%char
     :: c :: tail)
  = Some (literal_then who (Seq separator Empty), c :: tail).
Proof.
  intros Hc.
  rewrite (@alternative_escape_tail d
             ("["%char :: ":"%char :: ","%char :: "]"%char :: "?"%char
              :: c :: tail) who eq_refl).
  rewrite (@alternative_here d (S n) _ ("?"%char :: c :: tail) (c :: tail)
             (Class false [CChar ":"; CChar ","]) separator);
    [|reflexivity|reflexivity|].
  - cbn [alternative]. now rewrite Hc.
  - assert (Hq : Ascii.eqb c "?"%char = false).
    { revert Hc. unfold ch_is.
      destruct (Ascii.eqb_spec c "?"%char) as [->|_];
        [discriminate|reflexivity]. }
    unfold quantify. cbn [ch_is]. cbn. now rewrite Hq.
Qed.

Lemma escape_fuel (who : string) (c1 c2 : ascii) (tail : list ascii) :
  exists n,
    S (List.length (list_ascii_of_string (Robot.escape who)
                    ++ c1 :: c2 :: tail))
    = String.length who + S (S n).
Proof.
  exists (List.length (list_ascii_of_string (Robot.escape who))
          - String.length who + List.length tail + 1).
  rewrite length_app. cbn [List.length].
  pose proof (escape_length who). lia.
Qed.

Lemma disjunction_names (f : nat) (a b : string) (tail : list ascii) :
  disjunction (S (S f))
    (list_ascii_of_string (Robot.escape a)
     ++ "["%char :: ":"%char :: ","%char :: "]"%char :: "?"%char
     :: "|"%char
     :: list_ascii_of_string (Robot.escape b)
     ++ "["%char :: ":"%char :: ","%char :: "]"%char :: "?"%char
     :: ")"%char :: tail)
  = Some (Alt (literal_then a (Seq separator Empty))
              (literal_then b (Seq separator Empty)),
          ")"%char :: tail).
Proof.
  cbn [disjunction].
  destruct (escape_fuel a "["%char ":"%char
              (","%char :: "]"%char :: "?"%char :: "|"%char
               :: list_ascii_of_string (Robot.escape b)
               ++ "["%char :: ":"%char :: ","%char :: "]"%char :: "?"%char
               :: ")"%char :: tail)) as [n ->].
  rewrite alternative_branch by reflexivity.
  replace (ch_is "|" "|") with true by reflexivity.
  destruct (escape_fuel b "["%char ":"%char
              (","%char :: "]"%char :: "?"%char
               :: ")"%char :: tail)) as [n' ->].
  rewrite alternative_branch by reflexivity.
  reflexivity.
Qed.

Lemma alternative_respond_alias (f n : nat) (a b : string)
  (src : list ascii) (body : Node) :
  disjunction (S (S f)) (src ++ [")"%char]) = Some (body, [")"%char]) ->
  alternative (disjunction (S (S f))) (S (S (S (S (S (S (S n)))))))
    (list_ascii_of_string "^\s*[@]?(?:"
     ++ list_ascii_of_string (Robot.escape a)
     ++ list_ascii_of_string "[:,]?|"
     ++ list_ascii_of_string (Robot.escape b)
     ++ list_ascii_of_string "[:,]?)\s*(?:" ++ src ++ [")"%char])
  = Some (respond_alias_node a b body, []).
Proof.
  intros Hd. cbn [list_ascii_of_string app Nat.add].
  set (tail := "\"%char :: "s"%char :: "*"%char
               :: "("%char :: "?"%char :: ":"%char :: src ++ [")"%char]).
  set (names := list_ascii_of_string (Robot.escape a)
                ++ "["%char :: ":"%char :: ","%char :: "]"%char :: "?"%char
                :: "|"%char
                :: list_ascii_of_string (Robot.escape b)
                ++ "["%char :: ":"%char :: ","%char :: "]"%char :: "?"%char
                :: ")"%char :: tail).
  rewrite (@alternative_here _ _ _
             ("\"%char :: "s"%char :: "*"%char :: "["%char :: "@"%char
              :: "]"%char :: "?"%char
              :: "("%char :: "?"%char :: ":"%char :: names)
             ("\"%char :: "s"%char :: "*"%char :: "["%char :: "@"%char
              :: "]"%char :: "?"%char
              :: "("%char :: "?"%char :: ":"%char :: names)
             Bol Bol);
    [|reflexivity|reflexivity|reflexivity].
  rewrite (@alternative_here _ _ _
             ("*"%char :: "["%char :: "@"%char :: "]"%char :: "?"%char
              :: "("%char :: "?"%char :: ":"%char :: names)
             ("["%char :: "@"%char :: "]"%char :: "?"%char
              :: "("%char :: "?"%char :: ":"%char :: names)
             (Class false [CSpace false]) blanks);
    [|reflexivity|reflexivity|reflexivity].
  rewrite (@alternative_here _ _ _
             ("?"%char :: "("%char :: "?"%char :: ":"%char :: names)
             ("("%char :: "?"%char :: ":"%char :: names)
             (Class false [CChar "@"]) at_sign);
    [|reflexivity|reflexivity|reflexivity].
  rewrite (@alternative_here _ _ _ tail tail
             (Alt (literal_then a (Seq separator Empty))
                  (literal_then b (Seq separator Empty)))
             (Alt (literal_then a (Seq separator Empty))
                  (literal_then b (Seq separator Empty))));
    [|reflexivity| |reflexivity].
  - unfold tail.
    rewrite (@alternative_here _ _ _
               ("*"%char :: "("%char :: "?"%char :: ":"%char
                :: src ++ [")"%char])
               ("("%char :: "?"%char :: ":"%char :: src ++ [")"%char])
               (Class false [CSpace false]) blanks);
      [|reflexivity|reflexivity|reflexivity].
    now rewrite (@alternative_body _ n src body Hd).
  - transitivity (closes (disjunction (S (S f)) names)); [reflexivity|].
    unfold names. now rewrite disjunction_names.
Qed.

Lemma parse_respond_alias (a b src : string) (body : Node) :
  parse src = Some body ->
  parse ("^\s*[@]?(?:" ++ Robot.escape a ++ "[:,]?|" ++ Robot.escape b
         ++ "[:,]?)\s*(?:" ++ src ++ ")")
  = Some (respond_alias_node a b body).
Proof.
  unfold parse. intros H.
  destruct (disjunction (S (List.length (list_ascii_of_string src)))
              (list_ascii_of_string src)) as [[r [|c rest]]|] eqn:E;
    try discriminate H.
  injection H as ->.
  rewrite !list_ascii_app.
  change (list_ascii_of_string ")") with [")"%char].
  set (s := list_ascii_of_string "^\s*[@]?(?:"
            ++ list_ascii_of_string (Robot.escape a)
            ++ list_ascii_of_string "[:,]?|"
            ++ list_ascii_of_string (Robot.escape b)
            ++ list_ascii_of_string "[:,]?)\s*(?:"
            ++ list_ascii_of_string src ++ [")"%char]).
  assert (Hlen : exists f n,
             List.length s = S (S f)
             /\ S (List.length s) = S (S (S (S (S (S (S n))))))
             /\ S (List.length (list_ascii_of_string src))
                <= List.length s).
  { exists (List.length s - 2), (List.length s - 6).
    unfold s. rewrite !length_app. cbn [List.length list_ascii_of_string].
    lia. }
  destruct Hlen as (f & n & Hf & Hn & Hsrc).
  cbn [disjunction]. rewrite Hn, Hf.
  unfold s.
  rewrite (@alternative_respond_alias f n a b
             (list_ascii_of_string src) body);
    [reflexivity|].
  rewrite <- Hf.
  apply (@disjunction_app [] _ _ _ _ E _ Hsrc).
Qed.

Variables ignoreCase multiline : bool.

Lemma reach_names (a b who : string) (sep : list ascii) (r : Node)
  (z : Pos) :
  who = a \/ who = b ->
  sep = [] \/ sep = [":"%char] \/ sep = [","%char] ->
  forall p tail,
    In z (reach ignoreCase multiline r
            (pos (last_char p (list_ascii_of_string who ++ sep)) tail)) ->
    In z (reach ignoreCase multiline
            (Seq (Alt (literal_then a (Seq separator Empty))
                      (literal_then b (Seq separator Empty))) r)
            (pos p (list_ascii_of_string who ++ sep ++ tail))).
Proof.
  intros Hwho Hsep p tail H. rewrite last_char_app in H.
  eapply reach_seq; [|exact H].
  cbn [reach]. apply in_or_app.
  destruct Hwho as [-> | ->]; [left|right];
    apply reach_literal_then, reach_separator; try exact Hsep; now left.
Qed.

Lemma reach_respond_alias (a b who : string) (body : Node)
  (ws1 at_ sep ws2 text : list ascii) (z : Pos) :
  who = a \/ who = b ->
  forallb Js.is_space ws1 = true ->
  forallb Js.is_space ws2 = true ->
  at_ = [] \/ at_ = ["@"%char] ->
  sep = [] \/ sep = [":"%char] \/ sep = [","%char] ->
  In z (reach ignoreCase multiline body
          (pos (last_char None
                  (ws1 ++ at_ ++ list_ascii_of_string who ++ sep ++ ws2))
               text)) ->
  In z (reach ignoreCase multiline (respond_alias_node a b body)
          (pos None
             (ws1 ++ at_ ++ list_ascii_of_string who ++ sep ++ ws2
              ++ text))).
Proof.
  intros Hwho H1 H2 Hat Hsep Hz.
  rewrite !last_char_app in Hz.
  unfold respond_alias_node.
  eapply reach_seq; [now left|].
  eapply reach_seq; [now apply reach_blanks|].
  apply reach_at_sign; [exact Hat|].
  apply reach_names; [exact Hwho|exact Hsep|].
  rewrite last_char_app.
  eapply reach_seq; [now apply reach_blanks|].
  eapply reach_seq; [exact Hz|]. now left.
Qed.

End RespondAlias.

(** X25: on a robot with an alias, the pattern that [respondPattern]
    builds matches every message that addresses the robot by its name
    or by its alias: optional white space, an optional [@], the name or
    the alias as it is written, an optional [:] or [,], optional white
    space, and then a text that the body pattern matches at that
    position.  This holds for every set of flags without [u]. *)
Theorem respond_matches_name_and_alias (this : Robot.t) (regex : RegExp.t)
  (st : Store) (alias_ who ws1 at_ sep ws2 text : string) :
  Robot.alias this = Some alias_ ->
  alias_ <> EmptyString ->
  who = Robot.name this \/ who = alias_ ->
  RegExp.wf_flags regex = true ->
  RegExp.has_flag "u" regex = false ->
  blank ws1 = true ->
  blank ws2 = true ->
  at_ = EmptyString \/ at_ = "@" ->
  sep = EmptyString \/ sep = ":" \/ sep = "," ->
  test_at regex (ws1 ++ at_ ++ who ++ sep ++ ws2) text = Some true ->
  exists re st',
    Robot.respondPattern this regex st = (Normal re, st')
    /\ RegExp.test re ((ws1 ++ at_ ++ who ++ sep ++ ws2) ++ text)
       = Some true.
Proof.
  intros Halias Hne Hwho Hwf Hu H1 H2 Hat Hsep Hbody.
  destruct (respondPattern_alias this regex st Halias Hne Hwf) as [st' E].
  cbv zeta in E. rewrite (new_RegExp_accepts _ regex Hu) in E.
  eexists _, st'. split; [exact E|].
  unfold test_at in Hbody. unfold RegExp.test. cbn [RegExp.source].
  destruct (RegExp.parse (RegExp.source regex)) as [body|] eqn:Eb;
    [|discriminate Hbody].
  injection Hbody as Hbody. apply negb_true_iff, Nat.eqb_neq in Hbody.
  match type of Hbody with
  | List.length ?l <> 0 =>
      destruct l as [|z zs] eqn:Ez; [now contradiction Hbody|]
  end.
  assert (Hz : In z (RegExp.reach (RegExp.has_flag "i" regex)
                       (RegExp.has_flag "m" regex) body
                       (RegExp.pos
                          (last_char None
                             (list_ascii_of_string ws1
                              ++ list_ascii_of_string at_
                              ++ list_ascii_of_string who
                              ++ list_ascii_of_string sep
                              ++ list_ascii_of_string ws2))
                          (list_ascii_of_string text)))).
  { rewrite !list_ascii_app in Ez. rewrite Ez. now left. }
  assert (Hat' : list_ascii_of_string at_ = []
                 \/ list_ascii_of_string at_ = ["@"%char])
    by (destruct Hat as [-> | ->]; [now left|now right]).
  assert (Hsep' : list_ascii_of_string sep = []
                  \/ list_ascii_of_string sep = [":"%char]
                  \/ list_ascii_of_string sep = [","%char])
    by (destruct Hsep as [-> | [-> | ->]]; auto).
  destruct (Js.length (Robot.escape alias_)
            <? Js.length (Robot.escape (Robot.name this))).
  - rewrite (parse_respond_alias (Robot.name this) alias_ _ Eb).
    f_equal. apply (@search_at_start _ _ _ _ z).
    rewrite !list_ascii_app, <- !app_assoc.
    apply reach_respond_alias; auto.
  - rewrite (parse_respond_alias alias_ (Robot.name this) _ Eb).
    f_equal. apply (@search_at_start _ _ _ _ z).
    rewrite !list_ascii_app, <- !app_assoc.
    apply reach_respond_alias; auto.
    destruct Hwho; auto.
Qed.

Lemma respond_matches_name_and_alias_witness :
  exists re st',
    Robot.respondPattern (Robot.constructor (Some "R2-D2") (Some "/"))
      (RegExp.mk "open (.*) doors?" "i") empty_store
    = (Normal re, st')
    /\ RegExp.test re
         ((" " ++ EmptyString ++ "/" ++ EmptyString ++ " ")
          ++ "Open the pod doors")
       = Some true.
Proof.
  apply (@respond_matches_name_and_alias
           (Robot.constructor (Some "R2-D2") (Some "/"))
           (RegExp.mk "open (.*) doors?" "i") empty_store
           "/" "/" " " EmptyString EmptyString " " "Open the pod doors").
  - reflexivity.
  - discriminate.
  - now right.
  - reflexivity.
  - reflexivity.
  - reflexivity.
  - reflexivity.
  - now left.
  - now left.
  - vm_compute. reflexivity.
Defined.
